(** * psimpl: generic n-dimensional polyline simplification

    A shallow embedding of [psimpl.h] (version of 27-02-2011) and the
    properties its specification states about it.

    Modelling conventions.
    - [value_type] is instantiated with a signed integer type (the header
      supports "floating point or signed integer data types").  A value is a
      [Z]; what an arithmetic expression leaves in a variable of type
      [value_type] is the exact result reduced to the type, [narrow] of the
      class [ValueType]: the squares of the tolerances, the coordinates of
      [make_vector] and the sums of [dot] and [point_distance2].  The general
      theorems hold for every such type and say what they need of it; closed
      examples use [Int], the two's complement [int] of 32 bits, and [Short],
      of 16 bits, for which [narrow] wraps around.
    - [DIM] is not zero.  With [DIM = 0] the validation [coordCount % DIM]
      of the routines divides by zero; the theorems about a routine as a
      whole assume [DIM ≠ 0].
    - An input iterator is the range that remains in front of it: a
      [list Z].  [*p] is the head, [std::advance (p, k)] is [drop k p] and
      [p == last] holds when nothing remains.
    - An output iterator is the list of values written through it, in
      order; a routine returns that list together with the offset of the
      iterator it returns, counted from the [result] it was given.
    - The [float] computations of the distance functions (the quotient
      [fraction] and the interpolation that is stored back into a
      [value_type]) are the two operations of the class [FloatModel].  The
      general theorems hold for every such model; closed examples use
      [ExactFloat], in which the quotient is exact and the conversion to
      [value_type] truncates towards zero.
    - [std::priority_queue] is a list of pending entries in push order; which
      of several entries with the same largest key is on top is decided by a
      parameter [choose]. *)

From Stdlib Require Import ZArith Lia.
From stdpp Require Import base tactics numbers option list.

(** ** The value type *)

Class ValueType := {
  (** the conversion to [value_type] of the exact result of an expression *)
  narrow : Z → Z;
  narrow_0 : narrow 0 = 0%Z
}.

(** Reduction to the two's complement integers of [bits] bits. *)
Definition signed (bits x : Z) : Z :=
  ((x + 2 ^ (bits - 1)) mod 2 ^ bits - 2 ^ (bits - 1))%Z.

(** [int], with the wrap-around that the overflow of its arithmetic comes
    to. *)
Definition Int : ValueType := {| narrow := signed 32; narrow_0 := eq_refl |}.

(** [short]: the arithmetic is that of [int], and the result is converted
    to [short] when it is stored. *)
Definition Short : ValueType := {| narrow := signed 16; narrow_0 := eq_refl |}.

(** ** The float operations *)

Class FloatModel := {
  float : Type;
  (** [static_cast <float> (cw) / static_cast <float> (cv)] *)
  float_div : Z → Z → float;
  (** the interpolated coordinate [p1 + fraction * (p2 - p1)], stored into a
      [value_type] *)
  float_lerp : Z → Z → float → Z
}.

(** The exact quotient [cw / cv], kept as a pair, and truncation towards
    zero of [p1 + cw / cv * (p2 - p1)]. *)
Definition ExactFloat : FloatModel := {|
  float := Z * Z;
  float_div cw cv := (cw, cv);
  float_lerp p1 p2 fraction :=
    (p1 * fraction.2 + fraction.1 * (p2 - p1)) ÷ fraction.2
|}%Z.

(** ** namespace math *)

Module math.
Section math.
Context {VT : ValueType} {FM : FloatModel}.
Variable DIM : nat.

(** The [DIM] coordinates of the point an iterator refers to. *)
Definition coords_of (p : list Z) : list Z := take DIM p.

Definition equal (p1 p2 : list Z) : bool :=
  forallb (λ c, (c.1 =? c.2)%Z) (zip (coords_of p1) (coords_of p2)).

Definition make_vector (p1 p2 : list Z) : list Z :=
  zip_with (λ c1 c2, narrow (c2 - c1)) (coords_of p1) (coords_of p2).

Definition dot (v1 v2 : list Z) : Z :=
  foldl (λ result c, narrow (result + c.1 * c.2)) 0%Z
        (zip (coords_of v1) (coords_of v2)).

Definition interpolate (p1 p2 : list Z) (fraction : float) : list Z :=
  zip_with (λ c1 c2, float_lerp c1 c2 fraction) (coords_of p1) (coords_of p2).

Definition point_distance2 (p1 p2 : list Z) : Z :=
  foldl (λ result c, narrow (result + (c.1 - c.2) * (c.1 - c.2))) 0%Z
        (zip (coords_of p1) (coords_of p2)).

Definition line_distance2 (l1 l2 p : list Z) : Z :=
  let v := make_vector l1 l2 in
  let w := make_vector l1 p in
  let cv := dot v v in
  let cw := dot w v in
  let fraction := float_div cw cv in
  let proj := interpolate l1 l2 fraction in
  point_distance2 p proj.

Definition segment_distance2 (s1 s2 p : list Z) : Z :=
  let v := make_vector s1 s2 in
  let w := make_vector s1 p in
  let cw := dot w v in
  if (cw <=? 0)%Z then point_distance2 p s1
  else
    let cv := dot v v in
    if (cv <=? cw)%Z then point_distance2 p s2
    else
      let fraction := float_div cw cv in
      let proj := interpolate s1 s2 fraction in
      point_distance2 p proj.

Definition ray_distance2 (r1 r2 p : list Z) : Z :=
  let v := make_vector r1 r2 in
  let w := make_vector r1 p in
  let cv := dot v v in
  let cw := dot w v in
  if (cw <=? 0)%Z then point_distance2 p r1
  else
    let fraction := float_div cw cv in
    let proj := interpolate r1 r2 fraction in
    point_distance2 p proj.
End math.
End math.

(** ** Iterators and output *)

(** What a routine leaves behind: the values written through [result], and
    the offset from [result] of the iterator it returns. *)
Record Output := mkOutput { written : list Z; returned : nat }.

(** [std::advance (p, n)] *)
Definition advance (p : list Z) (n : nat) : list Z := drop n p.

(** [p == last] *)
Definition at_end (p : list Z) : bool :=
  match p with [] => true | _ => false end.

(** Reduction of a value to [unsigned] (32 bits). *)
Definition wrap32 (x : Z) : Z := (x mod 2 ^ 32)%Z.

(** ** class PolylineSimplification *)

Module PolylineSimplification.

(** *** class DPHelper *)

Module DPHelper.
(** A sub polyline: coordinate indices of its first and last point. *)
Record SubPoly := mkSubPoly { sp_first : nat; sp_last : nat }.

(** The key of a polyline; the default constructor gives [KeyInfo (0, 0)]. *)
Record KeyInfo := mkKeyInfo { index : nat; dist2 : Z }.

(** A sub polyline including its key. *)
Record SubPolyAlt := mkSubPolyAlt {
  alt_first : nat;
  alt_last : nat;
  keyInfo : KeyInfo
}.

(** [std::priority_queue <SubPolyAlt>]: the pending entries, oldest first.
    [choose] is given the keys [keyInfo.dist2] of the entries, by which
    [operator<] orders them, and tells the position of the entry on top. *)
Definition pq_pop (choose : list Z → nat) (queue : list SubPolyAlt)
  : option (SubPolyAlt * list SubPolyAlt) :=
  let i := choose (map (λ e, dist2 (keyInfo e)) queue) in
  e ← queue !! i;
  Some (e, delete i queue).

(** What a priority queue owes its user: the entry on top exists and no
    entry has a larger key. *)
Definition pq_policy (choose : list Z → nat) : Prop :=
  ∀ ds : list Z, ds ≠ [] →
    ∃ d, ds !! choose ds = Some d ∧ Forall (λ d', (d' <= d)%Z) ds.

(** Among several largest keys, the entry pushed first. *)
Fixpoint first_max (ds : list Z) : nat :=
  match ds with
  | [] => 0
  | d :: ds' =>
      if forallb (λ d', (d' <=? d)%Z) ds' then 0 else S (first_max ds')
  end.

(** Among several largest keys, the entry pushed last. *)
Fixpoint last_max (ds : list Z) : nat :=
  match ds with
  | [] => 0
  | d :: ds' =>
      if existsb (λ d', (d <=? d')%Z) ds' then S (last_max ds') else 0
  end.

Section DPHelper.
Context {VT : ValueType} {FM : FloatModel}.
Variable DIM : nat.

(** The loop [for (current = first + DIM; current < last; current += DIM)].
    [current] grows in every iteration, so [last - first] iterations are
    never used up when [DIM] is not zero. *)
Fixpoint FindKey_loop (fuel : nat) (coords : list Z) (first last current : nat)
    (keyInfo : KeyInfo) : KeyInfo :=
  match fuel with
  | 0 => keyInfo
  | S fuel =>
      if current <? last then
        let d2 := math.segment_distance2 DIM (drop first coords)
                    (drop last coords) (drop current coords) in
        if (d2 <? dist2 keyInfo)%Z
        then FindKey_loop fuel coords first last (current + DIM) keyInfo
        else FindKey_loop fuel coords first last (current + DIM)
               (mkKeyInfo current d2)
      else keyInfo
  end.

Definition FindKey (coords : list Z) (first last : nat) : KeyInfo :=
  FindKey_loop (last - first) coords first last (first + DIM) (mkKeyInfo 0 0).

(** The loop [while (!stack.empty ())]; the stack is a list, top first. *)
Fixpoint Approximate_loop (fuel : nat) (coords : list Z) (tol2 : Z)
    (stack : list SubPoly) (keys : list bool) : option (list bool) :=
  match fuel with
  | 0 => None
  | S fuel =>
      match stack with
      | [] => Some keys
      | subPoly :: stack =>
          let keyInfo := FindKey coords (sp_first subPoly) (sp_last subPoly) in
          if negb (index keyInfo =? sp_last subPoly) && (tol2 <? dist2 keyInfo)%Z
          then
            let keys := <[index keyInfo / DIM := true]> keys in
            let stack := mkSubPoly (index keyInfo) (sp_last subPoly) :: stack in
            let stack := mkSubPoly (sp_first subPoly) (index keyInfo) :: stack in
            Approximate_loop fuel coords tol2 stack keys
          else Approximate_loop fuel coords tol2 stack keys
      end
  end.

(** [keys] is the array of flags the caller allocated; the function zeroes
    [pointCount] of them.  A sub polyline of [s] segments is popped at most
    [2 * s - 1] times over, whence the bound on the iterations. *)
Definition Approximate (coords : list Z) (coordCount : nat) (tol : Z)
  : option (list bool) :=
  let tol2 := narrow (tol * tol) in
  let pointCount := coordCount / DIM in
  let keys := replicate pointCount false in
  let keys := <[0 := true]> keys in
  let keys := <[pointCount - 1 := true]> keys in
  let subPoly := mkSubPoly 0 (coordCount - DIM) in
  Approximate_loop (2 * coordCount + 1) coords tol2 [subPoly] keys.

Variable choose : list Z → nat.

(** The loop [while (!queue.empty ())]. *)
Fixpoint ApproximateAlt_loop (fuel : nat) (coords : list Z) (countTol : nat)
    (queue : list SubPolyAlt) (keys : list bool) (keyCount : nat)
  : option (list bool) :=
  match fuel with
  | 0 => None
  | S fuel =>
      match pq_pop choose queue with
      | None => Some keys
      | Some (subPoly, queue) =>
          if negb (index (keyInfo subPoly) =? alt_last subPoly) then
            let keys := <[index (keyInfo subPoly) / DIM := true]> keys in
            let keyCount := S keyCount in
            if keyCount =? countTol then Some keys
            else
              let left :=
                mkSubPolyAlt (alt_first subPoly) (index (keyInfo subPoly))
                  (FindKey coords (alt_first subPoly) (index (keyInfo subPoly))) in
              let queue := queue ++ [left] in
              let right :=
                mkSubPolyAlt (index (keyInfo subPoly)) (alt_last subPoly)
                  (FindKey coords (index (keyInfo subPoly)) (alt_last subPoly)) in
              let queue := queue ++ [right] in
              ApproximateAlt_loop fuel coords countTol queue keys keyCount
          else ApproximateAlt_loop fuel coords countTol queue keys keyCount
      end
  end.

(** An iteration either empties the queue by one entry or counts a key and
    grows the queue by one, whence the bound on the iterations. *)
Definition ApproximateAlt (coords : list Z) (coordCount countTol : nat)
  : option (list bool) :=
  let pointCount := coordCount / DIM in
  let keys := replicate pointCount false in
  let keys := <[0 := true]> keys in
  let keys := <[pointCount - 1 := true]> keys in
  let keyCount := 2 in
  if countTol =? 2 then Some keys
  else
    let subPoly :=
      mkSubPolyAlt 0 (coordCount - DIM) (FindKey coords 0 (coordCount - DIM)) in
    ApproximateAlt_loop (2 * countTol + 2) coords countTol [subPoly] keys keyCount.
End DPHelper.
End DPHelper.

Section PolylineSimplification.
Context {VT : ValueType} {FM : FloatModel}.
Variable DIM : nat.

(** [DIM ? coordCount / DIM : 0] *)
Definition pointCount_of (coordCount : nat) : nat :=
  match DIM with 0 => 0 | _ => coordCount / DIM end.

(** [CopyKey (key, result)]: [result] is passed by reference and moves on. *)
Definition CopyKey (key result : list Z) : list Z := result ++ take DIM key.

(** [std::copy (first, last, result); return result;]: the copy is made,
    the iterator returned is the one that was passed in. *)
Definition copy_through (first : list Z) : Output := mkOutput first 0.

(** [return result;] after the keys were copied through [CopyKey]. *)
Definition end_of (result : list Z) : Output := mkOutput result (length result).

(** *** NthPoint *)

Fixpoint NthPoint_loop (k step : nat) (key result : list Z)
  : list Z * list Z :=
  match k with
  | 0 => (key, result)
  | S i =>
      let key := advance key step in
      NthPoint_loop i step key (CopyKey key result)
  end.

Definition NthPoint (first : list Z) (n : nat) : Output :=
  let coordCount := length first in
  let pointCount := pointCount_of coordCount in
  if negb (coordCount mod DIM =? 0) || (pointCount <? 2) || (n <? 2)
  then copy_through first
  else
    let key := first in
    let result := CopyKey key [] in
    let k := wrap32 ((Z.of_nat pointCount - 1) / Z.of_nat n) in
    let r := wrap32 (Z.of_nat pointCount - wrap32 (k * Z.of_nat n) - 1) in
    let '(key, result) :=
      NthPoint_loop (Z.to_nat k)
        (Z.to_nat (wrap32 (Z.of_nat n * Z.of_nat DIM))) key result in
    if negb (r =? 0)%Z
    then
      let key := advance key (Z.to_nat (wrap32 (Z.of_nat DIM * r))) in
      end_of (CopyKey key result)
    else end_of result.

(** *** RadialDistance *)

(** The loop [for (index = 1; index < pointCount - 1; ++index)]; [iters]
    counts the iterations that remain.  Returns [next] and [result]. *)
Fixpoint RadialDistance_loop (iters : nat) (tol2 : Z)
    (current next result : list Z) : list Z * list Z :=
  match iters with
  | 0 => (next, result)
  | S i =>
      let next := advance next DIM in
      if (math.point_distance2 DIM current next <? tol2)%Z
      then RadialDistance_loop i tol2 current next result
      else RadialDistance_loop i tol2 next next (CopyKey next result)
  end.

Definition RadialDistance (first : list Z) (tol : Z) : Output :=
  let coordCount := length first in
  let pointCount := pointCount_of coordCount in
  let tol2 := narrow (tol * tol) in
  if negb (coordCount mod DIM =? 0) || (pointCount <? 2) || (tol2 =? 0)%Z
  then copy_through first
  else
    let current := first in
    let next := first in
    let result := CopyKey current [] in
    let '(next, result) :=
      RadialDistance_loop (pointCount - 2) tol2 current next result in
    let next := advance next DIM in
    end_of (CopyKey next result).

(** *** PerpendicularDistance, single pass *)

(** The loop [while (p2 != last)]; returns [p1] and [result].  Every
    iteration moves [p2] forward, so [fuel] bounds the iterations by the
    number of points; [None] means the bound was too small. *)
Fixpoint PerpendicularDistance_loop (fuel : nat) (tol2 : Z)
    (p0 p1 p2 result : list Z) : option (list Z * list Z) :=
  match fuel with
  | 0 => None
  | S fuel =>
      if at_end p2 then Some (p1, result)
      else if (math.segment_distance2 DIM p0 p2 p1 <? tol2)%Z then
        let result := CopyKey p2 result in
        let p0 := p2 in
        let p1 := advance p1 (2 * DIM) in
        if at_end p1 then Some (p1, result)
        else
          let p2 := advance p2 (2 * DIM) in
          PerpendicularDistance_loop fuel tol2 p0 p1 p2 result
      else
        let result := CopyKey p1 result in
        let p0 := p1 in
        let p1 := p2 in
        let p2 := advance p2 DIM in
        PerpendicularDistance_loop fuel tol2 p0 p1 p2 result
  end.

Definition PerpendicularDistance (first : list Z) (tol : Z) : option Output :=
  let coordCount := length first in
  let pointCount := pointCount_of coordCount in
  let tol2 := narrow (tol * tol) in
  if negb (coordCount mod DIM =? 0) || (pointCount <? 3) || (tol2 =? 0)%Z
  then Some (copy_through first)
  else
    let p0 := first in
    let p1 := advance p0 DIM in
    let p2 := advance p1 DIM in
    let result := CopyKey p0 [] in
    '(p1, result) ← PerpendicularDistance_loop pointCount tol2 p0 p1 p2 result;
    if negb (at_end p1)
    then Some (end_of (CopyKey p1 result))
    else Some (end_of result).

(** *** PerpendicularDistance, repeated *)

(** The loop [while (--repeat)] over the two temporary arrays.  [repeat]
    is the value after the decrement of the loop test.  [inl] is a return
    from inside the loop, [inr] carries [tempPoly] and [coordCount] to the
    final pass.  An array is the list of values written to it; a pass
    reads [coordCount] values of [tempPoly]. *)
Fixpoint PerpendicularDistance_passes (repeat : nat) (tol : Z)
    (tempPoly : list Z) (coordCount : nat)
  : option (Output + list Z * nat) :=
  match repeat with
  | 0 => Some (inr (tempPoly, coordCount))
  | S repeat =>
      tempResult ← PerpendicularDistance (take coordCount tempPoly) tol;
      let tempCoordCount := returned tempResult in
      if coordCount =? tempCoordCount
      then Some (inl (mkOutput (take coordCount tempPoly) 0))
      else
        PerpendicularDistance_passes repeat tol
          (written tempResult) tempCoordCount
  end.

Definition PerpendicularDistance_repeat (first : list Z) (tol : Z)
    (repeat : nat) : option Output :=
  if repeat =? 1 then PerpendicularDistance first tol
  else if repeat <? 1 then Some (copy_through first)
  else
    let coordCount := length first in
    tempPoly ← PerpendicularDistance first tol;
    let tempCoordCount := returned tempPoly in
    if coordCount =? tempCoordCount
    then Some (mkOutput (take coordCount (written tempPoly)) 0)
    else
      let coordCount := tempCoordCount in
      let repeat := repeat - 1 in
      after ←
        (if 1 <? repeat
         then PerpendicularDistance_passes (repeat - 1) tol
                (written tempPoly) coordCount
         else Some (inr (written tempPoly, coordCount)));
      match after with
      | inl out => Some out
      | inr (tempPoly, coordCount) =>
          PerpendicularDistance (take coordCount tempPoly) tol
      end.

(** *** ReumannWitkam *)

(** The loop [for (j = 2; j < pointCount; ++j)]; returns [pj] and
    [result]. *)
Fixpoint ReumannWitkam_loop (iters : nat) (tol2 : Z)
    (p0 p1 pi pj result : list Z) : list Z * list Z :=
  match iters with
  | 0 => (pj, result)
  | S i =>
      let pi := pj in
      let pj := advance pj DIM in
      if (math.line_distance2 DIM p0 p1 pj <? tol2)%Z
      then ReumannWitkam_loop i tol2 p0 p1 pi pj result
      else ReumannWitkam_loop i tol2 pi pj pi pj (CopyKey pi result)
  end.

Definition ReumannWitkam (first : list Z) (tol : Z) : Output :=
  let coordCount := length first in
  let pointCount := pointCount_of coordCount in
  let tol2 := narrow (tol * tol) in
  if negb (coordCount mod DIM =? 0) || (pointCount <? 3) || (tol2 =? 0)%Z
  then copy_through first
  else
    let p0 := first in
    let p1 := advance first DIM in
    let pi := p1 in
    let pj := p1 in
    let result := CopyKey p0 [] in
    let '(pj, result) :=
      ReumannWitkam_loop (pointCount - 2) tol2 p0 p1 pi pj result in
    end_of (CopyKey pj result).

(** *** Opheim *)

Record OpheimState := mkOpheim {
  op_r0 : list Z;          (** the current key and start of the ray *)
  op_r1 : list Z;          (** a point on the ray *)
  op_rayDefined : bool;
  op_pi : list Z;          (** the previous test point *)
  op_pj : list Z;          (** the current test point *)
  op_result : list Z
}.

(** One iteration of the loop [for (j = 2; j < pointCount; ++j)]. *)
Definition Opheim_step (minTol2 maxTol2 : Z) (s : OpheimState) : OpheimState :=
  let pi := op_pj s in
  let pj := advance (op_pj s) DIM in
  let r0 := op_r0 s in
  (* the block [if (!rayDefined)]: [None] when it leaves by [continue] *)
  let ray :=
    if negb (op_rayDefined s) then
      if (math.point_distance2 DIM r0 pj <? minTol2)%Z then None
      else Some pi
    else Some (op_r1 s) in
  match ray with
  | None => mkOpheim r0 (op_r1 s) false pi pj (op_result s)
  | Some r1 =>
      if (math.point_distance2 DIM r0 pj <? maxTol2)%Z &&
         (math.ray_distance2 DIM r0 r1 pj <? minTol2)%Z
      then mkOpheim r0 r1 true pi pj (op_result s)
      else mkOpheim pi r1 false pi pj (CopyKey pi (op_result s))
  end.

Fixpoint Opheim_loop (iters : nat) (minTol2 maxTol2 : Z) (s : OpheimState)
  : OpheimState :=
  match iters with
  | 0 => s
  | S i => Opheim_loop i minTol2 maxTol2 (Opheim_step minTol2 maxTol2 s)
  end.

(** The state on entry to the loop. *)
Definition Opheim_init (first : list Z) : OpheimState :=
  let r0 := first in
  let r1 := first in
  let pi := r0 in
  let pj := advance r0 DIM in
  mkOpheim r0 r1 false pi pj (CopyKey r0 []).

Definition Opheim (first : list Z) (minTol maxTol : Z) : Output :=
  let coordCount := length first in
  let pointCount := pointCount_of coordCount in
  let minTol2 := narrow (minTol * minTol) in
  let maxTol2 := narrow (maxTol * maxTol) in
  if negb (coordCount mod DIM =? 0) || (pointCount <? 2)
     || (minTol2 =? 0)%Z || (maxTol2 =? 0)%Z
  then copy_through first
  else
    let s := Opheim_loop (pointCount - 2) minTol2 maxTol2 (Opheim_init first) in
    end_of (CopyKey (op_pj s) (op_result s)).

(** *** DouglasPeucker *)

(** The loop [for (p = 0; p < pointCount; ++p, current += DIM)] that
    copies the points whose flag is set. *)
Fixpoint copy_keys (iters p : nat) (keys : list bool)
    (current result : list Z) : list Z :=
  match iters with
  | 0 => result
  | S i =>
      let result :=
        if default false (keys !! p) then result ++ take DIM current
        else result in
      copy_keys i (S p) keys (drop DIM current) result
  end.

(** When [RadialDistance] falls back, which it does for a [tol] that is
    not zero and whose square is zero in [value_type], [reducedCoordCount]
    is 0 and [Approximate] stores [keys [pointCount - 1]] in front of the
    array; here both indices are natural numbers and the store is lost. *)
Definition DouglasPeucker (first : list Z) (tol : Z) : option Output :=
  let coordCount := length first in
  let pointCount := pointCount_of coordCount in
  if negb (coordCount mod DIM =? 0) || (pointCount <? 2) || (tol =? 0)%Z
  then Some (copy_through first)
  else
    let rd := RadialDistance first tol in
    let reduced := written rd in
    let reducedCoordCount := returned rd in
    let reducedPointCount := reducedCoordCount / DIM in
    keys ← DPHelper.Approximate DIM reduced reducedCoordCount tol;
    Some (end_of (copy_keys reducedPointCount 0 keys reduced [])).

(** *** DouglasPeuckerAlt *)

Variable choose : list Z → nat.

Definition DouglasPeuckerAlt (first : list Z) (count : nat) : option Output :=
  let coordCount := length first in
  let pointCount := pointCount_of coordCount in
  if negb (coordCount mod DIM =? 0) || (pointCount <=? count) || (count <? 2)
  then Some (copy_through first)
  else
    let coords := first in
    keys ← DPHelper.ApproximateAlt DIM choose coords coordCount count;
    Some (end_of (copy_keys pointCount 0 keys coords [])).

(** *** ComputePositionalErrors2 *)

(** The inner loop
    [while (original_first != original_last && !equal (original_first, simplified_first))];
    returns [original_first] and [result]. *)
Fixpoint ComputePositionalErrors2_scan (fuel : nat)
    (simplified_prev simplified_first original_first : list Z)
    (result : list Z) : option (list Z * list Z) :=
  match fuel with
  | 0 => None
  | S fuel =>
      if negb (at_end original_first) &&
         negb (math.equal DIM original_first simplified_first)
      then
        let result :=
          result ++ [math.segment_distance2 DIM simplified_prev
                       simplified_first original_first] in
        ComputePositionalErrors2_scan fuel simplified_prev simplified_first
          (advance original_first DIM) result
      else Some (original_first, result)
  end.

(** The outer loop [while (simplified_first != simplified_last)]. *)
Fixpoint ComputePositionalErrors2_loop (fuel : nat)
    (simplified_prev simplified_first original_first : list Z)
    (result : list Z) : option (list Z * list Z) :=
  match fuel with
  | 0 => None
  | S fuel =>
      if at_end simplified_first then Some (original_first, result)
      else
        '(original_first, result) ←
          ComputePositionalErrors2_scan (S (length original_first))
            simplified_prev simplified_first original_first result;
        ComputePositionalErrors2_loop fuel simplified_first
          (advance simplified_first DIM) original_first result
  end.

(** Returns the errors written, the offset of the returned iterator and
    the value stored in [*valid]. *)
Definition ComputePositionalErrors2 (original simplified : list Z)
  : option (Output * bool) :=
  let original_coordCount := length original in
  let original_pointCount := pointCount_of original_coordCount in
  let simplified_coordCount := length simplified in
  let simplified_pointCount := pointCount_of simplified_coordCount in
  if negb (original_coordCount mod DIM =? 0) || (original_pointCount <? 2)
     || negb (simplified_coordCount mod DIM =? 0) || (simplified_pointCount <? 2)
     || (original_pointCount <? simplified_pointCount)
     || negb (math.equal DIM original simplified)
  then Some (mkOutput [] 0, false)
  else
    let simplified_prev := simplified in
    let simplified_first := advance simplified DIM in
    '(original_first, result) ←
      ComputePositionalErrors2_loop (S (length simplified)) simplified_prev
        simplified_first original [];
    let result :=
      if negb (at_end original_first) then result ++ [0%Z] else result in
    Some (end_of result, negb (at_end original_first)).
End PolylineSimplification.
End PolylineSimplification.

(** ** The simplification routines, by name *)

Inductive Routine :=
  | NthPoint (n : nat)
  | RadialDistance (tol : Z)
  | PerpendicularDistance (tol : Z)
  | PerpendicularDistanceRepeat (tol : Z) (repeat : nat)
  | ReumannWitkam (tol : Z)
  | Opheim (minTol maxTol : Z)
  | DouglasPeucker (tol : Z)
  | DouglasPeuckerAlt (count : nat).

(** The routines that sweep the polyline once or work on one copy of it:
    all but the repeated perpendicular distance routine. *)
Definition single_pass (r : Routine) : bool :=
  match r with PerpendicularDistanceRepeat _ _ => false | _ => true end.

(** The least number of points a routine accepts. *)
Definition min_points (r : Routine) : nat :=
  match r with
  | NthPoint _ | RadialDistance _ | Opheim _ _ | DouglasPeucker _ => 2
  | PerpendicularDistance _ | PerpendicularDistanceRepeat _ _
  | ReumannWitkam _ => 3
  | DouglasPeuckerAlt count => S count
  end.

(** The parameters a routine accepts. *)
Definition valid_parameters (r : Routine) : bool :=
  match r with
  | NthPoint n => 2 <=? n
  | RadialDistance tol | PerpendicularDistance tol | ReumannWitkam tol
  | DouglasPeucker tol => negb (tol =? 0)%Z
  | PerpendicularDistanceRepeat tol repeat => negb (tol =? 0)%Z && (1 <=? repeat)
  | Opheim minTol maxTol => negb (minTol =? 0)%Z && negb (maxTol =? 0)%Z
  | DouglasPeuckerAlt count => 2 <=? count
  end.


Section run.
Context {VT : ValueType} {FM : FloatModel}.
Variable DIM : nat.
Variable choose : list Z → nat.

Definition run (r : Routine) (first : list Z) : option Output :=
  match r with
  | NthPoint n => Some (PolylineSimplification.NthPoint DIM first n)
  | RadialDistance tol =>
      Some (PolylineSimplification.RadialDistance DIM first tol)
  | PerpendicularDistance tol =>
      PolylineSimplification.PerpendicularDistance DIM first tol
  | PerpendicularDistanceRepeat tol repeat =>
      PolylineSimplification.PerpendicularDistance_repeat DIM first tol repeat
  | ReumannWitkam tol =>
      Some (PolylineSimplification.ReumannWitkam DIM first tol)
  | Opheim minTol maxTol =>
      Some (PolylineSimplification.Opheim DIM first minTol maxTol)
  | DouglasPeucker tol => PolylineSimplification.DouglasPeucker DIM first tol
  | DouglasPeuckerAlt count =>
      PolylineSimplification.DouglasPeuckerAlt DIM choose first count
  end.

(** An input the routine accepts: whole points, enough of them, and
    parameters that are not rejected. *)
Definition valid_input (r : Routine) (first : list Z) : bool :=
  negb (DIM =? 0) && (length first mod DIM =? 0) &&
  (min_points r <=? length first / DIM) && valid_parameters r.
End run.

(** ** Polylines as lists of points *)

Section points.
Variable DIM : nat.

Fixpoint chunks (fuel : nat) (l : list Z) : list (list Z) :=
  match fuel with
  | 0 => []
  | S fuel =>
      match l with
      | [] => []
      | _ => take DIM l :: chunks fuel (drop DIM l)
      end
  end.

(** The points of a coordinate sequence, in order; coordinates left over at
    the end form a last, shorter, group. *)
Definition points (l : list Z) : list (list Z) := chunks (length l) l.

(** All points have [DIM] coordinates. *)
Definition whole (ps : list (list Z)) : Prop :=
  Forall (λ p, length p = DIM) ps.
End points.

(** ** Exact arithmetic *)

(** The squared distance of two points, as a number: the sum that
    [point_distance2] accumulates, without the reduction to
    [value_type]. *)
Definition sum_squares (p q : list Z) : Z :=
  foldl (λ result c, (result + (c.1 - c.2) * (c.1 - c.2))%Z) 0%Z (zip p q).

(** The value type holds every number from [- B] to [B] as it is. *)
Definition holds {VT : ValueType} (B : Z) : Prop :=
  ∀ x, (- B <= x <= B)%Z → narrow x = x.

(** ** Exact projections *)

(** The interpolation of one coordinate loses nothing: the value stored is
    the exact [a + cw / cv * (b - a)]. *)
Definition lerp_exact {FM : FloatModel} (cw cv a b : Z) : Prop :=
  (cv * float_lerp a b (float_div cw cv) = cv * a + cw * (b - a))%Z.

(** The projection that [segment_distance2 (s1, s2, p)] interpolates, if it
    interpolates one, is exact in every coordinate. *)
Definition projection_exact {VT : ValueType} {FM : FloatModel} (DIM : nat) (s1 s2 p : list Z) : Prop :=
  let v := math.make_vector DIM s1 s2 in
  let w := math.make_vector DIM s1 p in
  let cw := math.dot DIM w v in
  let cv := math.dot DIM v v in
  (0 < cw < cv)%Z →
  Forall2 (lerp_exact cw cv) (math.coords_of DIM s1) (math.coords_of DIM s2).

(** ** The routines on lists of points *)

(** The points that the sweep of [RadialDistance] keeps among [qs], the
    points after the first and before the last, when [current] is the key
    on entry. *)
Fixpoint radial_keys {VT : ValueType} (DIM : nat) (tol2 : Z)
    (current : list Z) (qs : list (list Z)) : list (list Z) :=
  match qs with
  | [] => []
  | q :: qs =>
      if (math.point_distance2 DIM current q <? tol2)%Z
      then radial_keys DIM tol2 current qs
      else q :: radial_keys DIM tol2 q qs
  end.

(** [outs] is a simplification of [ps] that keeps both ends: some of the
    points, in their order, the first and the last among them. *)
Definition simplifies (outs ps : list (list Z)) : Prop :=
  outs `sublist_of` ps ∧ head outs = head ps ∧ last outs = last ps.

(** ** Keys of a sub polyline *)

(** The squared distance of the point at coordinate index [current] to the
    segment from the point at [first] to the point at [last], as [FindKey]
    computes it. *)
Definition key_distance {VT : ValueType} {FM : FloatModel} (DIM : nat) (coords : list Z)
    (first last current : nat) : Z :=
  math.segment_distance2 DIM (drop first coords) (drop last coords)
    (drop current coords).

(** [current] is the coordinate index of a point strictly between the points
    at [first] and [last]: a value the loop variable of [FindKey] takes. *)
Definition interior (DIM first last current : nat) : Prop :=
  ∃ j, current = first + DIM + j * DIM ∧ current < last.

(** What is left to do for a stack of sub polylines: a sub polyline of [s]
    coordinates is popped at most [2 * s - 1] times over. *)
Definition stack_weight (stack : list PolylineSimplification.DPHelper.SubPoly) : nat :=
  sum_list_with
    (λ sp, Nat.max 1 (2 * (PolylineSimplification.DPHelper.sp_last sp -
                           PolylineSimplification.DPHelper.sp_first sp) - 1))
    stack.

(** ** What a run comes to *)

(** The routine simplified a polyline of whole points and returned the end
    of what it wrote. *)
Definition simplified (DIM : nat) (first : list Z) (out : option Output) : Prop :=
  ∃ ps outs, first = concat ps ∧ whole DIM ps ∧ DIM ≠ 0 ∧
    out = Some (PolylineSimplification.end_of (concat outs)) ∧
    simplifies outs ps.


(** Among the interior points at the largest distance, [current] is the
    first: no interior point is farther and every earlier one is strictly
    nearer. *)
Definition first_maximal {VT : ValueType} {FM : FloatModel} (DIM : nat) (coords : list Z)
    (first last current : nat) : Prop :=
  interior DIM first last current ∧
  (∀ c, interior DIM first last c →
     (key_distance DIM coords first last c <=
      key_distance DIM coords first last current)%Z) ∧
  (∀ c, interior DIM first last c → c < current →
     (key_distance DIM coords first last c <
      key_distance DIM coords first last current)%Z).

(** Among the interior points at the largest distance, [current] is the
    last: no interior point is farther and every later one is strictly
    nearer. *)
Definition last_maximal {VT : ValueType} {FM : FloatModel} (DIM : nat) (coords : list Z)
    (first last current : nat) : Prop :=
  interior DIM first last current ∧
  (∀ c, interior DIM first last c →
     (key_distance DIM coords first last c <=
      key_distance DIM coords first last current)%Z) ∧
  (∀ c, interior DIM first last c → current < c →
     (key_distance DIM coords first last c <
      key_distance DIM coords first last current)%Z).

(** ** Positional errors on lists of points *)

(** The scan of the original for the end [s] of the segment from [prev]:
    the errors of the points in front of the first point equal to [s], and
    the original from that point on. *)
Fixpoint errors_to {VT : ValueType} {FM : FloatModel} (DIM : nat) (prev s : list Z)
    (original : list (list Z)) : list Z * list (list Z) :=
  match original with
  | [] => ([], [])
  | o :: rest =>
      if math.equal DIM o s then ([], original)
      else
        let '(errors, rest) := errors_to DIM prev s rest in
        (math.segment_distance2 DIM prev s o :: errors, rest)
  end.

(** The scan for all segments of the simplification, the first of which
    starts at [prev]. *)
Fixpoint errors_all {VT : ValueType} {FM : FloatModel} (DIM : nat) (prev : list Z)
    (simplified original : list (list Z)) : list Z * list (list Z) :=
  match simplified with
  | [] => ([], original)
  | s :: simplified =>
      let '(errors, original) := errors_to DIM prev s original in
      let '(errors', original) := errors_all DIM s simplified original in
      (errors ++ errors', original)
  end.

(** The calls [segment_distance2 (prev, s, o)] of that scan: the segment
    and the point of each error, and the original from the first point
    equal to [s] on. *)
Fixpoint measured_to (DIM : nat) (prev s : list Z) (original : list (list Z))
  : list (list Z * list Z * list Z) * list (list Z) :=
  match original with
  | [] => ([], [])
  | o :: rest =>
      if math.equal DIM o s then ([], original)
      else
        let '(calls, rest) := measured_to DIM prev s rest in
        ((prev, s, o) :: calls, rest)
  end.



(** Every point of the simplification is found verbatim in the original,
    in order: at the place where the point before it was found, or
    later. *)
Inductive in_order : list (list Z) → list (list Z) → Prop :=
  | in_order_nil original : in_order [] original
  | in_order_here s simplified original :
      in_order simplified (s :: original) →
      in_order (s :: simplified) (s :: original)
  | in_order_later s simplified o original :
      in_order (s :: simplified) original →
      in_order (s :: simplified) (o :: original).

(** The inputs [ComputePositionalErrors2] takes for valid: both sequences
    are whole points, at least two each, the original has at least as many
    points as the simplification, the first points are equal, and the
    points of the simplification are found in the original in order. *)
Definition valid_simplification (DIM : nat) (original simplified : list Z) : Prop :=
  length original mod DIM = 0 ∧ 2 ≤ length original / DIM ∧
  length simplified mod DIM = 0 ∧ 2 ≤ length simplified / DIM ∧
  length simplified / DIM ≤ length original / DIM ∧
  take DIM original = take DIM simplified ∧
  in_order (points DIM simplified) (points DIM original).


(** ** The flags of the Douglas-Peucker routines *)

(** The points of [qs] whose flag is set, the flag of the first one being
    [keys !! p]. *)
Fixpoint flagged (p : nat) (keys : list bool) (qs : list (list Z))
  : list (list Z) :=
  match qs with
  | [] => []
  | q :: qs =>
      if default false (keys !! p) then q :: flagged (S p) keys qs
      else flagged (S p) keys qs
  end.


(** The stack of [Approximate], top first, when the sub polylines that wait
    are adjacent: from the point [x] to the first point of [xs], from there
    to the next one, and so on. *)
Fixpoint adjacent (DIM x : nat) (xs : list nat)
  : list PolylineSimplification.DPHelper.SubPoly :=
  match xs with
  | [] => []
  | y :: ys =>
      PolylineSimplification.DPHelper.mkSubPoly (x * DIM) (y * DIM)
        :: adjacent DIM y ys
  end.

Fixpoint increasing (x : nat) (xs : list nat) : Prop :=
  match xs with
  | [] => True
  | y :: ys => x < y ∧ increasing y ys
  end.

(** The polyline is done up to the point [x]: every point before [x] that
    is no key lies between two keys, with no key between them, and within
    the tolerance of the segment that joins them. *)
Definition settled {VT : ValueType} {FM : FloatModel} (DIM : nat) (coords : list Z) (tol2 : Z)
    (keys : list bool) (x : nat) : Prop :=
  ∀ i, i < x → keys !! i = Some false →
    ∃ a b, a < i < b ∧ b ≤ x ∧
      keys !! a = Some true ∧ keys !! b = Some true ∧
      (∀ j, a < j < b → keys !! j = Some false) ∧
      (key_distance DIM coords (a * DIM) (b * DIM) (i * DIM) <= tol2)%Z.

(** ** The tests of Opheim *)

(** The point [x], at position [t] of the polyline [ps], is near the key
    [k] as [Opheim] tests it: within the minimum tolerance of [k]; or
    within the maximum tolerance of [k] and within the minimum tolerance of
    the ray from [k] through a point of [ps] at a position from [lo] on and
    before [t]. *)
Definition Opheim_near {VT : ValueType} {FM : FloatModel} (DIM : nat) (minTol2 maxTol2 : Z)
    (ps : list (list Z)) (lo t : nat) (k x : list Z) : Prop :=
  (math.point_distance2 DIM k x < minTol2)%Z ∨
  ((math.point_distance2 DIM k x < maxTol2)%Z ∧
   ∃ i r, lo ≤ i < t ∧ ps !! i = Some r ∧
     (math.ray_distance2 DIM k r x < minTol2)%Z).

(** What an iteration of the loop of [Opheim] finds of the point [x] it
    looks at, the point after position [t] of [L]: [x] is near the key [K]
    the loop was entered with, with a ray through a point of [L] or, if one
    was defined on entry, through [R]; or [x] follows a point of [L] that
    the loop copied, one that [keys] flags, at once or near it. *)
Definition Opheim_tested {VT : ValueType} {FM : FloatModel} (DIM : nat) (minTol2 maxTol2 : Z)
    (L : list (list Z)) (K R : list Z) (rayDefined : bool)
    (keys : list bool) (t : nat) (x : list Z) : Prop :=
  (Opheim_near DIM minTol2 maxTol2 L 0 (S t) K x ∨
   ((math.point_distance2 DIM K x < maxTol2)%Z ∧ rayDefined = true ∧
    (math.ray_distance2 DIM K R x < minTol2)%Z)) ∨
  ∃ i k, i ≤ t ∧ L !! i = Some k ∧ keys !! i = Some true ∧
    (i = t ∨ Opheim_near DIM minTol2 maxTol2 L (S i) (S t) k x).

(** * Properties *)

(** ** The value types *)

Lemma signed_small (bits x : Z) :
  (0 < bits)%Z → (- 2 ^ (bits - 1) <= x < 2 ^ (bits - 1))%Z → signed bits x = x.
Proof.
  intros Hb Hx. unfold signed.
  assert (2 ^ bits = 2 * 2 ^ (bits - 1))%Z as ->.
  { rewrite <- Z.pow_succ_r by lia. f_equal. lia. }
  rewrite Z.mod_small by lia. lia.
Qed.

(** An [int] holds the numbers up to [2 ^ 31 - 1], a [short] those up to
    [2 ^ 15 - 1]. *)
Lemma Int_holds : holds (VT := Int) 2147483647.
Proof. intros x Hx. apply signed_small; [done|]. cbn. lia. Qed.

Lemma Short_holds : holds (VT := Short) 32767.
Proof. intros x Hx. apply signed_small; [done|]. cbn. lia. Qed.

(** ** Points and iterators *)

Section points_facts.
Variable DIM : nat.
Hypothesis DIM_pos : DIM ≠ 0.

Lemma whole_cons (p : list Z) ps : whole DIM (p :: ps) ↔ length p = DIM ∧ whole DIM ps.
Proof. unfold whole. by rewrite Forall_cons. Qed.

Lemma whole_app ps qs : whole DIM (ps ++ qs) ↔ whole DIM ps ∧ whole DIM qs.
Proof. unfold whole. by rewrite Forall_app. Qed.

Lemma whole_sublist ps qs : ps `sublist_of` qs → whole DIM qs → whole DIM ps.
Proof.
  unfold whole. rewrite !Forall_forall. intros Hs Hq p Hp.
  apply Hq. by eapply elem_of_sublist.
Qed.

Lemma length_concat_whole ps : whole DIM ps → length (concat ps) = length ps * DIM.
Proof.
  induction 1 as [|p ps Hp _ IH]; simpl; [done|].
  rewrite length_app, IH, Hp. lia.
Qed.

Lemma take_point (p rest : list Z) : length p = DIM → take DIM (p ++ rest) = p.
Proof. intros. by apply take_app_length'. Qed.

Lemma drop_point (p rest : list Z) : length p = DIM → drop DIM (p ++ rest) = rest.
Proof. intros. by apply drop_app_length'. Qed.

Lemma drop_points n (ps : list (list Z)) :
  whole DIM ps → drop (n * DIM) (concat ps) = concat (drop n ps).
Proof.
  revert ps. induction n as [|n IH]; intros ps Hps; [done|].
  destruct ps as [|p ps]; [simpl; by rewrite drop_nil|].
  apply whole_cons in Hps as [Hp Hps]. simpl.
  rewrite <- drop_drop, drop_point by done. by apply IH.
Qed.

Lemma point_not_nil (p rest : list Z) : length p = DIM → at_end (p ++ rest) = false.
Proof. destruct p; simpl; [intros; congruence | done]. Qed.

Lemma chunks_concat ps fuel :
  whole DIM ps → length ps ≤ fuel → chunks DIM fuel (concat ps) = ps.
Proof.
  intros Hps. revert fuel.
  induction Hps as [|p ps Hp _ IH]; intros fuel Hfuel.
  - by destruct fuel.
  - destruct fuel as [|fuel]; simpl in *; [lia|].
    destruct p as [|c p]; [simpl in Hp; congruence|].
    rewrite <- app_comm_cons. rewrite (app_comm_cons p (concat ps) c).
    rewrite take_point, drop_point by done.
    f_equal. apply IH. lia.
Qed.

Lemma points_concat ps : whole DIM ps → points DIM (concat ps) = ps.
Proof.
  intros Hps. apply chunks_concat; [done|].
  rewrite length_concat_whole by done. nia.
Qed.

(** A coordinate sequence of [n] whole points is the concatenation of its
    points. *)
Lemma whole_points_of_length n l :
  length l = n * DIM →
  ∃ ps, l = concat ps ∧ whole DIM ps ∧ length ps = n.
Proof.
  revert l. induction n as [|n IH]; intros l Hl.
  - exists []. destruct l; [by repeat split; try constructor | simpl in Hl; lia].
  - destruct (IH (drop DIM l)) as (ps & Hd & Hps & Hn).
    { rewrite length_drop. lia. }
    exists (take DIM l :: ps). repeat split.
    + simpl. rewrite <- Hd. by rewrite take_drop.
    + apply whole_cons. split; [|done]. rewrite length_take. lia.
    + simpl. by rewrite Hn.
Qed.

Lemma whole_points l :
  length l mod DIM = 0 →
  ∃ ps, l = concat ps ∧ whole DIM ps ∧ length ps = length l / DIM.
Proof.
  intros Hl. apply whole_points_of_length.
  apply Nat.Div0.div_exact in Hl. lia.
Qed.
End points_facts.

(** ** The distance functions *)

Section math_facts.
Context {VT : ValueType} {FM : FloatModel}.
Variable DIM : nat.

Lemma coords_of_point (p rest : list Z) :
  length p = DIM → math.coords_of DIM (p ++ rest) = p.
Proof. intros. by apply take_app_length'. Qed.

Lemma coords_of_whole (p : list Z) : length p = DIM → math.coords_of DIM p = p.
Proof. intros. apply take_ge. lia. Qed.

Lemma coords_of_idemp (p : list Z) :
  math.coords_of DIM (math.coords_of DIM p) = math.coords_of DIM p.
Proof. unfold math.coords_of. rewrite take_take. f_equal. lia. Qed.

(** The functions read the first [DIM] coordinates behind an iterator and
    nothing else. *)
Lemma point_distance2_coords p1 p2 :
  math.point_distance2 DIM p1 p2 =
  math.point_distance2 DIM (math.coords_of DIM p1) (math.coords_of DIM p2).
Proof. unfold math.point_distance2. by rewrite !coords_of_idemp. Qed.

Lemma equal_coords p1 p2 :
  math.equal DIM p1 p2 =
  math.equal DIM (math.coords_of DIM p1) (math.coords_of DIM p2).
Proof. unfold math.equal. by rewrite !coords_of_idemp. Qed.

Lemma make_vector_coords p1 p2 :
  math.make_vector DIM p1 p2 =
  math.make_vector DIM (math.coords_of DIM p1) (math.coords_of DIM p2).
Proof. unfold math.make_vector. by rewrite !coords_of_idemp. Qed.

Lemma interpolate_coords p1 p2 fraction :
  math.interpolate DIM p1 p2 fraction =
  math.interpolate DIM (math.coords_of DIM p1) (math.coords_of DIM p2) fraction.
Proof. unfold math.interpolate. by rewrite !coords_of_idemp. Qed.

Lemma segment_distance2_coords s1 s2 p :
  math.segment_distance2 DIM s1 s2 p =
  math.segment_distance2 DIM (math.coords_of DIM s1) (math.coords_of DIM s2)
    (math.coords_of DIM p).
Proof.
  unfold math.segment_distance2.
  rewrite (make_vector_coords s1 s2), (make_vector_coords s1 p).
  rewrite (interpolate_coords s1 s2).
  rewrite (point_distance2_coords p s1), (point_distance2_coords p s2).
  rewrite (point_distance2_coords p (math.interpolate _ _ _ _)).
  rewrite (point_distance2_coords (math.coords_of DIM p) (math.interpolate _ _ _ _)).
  by rewrite !coords_of_idemp.
Qed.

(** Sums of squares. *)
Lemma foldl_sum {A} (g : A → Z) (l : list A) (a : Z) :
  foldl (λ result c, (result + g c)%Z) a l =
  (a + foldl (λ result c, (result + g c)%Z) 0%Z l)%Z.
Proof.
  revert a. induction l as [|c l IH]; intros a; simpl; [lia|].
  rewrite (IH (a + g c)%Z), (IH (0 + g c)%Z). lia.
Qed.

(** The distance of a point to itself is zero in every value type. *)
Lemma point_distance2_refl p : math.point_distance2 DIM p p = 0%Z.
Proof.
  unfold math.point_distance2.
  induction (math.coords_of DIM p) as [|c l IH]; simpl; [done|].
  replace (0 + (c - c) * (c - c))%Z with 0%Z by lia.
  by rewrite narrow_0.
Qed.

Lemma point_distance2_sym p q :
  math.point_distance2 DIM p q = math.point_distance2 DIM q p.
Proof.
  unfold math.point_distance2.
  generalize (math.coords_of DIM q) 0%Z.
  induction (math.coords_of DIM p) as [|c l IH]; intros [|d k] a; simpl; try done.
  replace (a + (c - d) * (c - d))%Z with (a + (d - c) * (d - c))%Z by lia.
  apply IH.
Qed.

Lemma sum_squares_nonneg p q : (0 <= sum_squares p q)%Z.
Proof.
  unfold sum_squares. generalize (zip p q).
  intros l. induction l as [|c l IH]; simpl; [lia|].
  rewrite foldl_sum. pose proof (Z.square_nonneg (c.1 - c.2)). lia.
Qed.

Lemma sum_squares_sym p q : sum_squares p q = sum_squares q p.
Proof.
  unfold sum_squares. generalize 0%Z. revert q.
  induction p as [|c l IH]; intros [|d k] a; simpl; try done.
  replace (a + (c - d) * (c - d))%Z with (a + (d - c) * (d - c))%Z by lia.
  apply IH.
Qed.

Lemma forallb_zip_eqb (p q : list Z) :
  length p = length q →
  forallb (λ c, (c.1 =? c.2)%Z) (zip p q) = true ↔ p = q.
Proof.
  revert q. induction p as [|c p IH]; intros [|d q] Hq; simpl in *;
    try discriminate.
  - by split.
  - rewrite andb_true_iff, Z.eqb_eq, (IH q) by congruence.
    split; [intros [-> ->]; done | intros [= -> ->]; done].
Qed.

(** On points with the same number of coordinates [equal] decides
    equality. *)
Lemma equal_true (p q : list Z) :
  length p = DIM → length q = DIM → math.equal DIM p q = true ↔ p = q.
Proof.
  intros Hp Hq. unfold math.equal.
  rewrite !coords_of_whole by done. apply forallb_zip_eqb. congruence.
Qed.

End math_facts.

(** ** The distance to a segment *)

Section geometry.
Context {VT : ValueType} {FM : FloatModel}.

Local Abbreviation sq := (λ (result : Z) (c : Z * Z), (result + (c.1 - c.2) * (c.1 - c.2))%Z).
Local Abbreviation pr := (λ (result : Z) (c : Z * Z), (result + c.1 * c.2)%Z).
Local Abbreviation vec := (zip_with (λ c1 c2 : Z, (c2 - c1)%Z)).

(** |p - s2|² = |p - s1|² - 2 (p - s1)·(s2 - s1) + |s2 - s1|² *)
Lemma distance_to_end (s1 s2 p : list Z) :
  length s1 = length p → length s2 = length p →
  foldl sq 0%Z (zip p s2) =
  (foldl sq 0%Z (zip p s1) - 2 * foldl pr 0%Z (zip (vec s1 p) (vec s1 s2))
   + foldl pr 0%Z (zip (vec s1 s2) (vec s1 s2)))%Z.
Proof.
  revert s1 s2. induction p as [|c p IH]; intros [|a s1] [|b s2] H1 H2;
    simpl in *; try discriminate; [done|].
  rewrite (foldl_sum _ _ (0 + _)%Z).
  rewrite (foldl_sum (λ c : Z * Z, ((c.1 - c.2) * (c.1 - c.2))%Z) (zip p s1) (0 + _)%Z).
  rewrite (foldl_sum (λ c : Z * Z, (c.1 * c.2)%Z) (zip (vec s1 p) (vec s1 s2)) (0 + _)%Z).
  rewrite (foldl_sum (λ c : Z * Z, (c.1 * c.2)%Z) (zip (vec s1 s2) (vec s1 s2)) (0 + _)%Z).
  rewrite (IH s1 s2) by congruence. simpl. ring.
Qed.

(** cv² |p - proj|² = cv² |p - s1|² - 2 cv cw (p - s1)·(s2 - s1)
                       + cw² |s2 - s1|²
    when [cv * proj = cv * s1 + cw * (s2 - s1)] in every coordinate. *)
Lemma distance_to_projection (cw cv : Z) (fraction : float) (s1 s2 p : list Z) :
  length s1 = length p → length s2 = length p →
  Forall2 (λ a b, (cv * float_lerp a b fraction = cv * a + cw * (b - a))%Z) s1 s2 →
  (cv * cv * foldl sq 0%Z (zip p (zip_with (λ c1 c2, float_lerp c1 c2 fraction) s1 s2)) =
   cv * cv * foldl sq 0%Z (zip p s1)
   - 2 * cv * cw * foldl pr 0%Z (zip (vec s1 p) (vec s1 s2))
   + cw * cw * foldl pr 0%Z (zip (vec s1 s2) (vec s1 s2)))%Z.
Proof.
  revert s1 s2. induction p as [|c p IH]; intros [|a s1] [|b s2] H1 H2 Hex;
    simpl in *; try discriminate; [lia|].
  apply Forall2_cons in Hex as [Hab Hex].
  rewrite (foldl_sum _ _ (0 + _)%Z).
  rewrite (foldl_sum (λ c : Z * Z, ((c.1 - c.2) * (c.1 - c.2))%Z) (zip p s1) (0 + _)%Z).
  rewrite (foldl_sum (λ c : Z * Z, (c.1 * c.2)%Z) (zip (vec s1 p) (vec s1 s2)) (0 + _)%Z).
  rewrite (foldl_sum (λ c : Z * Z, (c.1 * c.2)%Z) (zip (vec s1 s2) (vec s1 s2)) (0 + _)%Z).
  rewrite !Z.mul_add_distr_l, (IH s1 s2) by (congruence || done). simpl.
  set (r := float_lerp a b fraction) in *.
  replace (cv * cv * ((c - r) * (c - r)))%Z
    with ((cv * c - cv * r) * (cv * c - cv * r))%Z by ring.
  rewrite Hab. ring.
Qed.

(** |s2 - s1|² as a dot product *)
Lemma dot_self (s1 s2 : list Z) :
  foldl pr 0%Z (zip (vec s1 s2) (vec s1 s2)) = sum_squares s1 s2.
Proof.
  unfold sum_squares. revert s2.
  induction s1 as [|a s1 IH]; intros [|b s2]; simpl; try done.
  rewrite foldl_sum, (foldl_sum _ _ (0 + _)%Z), IH. lia.
Qed.

(** *** Sums that the value type holds *)

Variable B : Z.
Hypothesis holds_B : holds B.

(** A sum is accumulated exactly if the absolute values of its terms add
    up to at most [B]; [h] bounds twice the terms. *)
Lemma foldl_narrow_exact {A} (g h : A → Z) (l : list A) (a : Z) :
  (∀ c, c ∈ l → (2 * Z.abs (g c) <= h c)%Z) →
  (2 * Z.abs a + foldl (λ r c, (r + h c)%Z) 0%Z l <= 2 * B)%Z →
  foldl (λ r c, narrow (r + g c)) a l = foldl (λ r c, (r + g c)%Z) a l.
Proof.
  revert a. induction l as [|c l IH]; intros a Hg Hb; [done|].
  cbn [foldl] in *. rewrite foldl_sum in Hb.
  assert (0 <= foldl (λ r c, (r + h c)%Z) 0%Z l)%Z as Hnn.
  { clear -Hg. induction l as [|d l IH]; simpl; [lia|].
    rewrite foldl_sum.
    pose proof (Hg d ltac:(right; left)).
    assert (0 <= foldl (λ r c, (r + h c)%Z) 0%Z l)%Z.
    { apply IH. intros c' [->|Hc']%elem_of_cons; apply Hg; [left|right; by right]. }
    lia. }
  pose proof (Hg c ltac:(left)) as Hc.
  rewrite holds_B by lia.
  apply IH.
  - intros c' Hc'. apply Hg. by right.
  - lia.
Qed.

Lemma foldl_scale {A} (g : A → Z) (k : Z) (l : list A) :
  foldl (λ r c, (r + k * g c)%Z) 0%Z l = (k * foldl (λ r c, (r + g c)%Z) 0%Z l)%Z.
Proof.
  induction l as [|c l IH]; simpl; [lia|].
  rewrite foldl_sum, (foldl_sum g), IH. lia.
Qed.

(** [point_distance2] is the sum of the squares when that sum is at most
    [B]. *)
Lemma point_distance2_sum (p q : list Z) :
  (sum_squares p q <= B)%Z →
  foldl (λ result c, narrow (result + (c.1 - c.2) * (c.1 - c.2))) 0%Z (zip p q) =
  sum_squares p q.
Proof.
  intros Hb. unfold sum_squares in *.
  apply (foldl_narrow_exact (λ c : Z * Z, ((c.1 - c.2) * (c.1 - c.2))%Z)
           (λ c : Z * Z, (2 * ((c.1 - c.2) * (c.1 - c.2)))%Z)).
  - intros c _. pose proof (Z.square_nonneg (c.1 - c.2)). lia.
  - rewrite (foldl_scale (λ c : Z * Z, ((c.1 - c.2) * (c.1 - c.2))%Z)). lia.
Qed.

Lemma abs_le_square (x : Z) : (Z.abs x <= x * x)%Z.
Proof. destruct (Z.le_gt_cases x 0), (Z.le_gt_cases 0 x); nia. Qed.

Lemma make_vector_sum (s1 s2 : list Z) :
  (sum_squares s1 s2 <= B)%Z →
  zip_with (λ c1 c2, narrow (c2 - c1)) s1 s2 = vec s1 s2.
Proof.
  unfold sum_squares. revert s2.
  induction s1 as [|a s1 IH]; intros [|b s2] Hb; simpl in *; try done.
  rewrite foldl_sum in Hb.
  pose proof (sum_squares_nonneg s1 s2) as Hnn. unfold sum_squares in Hnn.
  pose proof (abs_le_square (a - b)) as Hsq.
  rewrite holds_B by lia. f_equal. apply IH. lia.
Qed.

Lemma squares_of_vectors (s1 p s2 : list Z) :
  length s1 = length p → length s2 = length p →
  foldl (λ r c, (r + (c.1 * c.1 + c.2 * c.2))%Z) 0%Z (zip (vec s1 p) (vec s1 s2)) =
  (sum_squares s1 p + sum_squares s1 s2)%Z.
Proof.
  unfold sum_squares. revert s1 s2.
  induction p as [|c p IH]; intros [|a s1] [|b s2] H1 H2;
    simpl in *; try discriminate; [done|].
  rewrite foldl_sum, (foldl_sum _ (zip s1 p)), (foldl_sum _ (zip s1 s2)).
  rewrite (IH s1 s2) by congruence. lia.
Qed.

Lemma dot_sum (v w : list Z) :
  (foldl (λ r c, (r + (c.1 * c.1 + c.2 * c.2))%Z) 0%Z (zip v w) <= 2 * B)%Z →
  foldl (λ result c, narrow (result + c.1 * c.2)) 0%Z (zip v w) =
  foldl pr 0%Z (zip v w).
Proof.
  intros Hb.
  apply (foldl_narrow_exact (λ c : Z * Z, (c.1 * c.2)%Z)
           (λ c : Z * Z, (c.1 * c.1 + c.2 * c.2)%Z)); [|lia].
  intros c _.
  pose proof (Z.square_nonneg (c.1 - c.2)). pose proof (Z.square_nonneg (c.1 + c.2)).
  lia.
Qed.

Variable DIM : nat.

(** What [segment_distance2 (s1, s2, p)] computes before it interpolates
    is exact when the squared distances of [s1] to the two other points
    are at most [B]. *)
Lemma vectors_exact (s1 s2 p : list Z) :
  length s1 = DIM → length s2 = DIM → length p = DIM →
  (sum_squares s1 s2 <= B)%Z → (sum_squares s1 p <= B)%Z →
  math.make_vector DIM s1 s2 = vec s1 s2 ∧
  math.make_vector DIM s1 p = vec s1 p ∧
  math.dot DIM (vec s1 p) (vec s1 s2) = foldl pr 0%Z (zip (vec s1 p) (vec s1 s2)) ∧
  math.dot DIM (vec s1 s2) (vec s1 s2) = sum_squares s1 s2 ∧
  math.point_distance2 DIM p s1 = sum_squares s1 p.
Proof.
  intros H1 H2 Hp Hs Hd.
  pose proof (sum_squares_nonneg s1 s2). pose proof (sum_squares_nonneg s1 p).
  unfold math.make_vector, math.dot, math.point_distance2.
  rewrite !(coords_of_whole DIM s1), !(coords_of_whole DIM s2),
    !(coords_of_whole DIM p) by done.
  rewrite !coords_of_whole by (rewrite length_zip_with; lia).
  split_and!.
  - by apply make_vector_sum.
  - by apply make_vector_sum.
  - apply dot_sum. rewrite squares_of_vectors by congruence. lia.
  - rewrite dot_sum, dot_self; [done|].
    rewrite squares_of_vectors by congruence. lia.
  - rewrite (sum_squares_sym s1 p). apply point_distance2_sum.
    by rewrite (sum_squares_sym p s1).
Qed.

(** The distance to a segment is not larger than the distance to the start
    of the segment, provided the squared distances of the start to the
    two other points are at most [B] and the interpolated projection,
    when there is one, is exact. *)
Lemma segment_distance2_le_start (s1 s2 p : list Z) :
  length s1 = DIM → length s2 = DIM → length p = DIM →
  (sum_squares s1 s2 <= B)%Z → (sum_squares s1 p <= B)%Z →
  projection_exact DIM s1 s2 p →
  (math.segment_distance2 DIM s1 s2 p <= math.point_distance2 DIM s1 p)%Z.
Proof.
  intros H1 H2 Hp Hs Hd Hex. unfold projection_exact in Hex.
  destruct (vectors_exact s1 s2 p H1 H2 Hp Hs Hd) as (Hv & Hw & Hcw & Hcv & Hd1).
  unfold math.segment_distance2.
  rewrite (point_distance2_sym DIM s1 p).
  rewrite Hv, Hw, Hcw, Hcv, Hd1 in *.
  pose proof (distance_to_end s1 s2 p ltac:(congruence) ltac:(congruence)) as Hend.
  rewrite dot_self in Hend. fold (sum_squares p s2) in Hend.
  fold (sum_squares p s1) in Hend. rewrite (sum_squares_sym p s1) in Hend.
  pose proof (sum_squares_nonneg p s2) as Hnn.
  destruct (Z.leb_spec (foldl pr 0%Z (zip (vec s1 p) (vec s1 s2))) 0) as [Hc|Hc];
    [lia|].
  destruct (Z.leb_spec (sum_squares s1 s2)
              (foldl pr 0%Z (zip (vec s1 p) (vec s1 s2)))) as [Hcv'|Hcv'].
  - unfold math.point_distance2.
    rewrite (coords_of_whole DIM s2), (coords_of_whole DIM p) by done.
    rewrite point_distance2_sum; lia.
  - specialize (Hex (conj Hc Hcv')).
    revert Hex. unfold math.interpolate, math.point_distance2, lerp_exact.
    rewrite (coords_of_whole DIM s1), (coords_of_whole DIM s2),
      (coords_of_whole DIM p) by done.
    rewrite coords_of_whole by (rewrite length_zip_with; lia).
    intros Hex.
    pose proof (distance_to_projection _ _ _ s1 s2 p
                  ltac:(congruence) ltac:(congruence) Hex) as Heq.
    rewrite dot_self in Heq.
    fold (sum_squares p s1) in Heq. rewrite (sum_squares_sym p s1) in Heq.
    match type of Heq with (_ * foldl _ _ (zip p ?proj) = _)%Z =>
      fold (sum_squares p proj) in Heq;
      pose proof (sum_squares_nonneg p proj) as Hpn;
      assert (sum_squares p proj <= sum_squares s1 p)%Z as Hle
    end.
    { remember (foldl pr 0%Z (zip (vec s1 p) (vec s1 s2))) as C.
      remember (sum_squares s1 s2) as V. remember (sum_squares s1 p) as D.
      match goal with |- (?R <= _)%Z => remember R as T end.
      clear -Heq Hc Hcv'.
      assert (V * V * (D - T) = V * (C * C))%Z as Hd by lia.
      assert (0 <= V * (C * C))%Z by nia.
      assert (0 < V * V)%Z by nia. nia. }
    rewrite point_distance2_sum; lia.
Qed.
End geometry.

Section math_on_points.
Context {VT : ValueType} {FM : FloatModel}.
Variable DIM : nat.

Lemma point_distance2_points (c r1 q r2 : list Z) :
  length c = DIM → length q = DIM →
  math.point_distance2 DIM (c ++ r1) (q ++ r2) = math.point_distance2 DIM c q.
Proof.
  intros Hc Hq.
  rewrite (point_distance2_coords DIM (c ++ r1)), (point_distance2_coords DIM c).
  by rewrite !coords_of_point, !coords_of_whole.
Qed.

Lemma equal_points (c r1 q r2 : list Z) :
  length c = DIM → length q = DIM →
  math.equal DIM (c ++ r1) (q ++ r2) = math.equal DIM c q.
Proof.
  intros Hc Hq.
  rewrite (equal_coords DIM (c ++ r1)), (equal_coords DIM c).
  by rewrite !coords_of_point, !coords_of_whole.
Qed.

Lemma segment_distance2_points (s1 r1 s2 r2 p r : list Z) :
  length s1 = DIM → length s2 = DIM → length p = DIM →
  math.segment_distance2 DIM (s1 ++ r1) (s2 ++ r2) (p ++ r) =
  math.segment_distance2 DIM s1 s2 p.
Proof.
  intros H1 H2 Hp.
  rewrite (segment_distance2_coords DIM (s1 ++ r1)),
    (segment_distance2_coords DIM s1).
  by rewrite !coords_of_point, !coords_of_whole.
Qed.
End math_on_points.

(** ** Validation of the input *)

(** The square of a zero tolerance is zero in every value type. *)
Lemma square_of_zero {VT : ValueType} (tol : Z) :
  (tol =? 0)%Z = true → (narrow (tol * tol) =? 0)%Z = true.
Proof. intros ->%Z.eqb_eq. cbn. by rewrite narrow_0. Qed.


(** In [short] the square of the tolerance 256 is zero and the square of
    the tolerance 200 is negative. *)
Lemma squares_of_short :
  narrow (ValueType := Short) (256 * 256) = 0%Z ∧
  narrow (ValueType := Short) (200 * 200) = (-25536)%Z.
Proof. done. Qed.

(** [RadialDistance] does not accept the tolerance 256 on shorts. *)
Lemma RadialDistance_square_zero :
  PolylineSimplification.RadialDistance (VT := Short) 1 [0; 1; 2; 3]%Z 256 =
    mkOutput [0; 1; 2; 3]%Z 0.
Proof. reflexivity. Qed.

Section validation.
Variable DIM : nat.
Hypothesis DIM_pos : DIM ≠ 0.

Lemma pointCount_of_div n : PolylineSimplification.pointCount_of DIM n = n / DIM.
Proof. unfold PolylineSimplification.pointCount_of. by destruct DIM. Qed.

Lemma whole_coordCount ps :
  whole DIM ps →
  length (concat ps) mod DIM = 0 ∧
  PolylineSimplification.pointCount_of DIM (length (concat ps)) = length ps.
Proof.
  intros Hps. rewrite pointCount_of_div, (length_concat_whole DIM) by done.
  split; [by apply Nat.Div0.mod_mul | by apply Nat.div_mul].
Qed.

End validation.

(** ** RadialDistance *)

Section RadialDistance.
Context {VT : ValueType} {FM : FloatModel}.
Variable DIM : nat.
Hypothesis DIM_pos : DIM ≠ 0.

Lemma RadialDistance_loop_points tol2 qs :
  whole DIM qs →
  ∀ (c crest q rest result : list Z),
    length c = DIM → length q = DIM →
    PolylineSimplification.RadialDistance_loop DIM (length qs) tol2
      (c ++ crest) (q ++ concat qs ++ rest) result =
    (concat (drop (length qs) (q :: qs)) ++ rest,
     result ++ concat (radial_keys DIM tol2 c qs)).
Proof.
  induction 1 as [|x qs Hx Hqs IH]; intros c crest q rest result Hc Hq.
  - simpl. by rewrite !app_nil_r.
  - cbn [length PolylineSimplification.RadialDistance_loop radial_keys concat].
    unfold advance. rewrite drop_point by done.
    rewrite <- (app_assoc x).
    rewrite point_distance2_points by done.
    destruct (_ <? _)%Z.
    + by rewrite (IH c crest x rest result).
    + unfold PolylineSimplification.CopyKey. rewrite take_point by done.
      rewrite (IH x (concat qs ++ rest) x rest (result ++ x)) by done.
      cbn [concat]. by rewrite <- app_assoc.
Qed.

(** [RadialDistance] on whole points: the first point, the keys of the
    sweep, the last point. *)
Lemma RadialDistance_points p0 qs pl tol :
  whole DIM (p0 :: qs ++ [pl]) → (narrow (tol * tol) =? 0)%Z = false →
  PolylineSimplification.RadialDistance DIM (concat (p0 :: qs ++ [pl])) tol =
  PolylineSimplification.end_of
    (concat (p0 :: radial_keys DIM (narrow (tol * tol)) p0 qs ++ [pl])).
Proof.
  intros Hps Htol.
  destruct (whole_coordCount DIM DIM_pos _ Hps) as [Hmod Hcount].
  apply (whole_cons DIM) in Hps as [Hp0 Hqs].
  apply (whole_app DIM) in Hqs as [Hqs Hpl].
  apply (whole_cons DIM) in Hpl as [Hpl _].
  unfold PolylineSimplification.RadialDistance.
  rewrite Hmod, Hcount, Htol.
  cbn [length]. rewrite length_app. cbn [length].
  replace (S (length qs + 1) <? 2) with false by (symmetry; apply Nat.ltb_ge; lia).
  cbn [Nat.eqb negb orb].
  replace (S (length qs + 1) - 2) with (length qs) by lia.
  cbn [concat]. rewrite concat_app. cbn [concat]. rewrite app_nil_r.
  rewrite (RadialDistance_loop_points _ qs Hqs p0 _ p0 pl _) by done.
  unfold PolylineSimplification.CopyKey, advance.
  rewrite take_point by done. cbn [app].
  assert (∃ y, drop (length qs) (p0 :: qs) = [y] ∧ length y = DIM) as (y & -> & Hy).
  { clear -Hp0 Hqs. revert p0 Hp0. induction Hqs as [|x qs Hx _ IH]; intros p0 Hp0.
    - by exists p0.
    - simpl. by apply IH. }
  cbn [concat]. rewrite app_nil_r, drop_point by done.
  rewrite take_ge by lia.
  f_equal. rewrite concat_app. cbn [concat]. by rewrite app_nil_r, app_assoc.
Qed.
End RadialDistance.

(** ** Simplifications that keep both ends *)

Section simplifies.
Variable DIM : nat.
Hypothesis DIM_pos : DIM ≠ 0.




End simplifies.

(** ** PerpendicularDistance, single pass *)

Section PerpendicularDistance.
Context {VT : ValueType} {FM : FloatModel}.
Variable DIM : nat.
Hypothesis DIM_pos : DIM ≠ 0.

Lemma drop_two_points (q1 q2 rest : list Z) :
  length q1 = DIM → length q2 = DIM → drop (2 * DIM) (q1 ++ q2 ++ rest) = rest.
Proof.
  intros H1 H2. replace (2 * DIM) with (DIM + DIM) by lia.
  by rewrite <- drop_drop, !(drop_point DIM).
Qed.


End PerpendicularDistance.

(** ** ReumannWitkam and Opheim *)

Section sweeps.
Context {VT : ValueType} {FM : FloatModel}.
Variable DIM : nat.
Hypothesis DIM_pos : DIM ≠ 0.

Lemma drop_all_but_last (q pl : list Z) (qs : list (list Z)) :
  drop (length qs) (q :: qs) = [pl] → q :: qs = take (length qs) (q :: qs) ++ [pl].
Proof. intros <-. by rewrite take_drop. Qed.

Lemma drop_length_cons (q : list Z) (qs : list (list Z)) :
  ∃ pl, drop (length qs) (q :: qs) = [pl].
Proof.
  revert q. induction qs as [|x qs IH]; intros q; [by exists q|]. apply IH.
Qed.





End sweeps.

(** ** NthPoint *)

Section NthPoint.
Variable DIM : nat.
Hypothesis DIM_pos : DIM ≠ 0.


Lemma wrap32_small (x : Z) : (0 <= x < 4294967296)%Z → wrap32 x = x.
Proof. intros. by apply Z.mod_small. Qed.

End NthPoint.

(** ** FindKey *)

Section FindKey.
Context {VT : ValueType} {FM : FloatModel}.
Variable DIM : nat.
Hypothesis DIM_pos : DIM ≠ 0.

Import PolylineSimplification.DPHelper.

(** What the loop returns when it is entered at [current] with [keyInfo]:
    either [keyInfo], and then every point from [current] on is strictly
    nearer than [dist2 keyInfo]; or a point from [current] on, with its
    distance, that no point from [current] on exceeds and that every later
    point stays strictly below. *)
Lemma FindKey_loop_spec coords first last fuel :
  ∀ current keyInfo,
    last ≤ current + fuel →
    let r := FindKey_loop DIM fuel coords first last current keyInfo in
    (dist2 keyInfo <= dist2 r)%Z ∧
    ((r = keyInfo ∧
      ∀ j, current + j * DIM < last →
        (key_distance DIM coords first last (current + j * DIM) < dist2 keyInfo)%Z)
     ∨
     (∃ j, index r = current + j * DIM ∧ index r < last ∧
        dist2 r = key_distance DIM coords first last (index r) ∧
        (∀ j', current + j' * DIM < last →
           (key_distance DIM coords first last (current + j' * DIM) <= dist2 r)%Z) ∧
        (∀ j', j < j' → current + j' * DIM < last →
           (key_distance DIM coords first last (current + j' * DIM) < dist2 r)%Z))).
Proof.
  induction fuel as [|fuel IH]; intros current keyInfo Hfuel; cbn zeta.
  - simpl. split; [lia|]. left. split; [done|]. intros j Hj. lia.
  - cbn [FindKey_loop].
    destruct (Nat.ltb_spec current last) as [Hlt|Hge].
    2:{ split; [lia|]. left. split; [done|]. intros j Hj. lia. }
    fold (key_distance DIM coords first last current).
    destruct (Z.ltb_spec (key_distance DIM coords first last current) (dist2 keyInfo))
      as [Hd|Hd].
    + destruct (IH (current + DIM) keyInfo ltac:(lia)) as [Hle Hcases].
      split; [done|].
      destruct Hcases as [[Hr Hall]|(j & Hi & Hil & Hd2 & Hmax & Hlater)].
      * left. split; [done|]. intros [|j] Hj.
        -- by rewrite Nat.add_0_r.
        -- replace (current + S j * DIM) with (current + DIM + j * DIM) by lia.
           apply Hall. lia.
      * right. exists (S j). split_and!; try done.
        -- rewrite Hi. lia.
        -- intros [|j'] Hj'.
           ++ rewrite Nat.add_0_r. lia.
           ++ replace (current + S j' * DIM) with (current + DIM + j' * DIM) by lia.
              apply Hmax. lia.
        -- intros [|j'] Hjj Hj'; [lia|].
           replace (current + S j' * DIM) with (current + DIM + j' * DIM) by lia.
           apply Hlater; lia.
    + destruct (IH (current + DIM)
                  (mkKeyInfo current (key_distance DIM coords first last current))
                  ltac:(lia)) as [Hle Hcases].
      cbn [dist2] in Hle. split; [lia|]. right.
      destruct Hcases as [[Hr Hall]|(j & Hi & Hil & Hd2 & Hmax & Hlater)].
      * exists 0. rewrite Hr. cbn [index dist2] in *. split_and!; try done.
        -- intros [|j'] Hj'.
           ++ rewrite Nat.add_0_r. lia.
           ++ replace (current + S j' * DIM) with (current + DIM + j' * DIM) by lia.
              apply Z.lt_le_incl, Hall. lia.
        -- intros [|j'] Hjj Hj'; [lia|].
           replace (current + S j' * DIM) with (current + DIM + j' * DIM) by lia.
           apply Hall. lia.
      * exists (S j). split_and!; try done.
        -- rewrite Hi. lia.
        -- intros [|j'] Hj'.
           ++ rewrite Nat.add_0_r. lia.
           ++ replace (current + S j' * DIM) with (current + DIM + j' * DIM) by lia.
              apply Hmax. lia.
        -- intros [|j'] Hjj Hj'; [lia|].
           replace (current + S j' * DIM) with (current + DIM + j' * DIM) by lia.
           apply Hlater; lia.
Qed.

(** Without a point between [first] and [last] the loop is not entered:
    the key is the default [KeyInfo (0, 0)]. *)
Lemma FindKey_no_interior coords first last :
  last ≤ first + DIM → FindKey DIM coords first last = mkKeyInfo 0 0.
Proof.
  intros Hle. unfold FindKey.
  destruct (last - first) as [|fuel]; [done|].
  cbn [FindKey_loop].
  by replace (first + DIM <? last) with false by (symmetry; apply Nat.ltb_ge; lia).
Qed.

(** The key of a sub polyline is the default key or a point strictly
    inside it. *)
Lemma FindKey_inside coords first last :
  FindKey DIM coords first last = mkKeyInfo 0 0 ∨
  (first + DIM ≤ index (FindKey DIM coords first last) ∧
   index (FindKey DIM coords first last) < last).
Proof.
  unfold FindKey.
  destruct (FindKey_loop_spec coords first last (last - first) (first + DIM)
              (mkKeyInfo 0 0) ltac:(lia)) as [_ [[-> _]|(j & Hi & Hil & _)]].
  - by left.
  - right. lia.
Qed.
End FindKey.

(** ** Approximate and ApproximateAlt *)

Section Approximate.
Context {VT : ValueType} {FM : FloatModel}.
Variable DIM : nat.
Hypothesis DIM_pos : DIM ≠ 0.

Import PolylineSimplification.DPHelper.

(** Flags are only ever set. *)
Lemma insert_true_preserved (keys : list bool) i j :
  keys !! i = Some true → <[j := true]> keys !! i = Some true.
Proof.
  intros Hi. destruct (decide (j = i)) as [->|Hne].
  - apply list_lookup_insert_eq. by eapply lookup_lt_Some.
  - by rewrite list_lookup_insert_ne.
Qed.

Lemma stack_weight_cons first last stack :
  stack_weight (mkSubPoly first last :: stack) =
  Nat.max 1 (2 * (last - first) - 1) + stack_weight stack.
Proof. done. Qed.



Variable choose : list Z → nat.



End Approximate.

(** With a negative square of the tolerance the loop of [Approximate] does
    not end: the default key of a sub polyline without interior point, index
    0 at distance 0, is beyond the tolerance and is not [last], so the sub
    polyline from 0 to 1 is pushed again whenever it is popped. *)
Lemma Approximate_loop_negative_square {VT : ValueType} {FM : FloatModel}
    (coords : list Z) (tol2 : Z) (fuel : nat) :
  (tol2 < 0)%Z →
  ∀ stack keys,
    PolylineSimplification.DPHelper.Approximate_loop 1 fuel coords tol2
      (PolylineSimplification.DPHelper.mkSubPoly 0 1 :: stack) keys = None ∧
    PolylineSimplification.DPHelper.Approximate_loop 1 fuel coords tol2
      (PolylineSimplification.DPHelper.mkSubPoly 0 0 ::
       PolylineSimplification.DPHelper.mkSubPoly 0 1 :: stack) keys = None.
Proof.
  intros Hneg. induction fuel as [|fuel IH]; intros stack keys; [done|].
  assert ((tol2 <? 0)%Z = true) as Hlt by (by apply Z.ltb_lt).
  split.
  - cbn. rewrite Hlt. cbn. apply IH.
  - cbn. apply IH.
Qed.

(** So [Approximate] does not return for two points and the tolerance 200
    on shorts. *)
Lemma Approximate_short_overflow {FM : FloatModel} (fuel : nat) :
  PolylineSimplification.DPHelper.Approximate_loop (VT := Short) 1 fuel [0; 1]%Z
    (narrow (ValueType := Short) (200 * 200))
    [PolylineSimplification.DPHelper.mkSubPoly 0 1] [true; true] = None.
Proof. by apply Approximate_loop_negative_square. Qed.

(** ** DouglasPeucker and DouglasPeuckerAlt *)

Section DouglasPeucker.
Context {VT : ValueType} {FM : FloatModel}.
Variable DIM : nat.
Hypothesis DIM_pos : DIM ≠ 0.






Variable choose : list Z → nat.

End DouglasPeucker.

(** ** Every routine, on every input *)

Section routines.
Context {VT : ValueType} {FM : FloatModel}.
Variable DIM : nat.
Variable choose : list Z → nat.

(** An input that passes the validation is a list of whole points. *)
Lemma validated (first : list Z) (m : nat) :
  negb (length first mod DIM =? 0) = false →
  (PolylineSimplification.pointCount_of DIM (length first) <? m) = false →
  1 ≤ m →
  DIM ≠ 0 ∧ ∃ ps, first = concat ps ∧ whole DIM ps ∧ m ≤ length ps.
Proof.
  intros Hmod%negb_false_iff%Nat.eqb_eq Hm%Nat.ltb_ge Hpos.
  assert (DIM ≠ 0) as HD.
  { intros ->. simpl in Hm. lia. }
  split; [done|].
  destruct (whole_points DIM HD first Hmod) as (ps & -> & Hps & Hlen).
  exists ps. split_and!; [done|done|].
  rewrite pointCount_of_div in Hm by done. lia.
Qed.













(** *** The repeated perpendicular distance routine *)



End routines.

(** ** The fallback, the end points and the order of the output *)

Section single_pass.
Context {VT : ValueType} {FM : FloatModel}.
Variable DIM : nat.
Variable choose : list Z → nat.

Lemma not_valid (len m : nat) (ok : bool) :
  1 ≤ m →
  negb (DIM =? 0) && (len mod DIM =? 0) && (m <=? len / DIM) && ok = false →
  negb (len mod DIM =? 0)
  || (PolylineSimplification.pointCount_of DIM len <? m) || negb ok = true.
Proof.
  unfold PolylineSimplification.pointCount_of. intros Hm.
  destruct DIM as [|d] eqn:HD.
  - intros _. destruct m; [lia|]. by rewrite orb_true_r.
  - cbn [Nat.eqb negb andb]. rewrite Nat.ltb_antisym.
    by destruct (_ =? 0), (_ <=? _), ok.
Qed.

Lemma rejected (a b c c' : bool) :
  (c = true → c' = true) → a || b || c = true → a || b || c' = true.
Proof. destruct a, b, c; simpl; auto. Qed.

(** The single pass routines copy an input they do not accept to the
    output. *)
Lemma single_pass_fallback r first :
  single_pass r = true → valid_input DIM r first = false →
  run DIM choose r first = Some (PolylineSimplification.copy_through first).
Proof.
  intros Hr Hv. unfold valid_input in Hv.
  apply not_valid in Hv; [|destruct r; simpl; lia].
  destruct r; try discriminate; cbn [run min_points valid_parameters] in *.
  - unfold PolylineSimplification.NthPoint.
    by rewrite (Nat.ltb_antisym 2 n), Hv.
  - unfold PolylineSimplification.RadialDistance.
    rewrite negb_involutive in Hv.
    by rewrite (rejected _ _ _ _ (square_of_zero tol) Hv).
  - unfold PolylineSimplification.PerpendicularDistance.
    rewrite negb_involutive in Hv.
    by rewrite (rejected _ _ _ _ (square_of_zero tol) Hv).
  - unfold PolylineSimplification.ReumannWitkam.
    rewrite negb_involutive in Hv.
    by rewrite (rejected _ _ _ _ (square_of_zero tol) Hv).
  - unfold PolylineSimplification.Opheim.
    rewrite negb_andb, !negb_involutive in Hv. rewrite <- orb_assoc.
    assert ((minTol =? 0)%Z || (maxTol =? 0)%Z = true →
            (narrow (minTol * minTol) =? 0)%Z
            || (narrow (maxTol * maxTol) =? 0)%Z = true) as Hsq.
    { intros [H|H]%orb_true_iff; apply square_of_zero in H; rewrite H;
        [done|by rewrite orb_true_r]. }
    by rewrite (rejected _ _ _ _ Hsq Hv).
  - unfold PolylineSimplification.DouglasPeucker.
    by rewrite <- (negb_involutive (tol =? 0)%Z), Hv.
  - unfold PolylineSimplification.DouglasPeuckerAlt.
    rewrite (Nat.ltb_antisym 2 count).
    change (PolylineSimplification.pointCount_of DIM (length first) <=? count)
      with (PolylineSimplification.pointCount_of DIM (length first) <? S count).
    by rewrite Hv.
Qed.

End single_pass.



(** ** The iterator returned by the fallback *)

Section returned_iterator.
Context {VT : ValueType} {FM : FloatModel}.
Variable DIM : nat.

(** The fallback copies the input and returns the iterator it was given,
    not the end of the copy: to a caller that measures the output by the
    returned iterator nothing was written. *)
Lemma fallback_returns_start (first : list Z) :
  returned (PolylineSimplification.copy_through first) = 0.
Proof. done. Qed.

Lemma PerpendicularDistance_nil tol :
  PolylineSimplification.PerpendicularDistance DIM [] tol = Some (mkOutput [] 0).
Proof.
  unfold PolylineSimplification.PerpendicularDistance,
    PolylineSimplification.pointCount_of.
  cbn [length]. rewrite Nat.Div0.mod_0_l. cbn [Nat.eqb negb orb].
  destruct DIM; [done|]. by rewrite Nat.Div0.div_0_l.
Qed.

Lemma PerpendicularDistance_passes_nil tol repeat first :
  ∃ after,
    PolylineSimplification.PerpendicularDistance_passes DIM repeat tol first 0
      = Some after ∧
    (after = inl (mkOutput [] 0) ∨ after = inr (first, 0)).
Proof.
  destruct repeat as [|repeat]; cbn [PolylineSimplification.PerpendicularDistance_passes].
  - eexists. split; [done|]. by right.
  - rewrite take_0, PerpendicularDistance_nil. cbn.
    eexists. split; [done|]. by left.
Qed.

(** The repeated routine measures each pass by the iterator the pass
    returns.  A pass that falls back therefore counts as having written
    nothing, and with two or more repeats an input that is not accepted is
    not copied to the output: nothing at all is written. *)
Lemma PerpendicularDistance_repeat_invalid first tol repeat :
  2 ≤ repeat → first ≠ [] →
  valid_input DIM (PerpendicularDistance tol) first = false →
  PolylineSimplification.PerpendicularDistance_repeat DIM first tol repeat =
  Some (mkOutput [] 0).
Proof.
  intros Hrep Hne Hv.
  pose proof (single_pass_fallback DIM (λ _, 0) (PerpendicularDistance tol) first
                eq_refl Hv) as Hpass.
  cbn [run] in Hpass.
  unfold PolylineSimplification.PerpendicularDistance_repeat.
  replace (repeat =? 1) with false by (symmetry; apply Nat.eqb_neq; lia).
  replace (repeat <? 1) with false by (symmetry; apply Nat.ltb_ge; lia).
  rewrite Hpass. cbn [mbind option_bind PolylineSimplification.copy_through
                        returned written].
  replace (length first =? 0) with false
    by (symmetry; apply Nat.eqb_neq; by destruct first).
  destruct (1 <? repeat - 1).
  - destruct (PerpendicularDistance_passes_nil tol (repeat - 1 - 1) first)
      as (after & -> & [-> | ->]); cbn [mbind option_bind]; [done|].
    by rewrite take_0, PerpendicularDistance_nil.
  - cbn [mbind option_bind]. by rewrite take_0, PerpendicularDistance_nil.
Qed.
End returned_iterator.

(** C1. The fallback law fails for the repeated perpendicular distance
    routine.  The polyline 0, 5, 2 (one coordinate per point) with tolerance
    0 and two repeats is not a valid input, so the output should be the
    input; nothing is written.  No float operation is involved, and the
    value type is arbitrary. *)
Theorem repeat_fallback_writes_nothing {VT : ValueType} {FM : FloatModel} :
  valid_input 1 (PerpendicularDistanceRepeat 0 2) [0; 5; 2]%Z = false ∧
  PolylineSimplification.PerpendicularDistance_repeat 1 [0; 5; 2]%Z 0 2 =
    Some (mkOutput [] 0).
Proof.
  split; [reflexivity|].
  by apply PerpendicularDistance_repeat_invalid.
Qed.

(** C2. End point preservation fails for the repeated perpendicular
    distance routine.  The polyline 0, 5, 2 with tolerance 5 and three
    repeats is a valid input; the first pass reduces it to 0, 2, the second
    pass falls back on these two points and is taken to have written
    nothing, and the final pass writes nothing: neither end point is in the
    output.  No float operation is involved; the value type is [int]. *)
Theorem repeat_loses_end_points {FM : FloatModel} :
  valid_input 1 (PerpendicularDistanceRepeat 5 3) [0; 5; 2]%Z = true ∧
  PolylineSimplification.PerpendicularDistance (VT := Int) 1 [0; 5; 2]%Z 5 =
    Some (mkOutput [0; 2]%Z 2) ∧
  PolylineSimplification.PerpendicularDistance_repeat (VT := Int) 1 [0; 5; 2]%Z 5 3 =
    Some (mkOutput [] 0).
Proof. split_and!; reflexivity. Qed.

(** ** The key of a sub polyline without interior point *)

(** C6. [FindKey] does not return [last] for a sub polyline without
    interior point: for the sub polyline from coordinate index 1 to 2 of
    the polyline 0, 1, 2 it returns the default key, index 0, which is
    neither [last] nor a point of the sub polyline. *)
Theorem FindKey_without_interior_point {VT : ValueType} {FM : FloatModel} :
  PolylineSimplification.DPHelper.FindKey 1 [0; 1; 2]%Z 1 2 =
    PolylineSimplification.DPHelper.mkKeyInfo 0 0 ∧
  PolylineSimplification.DPHelper.index
    (PolylineSimplification.DPHelper.FindKey 1 [0; 1; 2]%Z 1 2) ≠ 2.
Proof. split; [reflexivity|]. cbn. lia. Qed.

(** ** The number of points of DouglasPeuckerAlt *)

(** C4. [DouglasPeuckerAlt] does not always write [count] points.  For the
    polyline 0, 9, 2, 2, 2 and [count = 4] the first key is the point 9; the
    sub polyline to its left has no interior point, its key is the default
    key with index 0, which is taken for a key because it differs from
    [last]; it is counted as the fourth key although the point 0 was
    already one.  Three points are written.  The queue holds two entries
    with key 0 at that moment and serves the one pushed first; a queue that
    serves the one pushed last fails in the same way on 0, 9, 9, 9, 2.
    No float operation is involved; the value type is [int]. *)
Theorem count_is_not_reached {FM : FloatModel} :
  PolylineSimplification.DouglasPeuckerAlt (VT := Int) 1
    PolylineSimplification.DPHelper.first_max [0; 9; 2; 2; 2]%Z 4 =
    Some (mkOutput [0; 9; 2]%Z 3) ∧
  PolylineSimplification.DouglasPeuckerAlt (VT := Int) 1
    PolylineSimplification.DPHelper.last_max [0; 9; 9; 9; 2]%Z 4 =
    Some (mkOutput [0; 9; 2]%Z 3).
Proof. split; reflexivity. Qed.

(** The same happens without duplicate points.  For the polyline (0,0),
    (1,5), (2,4), (3,3), (4,2), (5,1) the first key is the point (1,5), the
    points after it lie on the segment from (1,5) to (5,1), at the quarters
    of it, and the sub polyline before it has no interior point.  The
    interpolations for the first key are far from an integer before they are
    truncated and the later ones are exact in [float]. *)
Lemma line_misses_the_count :
  PolylineSimplification.DouglasPeuckerAlt (VT := Int) (FM := ExactFloat) 2
    PolylineSimplification.DPHelper.first_max
    [0; 0; 1; 5; 2; 4; 3; 3; 4; 2; 5; 1]%Z 4 =
    Some (mkOutput [0; 0; 1; 5; 5; 1]%Z 6).
Proof. reflexivity. Qed.

(** The routine asks the queue nothing but which entry is on top. *)
Lemma DouglasPeuckerAlt_ext {VT : ValueType} {FM : FloatModel} (DIM : nat)
    (choose choose' : list Z → nat) (first : list Z) (count : nat) :
  (∀ ds, choose ds = choose' ds) →
  PolylineSimplification.DouglasPeuckerAlt DIM choose first count =
  PolylineSimplification.DouglasPeuckerAlt DIM choose' first count.
Proof.
  intros Hext.
  assert (∀ fuel coords countTol queue keys keyCount,
    PolylineSimplification.DPHelper.ApproximateAlt_loop DIM choose fuel coords
      countTol queue keys keyCount =
    PolylineSimplification.DPHelper.ApproximateAlt_loop DIM choose' fuel coords
      countTol queue keys keyCount) as Hloop.
  { induction fuel as [|fuel IH]; intros; [done|].
    cbn [PolylineSimplification.DPHelper.ApproximateAlt_loop].
    unfold PolylineSimplification.DPHelper.pq_pop. rewrite Hext.
    destruct (_ ≫= _) as [[subPoly queue']|]; [|done].
    by rewrite !IH. }
  unfold PolylineSimplification.DouglasPeuckerAlt,
    PolylineSimplification.DPHelper.ApproximateAlt.
  by rewrite Hloop.
Qed.

(** Whatever entry the priority queue serves among equal keys, one of the
    two polylines is simplified to three points instead of four. *)
Lemma any_queue_misses_the_count {FM : FloatModel} (choose : list Z → nat) :
  PolylineSimplification.DPHelper.pq_policy choose →
  PolylineSimplification.DouglasPeuckerAlt (VT := Int) 1 choose [0; 9; 2; 2; 2]%Z 4 =
    Some (mkOutput [0; 9; 2]%Z 3) ∨
  PolylineSimplification.DouglasPeuckerAlt (VT := Int) 1 choose [0; 9; 9; 9; 2]%Z 4 =
    Some (mkOutput [0; 9; 2]%Z 3).
Proof.
  intros Hq.
  assert (choose [49%Z] = 0) as H1.
  { destruct (Hq [49%Z]) as (d & Hd & _); [done|].
    apply lookup_lt_Some in Hd. simpl in Hd. lia. }
  assert (choose [0%Z; 0%Z] = 0 ∨ choose [0%Z; 0%Z] = 1) as [H2|H2].
  { destruct (Hq [0%Z; 0%Z]) as (d & Hd & _); [done|].
    apply lookup_lt_Some in Hd. simpl in Hd. lia. }
  - left.
    rewrite (DouglasPeuckerAlt_ext 1 choose
               (λ ds, if decide (ds = [49%Z]) then 0
                      else if decide (ds = [0%Z; 0%Z]) then 0 else choose ds)).
    + reflexivity.
    + intros ds. by repeat case_decide; subst.
  - right.
    rewrite (DouglasPeuckerAlt_ext 1 choose
               (λ ds, if decide (ds = [49%Z]) then 0
                      else if decide (ds = [0%Z; 0%Z]) then 1 else choose ds)).
    + reflexivity.
    + intros ds. by repeat case_decide; subst.
Qed.

(** ** The number of positional errors *)

(** C10. [ComputePositionalErrors2] can report [valid] without an error for
    every point of the original: [valid] only tells that the last point of
    the simplification was found, not that it was found at the last point
    of the original.  For the original 0, 1, 2 and the simplification 0, 1
    it writes two values; so it does for the original 0, 1, 2, 1, of four
    points, and its simplification by [RadialDistance] with tolerance 10.
    The value type is [int]. *)
Theorem valid_with_too_few_errors {FM : FloatModel} :
  PolylineSimplification.ComputePositionalErrors2 (VT := Int) 1 [0; 1; 2]%Z [0; 1]%Z =
    Some (mkOutput [0; 0]%Z 2, true) ∧
  PolylineSimplification.RadialDistance (VT := Int) 1 [0; 1; 2; 1]%Z 10 =
    mkOutput [0; 1]%Z 2 ∧
  PolylineSimplification.ComputePositionalErrors2 (VT := Int) 1 [0; 1; 2; 1]%Z [0; 1]%Z =
    Some (mkOutput [0; 0]%Z 2, true).
Proof. split_and!; reflexivity. Qed.

(** ** Ties in FindKey *)

(** C5, as the code has it.  When the sub polyline has an interior point
    whose squared distance, as [segment_distance2] computes it in
    [value_type], is not negative, [FindKey] returns the last of the
    interior points at the largest squared distance, with that distance: a
    point is passed over only when it is strictly nearer than the largest
    distance so far, so a later point at the same distance replaces an
    earlier one.  Distances are negative only when the sums of
    [point_distance2] leave the range of the value type. *)
Theorem FindKey_last_maximal {VT : ValueType} {FM : FloatModel} (DIM : nat)
    (coords : list Z) (first last : nat) :
  DIM ≠ 0 →
  (∃ c, interior DIM first last c ∧
        (0 <= key_distance DIM coords first last c)%Z) →
  let keyInfo := PolylineSimplification.DPHelper.FindKey DIM coords first last in
  last_maximal DIM coords first last (PolylineSimplification.DPHelper.index keyInfo) ∧
  PolylineSimplification.DPHelper.dist2 keyInfo =
    key_distance DIM coords first last (PolylineSimplification.DPHelper.index keyInfo).
Proof.
  intros HD (c & (j0 & -> & Hc) & Hnn). cbn zeta.
  unfold PolylineSimplification.DPHelper.FindKey.
  destruct (FindKey_loop_spec DIM HD coords first last (last - first) (first + DIM)
              (PolylineSimplification.DPHelper.mkKeyInfo 0 0) ltac:(lia))
    as [_ [[_ Hall]|(j & Hi & Hil & Hd & Hmax & Hlater)]].
  - specialize (Hall j0 Hc).
    cbn [PolylineSimplification.DPHelper.dist2] in Hall. lia.
  - split; [|done]. unfold last_maximal. rewrite <- Hd. split_and!.
    + by exists j.
    + intros c (j' & -> & Hc'). by apply Hmax.
    + intros c (j' & -> & Hc') Hlt. apply Hlater; [|done]. rewrite Hi in Hlt. nia.
Qed.

Lemma FindKey_last_maximal_witness :
  (2 ≠ 0 ∧
   ∃ c, interior 2 0 6 c ∧
     (0 <= key_distance (VT := Int) (FM := ExactFloat) 2
             [0; 0; -1; 0; 0; 1; 1; 0] 0 6 c)%Z) ∧
  let coords := [0; 0; -1; 0; 0; 1; 1; 0]%Z in
  let keyInfo :=
    PolylineSimplification.DPHelper.FindKey (VT := Int) (FM := ExactFloat) 2 coords 0 6 in
  last_maximal (VT := Int) (FM := ExactFloat) 2 coords 0 6
    (PolylineSimplification.DPHelper.index keyInfo) ∧
  PolylineSimplification.DPHelper.dist2 keyInfo =
    key_distance (VT := Int) (FM := ExactFloat) 2 coords 0 6
      (PolylineSimplification.DPHelper.index keyInfo).
Proof.
  assert (∃ c, interior 2 0 6 c ∧
            (0 <= key_distance (VT := Int) (FM := ExactFloat) 2
                    [0; 0; -1; 0; 0; 1; 1; 0] 0 6 c)%Z) as Hinner.
  { exists 2. split; [exists 0; lia | vm_compute; discriminate]. }
  split.
  - split; [discriminate | exact Hinner].
  - apply (FindKey_last_maximal (VT := Int) (FM := ExactFloat) 2
             [0; 0; -1; 0; 0; 1; 1; 0]%Z 0 6).
    + discriminate.
    + exact Hinner.
Defined.

(** When the distances of all interior points are negative in
    [value_type], [FindKey] returns the default key. *)
Lemma FindKey_negative_distances {VT : ValueType} {FM : FloatModel} (DIM : nat)
    (coords : list Z) (first last : nat) :
  DIM ≠ 0 →
  (∀ c, interior DIM first last c →
        (key_distance DIM coords first last c < 0)%Z) →
  PolylineSimplification.DPHelper.FindKey DIM coords first last =
    PolylineSimplification.DPHelper.mkKeyInfo 0 0.
Proof.
  intros HD Hneg. unfold PolylineSimplification.DPHelper.FindKey.
  destruct (FindKey_loop_spec DIM HD coords first last (last - first) (first + DIM)
              (PolylineSimplification.DPHelper.mkKeyInfo 0 0) ltac:(lia))
    as [Hle [[Hr _]|(j & Hi & Hil & Hd & _)]]; [done|].
  cbn [PolylineSimplification.DPHelper.dist2] in Hle.
  specialize (Hneg _ (ex_intro _ j (conj Hi Hil))). lia.
Qed.

(** It happens for [short]: the point 200 is at squared distance 40000
    from the segment from 0 to 0, which a [short] holds as -25536, and the
    key of the polyline 0, 200, 0 is the default key, not the point 200. *)
Lemma FindKey_short_overflow {FM : FloatModel} :
  key_distance (VT := Short) 1 [0; 200; 0]%Z 0 2 1 = (-25536)%Z ∧
  PolylineSimplification.DPHelper.FindKey (VT := Short) 1 [0; 200; 0]%Z 0 2 =
    PolylineSimplification.DPHelper.mkKeyInfo 0 0.
Proof. split; reflexivity. Qed.

(** C5, as the claim states it, fails.  In the polyline (0,0), (-1,0),
    (0,1), (1,0) both interior points are at squared distance 1 from the
    segment that joins the ends.  The point (-1,0), at coordinate index 2,
    is the first at the largest distance; the key is the point (0,1), at
    index 4.  No float operation is involved. *)
Lemma FindKey_not_first_maximal :
  let coords := [0; 0; -1; 0; 0; 1; 1; 0]%Z in
  first_maximal (VT := Int) (FM := ExactFloat) 2 coords 0 6 2 ∧
  PolylineSimplification.DPHelper.index
    (PolylineSimplification.DPHelper.FindKey (VT := Int) (FM := ExactFloat) 2 coords 0 6) ≠ 2.
Proof.
  cbn zeta. split; [|vm_compute; lia].
  assert (∀ c, interior 2 0 6 c → c = 2 ∨ c = 4) as Hinner.
  { intros c (j & -> & Hj). lia. }
  split_and!.
  - exists 0. lia.
  - intros c [-> | ->]%Hinner; vm_compute; discriminate.
  - intros c [-> | ->]%Hinner Hlt; lia.
Qed.

(** ** The ray of Opheim *)

(** C7, as the code has it.  While no ray is defined from the current key,
    an iteration of the loop of [Opheim] looks at the point after [pj].  If
    its squared distance to the key is below [minTol2] the point is absorbed:
    the key, the ray and the output stay as they are and no ray is defined.
    Otherwise the point that precedes it, the last one within the minimum
    tolerance, becomes the second point of the ray; the key is still the
    start of that ray, or the preceding point became the next key. *)
Theorem Opheim_ray_through_previous_point {VT : ValueType} {FM : FloatModel} (DIM : nat)
    (minTol2 maxTol2 : Z) (s : PolylineSimplification.OpheimState) :
  PolylineSimplification.op_rayDefined s = false →
  let pj := advance (PolylineSimplification.op_pj s) DIM in
  let s' := PolylineSimplification.Opheim_step DIM minTol2 maxTol2 s in
  ((math.point_distance2 DIM (PolylineSimplification.op_r0 s) pj < minTol2)%Z →
     PolylineSimplification.op_rayDefined s' = false ∧
     PolylineSimplification.op_r0 s' = PolylineSimplification.op_r0 s ∧
     PolylineSimplification.op_r1 s' = PolylineSimplification.op_r1 s ∧
     PolylineSimplification.op_result s' = PolylineSimplification.op_result s) ∧
  ((minTol2 <= math.point_distance2 DIM (PolylineSimplification.op_r0 s) pj)%Z →
     PolylineSimplification.op_r1 s' = PolylineSimplification.op_pj s ∧
     (PolylineSimplification.op_rayDefined s' = true ∧
      PolylineSimplification.op_r0 s' = PolylineSimplification.op_r0 s
      ∨
      PolylineSimplification.op_rayDefined s' = false ∧
      PolylineSimplification.op_r0 s' = PolylineSimplification.op_pj s)).
Proof.
  intros Hray. cbn zeta. unfold PolylineSimplification.Opheim_step.
  rewrite Hray. cbn [negb].
  destruct (Z.ltb_spec (math.point_distance2 DIM (PolylineSimplification.op_r0 s)
                          (advance (PolylineSimplification.op_pj s) DIM)) minTol2)
    as [Hlt|Hge].
  - split; [done|]. intros Hge. lia.
  - split; [intros Hlt; lia|]. intros _.
    destruct (_ && _); cbn; auto.
Qed.

Lemma Opheim_ray_through_previous_point_witness :
  let s := PolylineSimplification.Opheim_init 2 [0; 0; 1; 0; 20; 1; 60; -3]%Z in
  PolylineSimplification.op_rayDefined s = false ∧
  PolylineSimplification.op_r1
    (PolylineSimplification.Opheim_step (VT := Int) (FM := ExactFloat) 2 25 10000 s) =
    [1; 0; 20; 1; 60; -3]%Z.
Proof.
  cbn zeta. split; [reflexivity|].
  apply (Opheim_ray_through_previous_point (VT := Int) (FM := ExactFloat) 2 25 10000
           (PolylineSimplification.Opheim_init 2 [0; 0; 1; 0; 20; 1; 60; -3]%Z)).
  - reflexivity.
  - vm_compute. discriminate.
Defined.

(** C7, as the claim states it, fails.  On the polyline (0,0), (1,0),
    (20,1), (60,-3) with minimum tolerance 5 and maximum tolerance 100 the
    point (1,0) is within the minimum tolerance of the key (0,0) and the
    point (20,1), which the first iteration tests, is the first one beyond
    it.  The ray that is defined then runs from the key through (1,0), not
    through (20,1).  The choice shows in the output: (60,-3) is at distance
    3 from the ray through (1,0) and at a distance above 5 from the ray
    through (20,1), and the point (20,1) is not made a key.  The fractions
    are the integers 20 and 60, so the [float] computation of the source
    gives these values. *)
Lemma Opheim_ray_not_through_first_point_beyond :
  let first := [0; 0; 1; 0; 20; 1; 60; -3]%Z in
  let s := PolylineSimplification.Opheim_init 2 first in
  let pi := PolylineSimplification.op_pj s in
  let pj := advance pi 2 in
  let s' := PolylineSimplification.Opheim_step (VT := Int) (FM := ExactFloat) 2 (5 * 5) (100 * 100) s in
  PolylineSimplification.op_rayDefined s = false ∧
  (math.point_distance2 (VT := Int) 2 (PolylineSimplification.op_r0 s) pi < 5 * 5)%Z ∧
  (5 * 5 <= math.point_distance2 (VT := Int) 2 (PolylineSimplification.op_r0 s) pj)%Z ∧
  PolylineSimplification.op_rayDefined s' = true ∧
  PolylineSimplification.op_r0 s' = PolylineSimplification.op_r0 s ∧
  PolylineSimplification.op_r1 s' = pi ∧
  math.coords_of 2 (PolylineSimplification.op_r1 s') = [1; 0]%Z ∧
  math.coords_of 2 pj = [20; 1]%Z ∧
  PolylineSimplification.Opheim (VT := Int) (FM := ExactFloat) 2 first 5 100 =
    mkOutput [0; 0; 60; -3]%Z 4.
Proof.
  cbn zeta. split_and!; try reflexivity.
  vm_compute. discriminate.
Qed.

(** ** ComputePositionalErrors2 *)

Section ComputePositionalErrors2.
Context {VT : ValueType} {FM : FloatModel}.
Variable DIM : nat.
Hypothesis DIM_pos : DIM ≠ 0.

Lemma errors_to_suffix prev s original :
  ∃ k, (errors_to DIM prev s original).2 = drop k original.
Proof.
  induction original as [|o rest [k IH]]; [by exists 0|]. simpl.
  destruct (math.equal DIM o s); [by exists 0|].
  destruct (errors_to DIM prev s rest) as [errors rest']. by exists (S k).
Qed.

Lemma errors_to_whole prev s original :
  whole DIM original → whole DIM (errors_to DIM prev s original).2.
Proof.
  intros Hw. destruct (errors_to_suffix prev s original) as [k ->].
  by apply Forall_drop.
Qed.

Lemma errors_all_whole prev simplified original :
  whole DIM original → whole DIM (errors_all DIM prev simplified original).2.
Proof.
  revert prev original.
  induction simplified as [|s rest IH]; intros prev original Hw; [done|].
  simpl. pose proof (errors_to_whole prev s original Hw) as Hw'.
  destruct (errors_to DIM prev s original) as [errors original'].
  specialize (IH s original' Hw').
  by destruct (errors_all DIM s rest original').
Qed.

Lemma length_le_concat (ps : list (list Z)) :
  whole DIM ps → length ps ≤ length (concat ps).
Proof. intros Hw. rewrite (length_concat_whole DIM) by done. nia. Qed.

(** The inner loop on whole points. *)
Lemma scan_points original :
  whole DIM original →
  ∀ fuel (p prest s srest result : list Z),
    length original < fuel → length p = DIM → length s = DIM →
    PolylineSimplification.ComputePositionalErrors2_scan DIM fuel
      (p ++ prest) (s ++ srest) (concat original) result =
    Some (concat (errors_to DIM p s original).2,
          result ++ (errors_to DIM p s original).1).
Proof.
  induction 1 as [|o rest Ho Hrest IH]; intros fuel p prest s srest result Hf Hp Hs.
  - destruct fuel; [simpl in Hf; lia|]. simpl. by rewrite app_nil_r.
  - destruct fuel as [|fuel]; [simpl in Hf; lia|].
    cbn [PolylineSimplification.ComputePositionalErrors2_scan concat errors_to].
    rewrite (point_not_nil DIM), equal_points by done. cbn [negb andb].
    destruct (math.equal DIM o s); cbn [negb].
    + cbn. by rewrite app_nil_r.
    + unfold advance. rewrite (drop_point DIM) by done.
      rewrite segment_distance2_points by done.
      rewrite (IH fuel p prest s srest) by (simpl in Hf; lia || done).
      destruct (errors_to DIM p s rest) as [errors rest']. cbn.
      by rewrite <- app_assoc.
Qed.

(** The outer loop on whole points. *)
Lemma loop_points simplified :
  whole DIM simplified →
  ∀ fuel (p prest : list Z) original result,
    whole DIM original → length simplified < fuel → length p = DIM →
    PolylineSimplification.ComputePositionalErrors2_loop DIM fuel
      (p ++ prest) (concat simplified) (concat original) result =
    Some (concat (errors_all DIM p simplified original).2,
          result ++ (errors_all DIM p simplified original).1).
Proof.
  induction 1 as [|s rest Hs Hrest IH]; intros fuel p prest original result Ho Hf Hp.
  - destruct fuel; [simpl in Hf; lia|]. simpl. by rewrite app_nil_r.
  - destruct fuel as [|fuel]; [simpl in Hf; lia|].
    cbn [PolylineSimplification.ComputePositionalErrors2_loop concat errors_all].
    rewrite (point_not_nil DIM) by done.
    rewrite scan_points by (done || pose proof (length_le_concat original Ho); lia).
    cbn [mbind option_bind]. unfold advance. rewrite (drop_point DIM) by done.
    pose proof (errors_to_whole p s original Ho) as Hw.
    destruct (errors_to DIM p s original) as [errors original'].
    cbn [fst snd] in *.
    rewrite (IH fuel s (concat rest) original') by (simpl in Hf; lia || done).
    destruct (errors_all DIM s rest original') as [errors' original''].
    cbn. by rewrite <- app_assoc.
Qed.

Lemma at_end_concat (ps : list (list Z)) :
  whole DIM ps → at_end (concat ps) = bool_decide (ps = []).
Proof.
  intros [|p rest Hp _]; [done|]. cbn [concat].
  by rewrite (point_not_nil DIM).
Qed.

(** The routine on a simplification [s0 :: simplified] and an original
    [o0 :: original] of whole points that pass the validation. *)
Lemma ComputePositionalErrors2_points s0 simplified o0 original :
  whole DIM (s0 :: simplified) → whole DIM (o0 :: original) →
  1 ≤ length simplified → length simplified ≤ length original →
  s0 = o0 →
  let '(errors, rest) := errors_all DIM s0 simplified (o0 :: original) in
  PolylineSimplification.ComputePositionalErrors2 DIM
    (concat (o0 :: original)) (concat (s0 :: simplified)) =
  Some (PolylineSimplification.end_of
          (if bool_decide (rest = []) then errors else errors ++ [0%Z]),
        negb (bool_decide (rest = []))).
Proof.
  intros Hs Ho Hlen Hle ->.
  destruct (whole_coordCount DIM DIM_pos _ Hs) as [Hsm Hsc].
  destruct (whole_coordCount DIM DIM_pos _ Ho) as [Hom Hoc].
  destruct (errors_all DIM o0 simplified (o0 :: original)) as [errors rest] eqn:He.
  unfold PolylineSimplification.ComputePositionalErrors2.
  rewrite Hsm, Hsc, Hom, Hoc. cbn [length].
  replace (S (length original) <? 2) with false by (symmetry; apply Nat.ltb_ge; lia).
  replace (S (length simplified) <? 2) with false by (symmetry; apply Nat.ltb_ge; lia).
  replace (S (length original) <? S (length simplified)) with false
    by (symmetry; apply Nat.ltb_ge; lia).
  pose proof Hs as Hs'. apply (whole_cons DIM) in Hs' as [Hs0 Hsimp].
  cbn [concat]. rewrite equal_points by done.
  replace (math.equal DIM o0 o0) with true
    by (symmetry; by apply equal_true).
  cbn [Nat.eqb negb orb]. unfold advance. rewrite (drop_point DIM) by done.
  change (o0 ++ concat original) with (concat (o0 :: original)).
  assert (length simplified < S (length (o0 ++ concat simplified))) as Hfuel.
  { rewrite length_app. pose proof (length_le_concat simplified Hsimp). lia. }
  rewrite loop_points by done.
  rewrite He. cbn [mbind option_bind fst snd app].
  assert (whole DIM rest) as Hrest.
  { pose proof (errors_all_whole o0 simplified (o0 :: original) Ho) as Hw.
    by rewrite He in Hw. }
  rewrite at_end_concat by done.
  by destruct (bool_decide (rest = [])).
Qed.
End ComputePositionalErrors2.

(** ** The validity flag *)

Lemma in_order_inv s simplified o original :
  in_order (s :: simplified) (o :: original) →
  o = s ∧ in_order simplified (o :: original) ∨ in_order (s :: simplified) original.
Proof. inversion 1; subst; auto. Qed.

Lemma in_order_nil_r s simplified : ¬ in_order (s :: simplified) [].
Proof. inversion 1. Qed.

Lemma in_order_cons simplified o original :
  in_order simplified original → in_order simplified (o :: original).
Proof. destruct simplified; [constructor | by apply in_order_later]. Qed.

Lemma in_order_tail s simplified original :
  in_order (s :: simplified) original → in_order simplified original.
Proof.
  intros H. remember (s :: simplified) as l eqn:Hl.
  induction H as [|s' S O H _|s' S o O H IH]; simplify_eq.
  - done.
  - by apply in_order_cons, IH.
Qed.


(** Points found in order are points of the original. *)
Lemma in_order_elem_of simplified original s :
  in_order simplified original → s ∈ simplified → s ∈ original.
Proof.
  induction 1 as [|s' S O H IH|s' S o O H IH]; intros Hs.
  - by apply elem_of_nil in Hs.
  - apply elem_of_cons in Hs as [->|Hs]; [left|by apply IH].
  - right. by apply IH.
Qed.

Section validity.
Context {VT : ValueType} {FM : FloatModel}.
Variable DIM : nat.
Hypothesis DIM_pos : DIM ≠ 0.

Lemma errors_all_nil prev simplified :
  (errors_all DIM prev simplified []).2 = [].
Proof.
  revert prev. induction simplified as [|s rest IH]; intros prev; [done|].
  simpl. specialize (IH s). by destruct (errors_all DIM s rest []).
Qed.

(** The scan leaves something of the original exactly when the points of
    the simplification are found in order. *)
Lemma scan_finds_in_order simplified :
  whole DIM simplified →
  ∀ prev original,
    whole DIM original →
    (errors_all DIM prev simplified original).2 ≠ [] ↔
    original ≠ [] ∧ in_order simplified original.
Proof.
  induction 1 as [|s rest Hs Hrest IHS]; intros prev original Ho.
  - simpl. split; [intros ?; split; [done|constructor] | by intros [? _]].
  - revert prev. induction Ho as [|o original Hol Ho IHO]; intros prev.
    + rewrite errors_all_nil. split; [done|by intros [? _]].
    + cbn [errors_all errors_to].
      destruct (math.equal DIM o s) eqn:Heq.
      * apply equal_true in Heq as ->; [|done..].
        specialize (IHS s (s :: original) ltac:(by apply Forall_cons)).
        destruct (errors_all DIM s rest (s :: original)) as [errors' rest'].
        cbn [snd] in *. rewrite IHS. split.
        -- intros [_ H]. split; [done|]. by apply in_order_here.
        -- intros [_ H]. split; [done|]. by apply in_order_tail in H.
      * specialize (IHO prev). cbn [errors_all] in IHO.
        destruct (errors_to DIM prev s original) as [errors original'].
        destruct (errors_all DIM s rest original') as [errors' rest'].
        cbn [snd] in *. rewrite IHO. split.
        -- intros [_ H]. split; [done|]. by apply in_order_later.
        -- intros [_ [[-> H]|H]%in_order_inv].
           ++ rewrite (proj2 (equal_true DIM s s Hs Hs)) in Heq; done.
           ++ split; [|done]. intros ->. by apply in_order_nil_r in H.
Qed.

Lemma equal_of_take_eq (p q : list Z) :
  take DIM p = take DIM q → math.equal DIM p q = true.
Proof.
  intros Heq. unfold math.equal, math.coords_of. rewrite Heq.
  by apply forallb_zip_eqb.
Qed.
End validity.

(** C8.  [ComputePositionalErrors2] returns, and the value it stores in
    [*valid] is [true] exactly when both sequences are whole points, at
    least two each, the original has at least as many points as the
    simplification, the first points are equal and every point of the
    simplification is found verbatim in the original, in order; it is
    [false] exactly when one of these is violated.  "In order" is how the
    lock-step scan finds the points: each at the place where the one before
    it was found, or later. *)
Theorem valid_flag {VT : ValueType} {FM : FloatModel} (DIM : nat) (original simplified : list Z) :
  DIM ≠ 0 →
  ∃ out valid,
    PolylineSimplification.ComputePositionalErrors2 DIM original simplified =
      Some (out, valid) ∧
    (valid = true ↔ valid_simplification DIM original simplified) ∧
    (valid = false ↔ ¬ valid_simplification DIM original simplified).
Proof.
  intros HD.
  assert (∀ (b : bool) (P : Prop), (b = true ↔ P) → (b = false ↔ ¬ P)) as Hneg.
  { intros [] P HP; split; try done; [intros HnP; destruct HnP; by apply HP|].
    intros _ HP'. by apply HP in HP'. }
  destruct (negb (length original mod DIM =? 0)
            || (PolylineSimplification.pointCount_of DIM (length original) <? 2)
            || negb (length simplified mod DIM =? 0)
            || (PolylineSimplification.pointCount_of DIM (length simplified) <? 2)
            || (PolylineSimplification.pointCount_of DIM (length original) <?
                PolylineSimplification.pointCount_of DIM (length simplified))
            || negb (math.equal DIM original simplified)) eqn:Hv.
  - exists (mkOutput [] 0), false. split.
    { unfold PolylineSimplification.ComputePositionalErrors2. by rewrite Hv. }
    rewrite !pointCount_of_div in Hv by done.
    assert (¬ valid_simplification DIM original simplified) as Hn.
    { intros (H1 & H2 & H3 & H4 & H5 & H6 & H7).
      rewrite H1, H3, (equal_of_take_eq DIM) in Hv by done.
      rewrite (proj2 (Nat.ltb_ge (length original / DIM) 2)) in Hv by done.
      rewrite (proj2 (Nat.ltb_ge (length simplified / DIM) 2)) in Hv by done.
      rewrite (proj2 (Nat.ltb_ge (length original / DIM) (length simplified / DIM)))
        in Hv by done.
      discriminate. }
    split; [split; [done|intros H; by destruct Hn]|by split].
  - repeat (apply orb_false_iff in Hv as [Hv ?]).
    destruct (validated DIM original 2) as (_ & O & -> & HO & HlO); [done..|lia|].
    destruct (validated DIM simplified 2) as (_ & S & -> & HS & HlS); [done..|lia|].
    destruct O as [|o0 O]; [simpl in HlO; lia|].
    destruct S as [|s0 S]; [simpl in HlS; lia|].
    pose proof HO as HO'. apply (whole_cons DIM) in HO' as [Ho0 HOr].
    pose proof HS as HS'. apply (whole_cons DIM) in HS' as [Hs0 HSr].
    assert (s0 = o0) as Heq.
    { match goal with H : negb (math.equal _ _ _) = false |- _ =>
        apply negb_false_iff in H; cbn [concat] in H;
        rewrite equal_points in H by done; apply equal_true in H; done
      end. }
    assert (length (s0 :: S) ≤ length (o0 :: O)) as Hle.
    { match goal with H : (_ <? _) = false |- _ =>
        apply Nat.ltb_ge in H;
        rewrite !pointCount_of_div, !(length_concat_whole DIM), !Nat.div_mul in H
          by done; done
      end. }
    pose proof (ComputePositionalErrors2_points DIM HD s0 S o0 O HS HO
                  ltac:(simpl in HlS; lia) ltac:(simpl in Hle; lia) Heq) as Hrun.
    pose proof (scan_finds_in_order DIM S HSr s0 (o0 :: O) HO) as Hscan.
    destruct (errors_all DIM s0 S (o0 :: O)) as [errors rest].
    eexists _, _. split; [exact Hrun|].
    cbn [snd] in Hscan.
    assert (negb (bool_decide (rest = [])) = true ↔
            valid_simplification DIM (concat (o0 :: O)) (concat (s0 :: S))) as Hiff.
    { unfold valid_simplification.
      rewrite !(points_concat DIM), !(length_concat_whole DIM), !Nat.div_mul,
        !Nat.Div0.mod_mul by done.
      rewrite negb_true_iff, bool_decide_eq_false, Hscan. subst s0.
      cbn [concat]. rewrite !(take_point DIM) by done. split.
      - intros [_ Hin]. split_and!; try done; try (simpl in *; lia).
        by apply in_order_here.
      - intros (_ & _ & _ & _ & _ & _ & Hin). split; [done|].
        by apply in_order_tail in Hin. }
    split; [done|by apply Hneg].
Qed.

Lemma valid_flag_witness :
  2 ≠ 0 ∧
  ∃ out valid,
    PolylineSimplification.ComputePositionalErrors2 (VT := Int) (FM := ExactFloat) 2
      [0; 0; 1; 2; 2; 0; 3; 3]%Z [0; 0; 2; 0; 3; 3]%Z = Some (out, valid) ∧
    (valid = true ↔
       valid_simplification 2 [0; 0; 1; 2; 2; 0; 3; 3]%Z [0; 0; 2; 0; 3; 3]%Z) ∧
    (valid = false ↔
       ¬ valid_simplification 2 [0; 0; 1; 2; 2; 0; 3; 3]%Z [0; 0; 2; 0; 3; 3]%Z).
Proof.
  split; [discriminate|].
  apply (valid_flag (VT := Int) (FM := ExactFloat) 2
           [0; 0; 1; 2; 2; 0; 3; 3]%Z [0; 0; 2; 0; 3; 3]%Z).
  discriminate.
Defined.

(** The scan looks for a point of the simplification from the place where
    the point before it was found, that place included: 0, 0, 2 is taken
    for a simplification of 0, 1, 2, of which it is not a subsequence. *)
Lemma repeated_point_is_valid :
  PolylineSimplification.ComputePositionalErrors2 (VT := Int) (FM := ExactFloat) 1
    [0; 1; 2]%Z [0; 0; 2]%Z = Some (mkOutput [0; 0; 0]%Z 3, true) ∧
  ¬ points 1 [0; 0; 2]%Z `sublist_of` points 1 [0; 1; 2]%Z.
Proof.
  split; [reflexivity|].
  intros H. vm_compute in H.
  repeat match goal with H : sublist _ _ |- _ => inversion H; clear H; subst end.
Qed.

(** ** The positional errors of RadialDistance *)

Section measured_calls.
Context {VT : ValueType} {FM : FloatModel}.
Variable DIM : nat.

(** The errors are the distances of the calls. *)
Lemma errors_to_measured prev s original :
  errors_to DIM prev s original =
  (map (λ m, math.segment_distance2 DIM m.1.1 m.1.2 m.2)
       (measured_to DIM prev s original).1,
   (measured_to DIM prev s original).2).
Proof.
  induction original as [|o rest IH]; [done|]. cbn [errors_to measured_to].
  destruct (math.equal DIM o s); [done|].
  rewrite IH. by destruct (measured_to DIM prev s rest).
Qed.



Lemma measured_to_skip prev s skipped rest :
  length s = DIM →
  (∀ d, d ∈ skipped → math.equal DIM d s = false) →
  measured_to DIM prev s (skipped ++ s :: rest) =
  (map (λ d, (prev, s, d)) skipped, s :: rest).
Proof.
  intros Hs. induction skipped as [|d skipped IH]; intros Hne.
  - cbn. by rewrite (proj2 (equal_true DIM s s Hs Hs)).
  - cbn [app measured_to map]. rewrite Hne by left.
    rewrite IH; [done|]. intros d' Hd'. apply Hne. by right.
Qed.
End measured_calls.

Section radial_errors.
Context {VT : ValueType} {FM : FloatModel}.
Variable DIM : nat.
Hypothesis DIM_pos : DIM ≠ 0.
Variable tol2 : Z.
Hypothesis tol2_positive : (0 < tol2)%Z.

(** The points of the original polyline. *)
Variable ps : list (list Z).
Hypothesis ps_whole : whole DIM ps.


Lemma errors_to_skip prev s skipped rest :
  length s = DIM →
  (∀ d, d ∈ skipped → math.equal DIM d s = false) →
  errors_to DIM prev s (skipped ++ s :: rest) =
  (map (math.segment_distance2 DIM prev s) skipped, s :: rest).
Proof.
  intros Hs Hne. rewrite errors_to_measured, measured_to_skip by done.
  cbn [fst snd]. by rewrite map_map.
Qed.

End radial_errors.




(** * Further properties of the distance functions *)

Section distances.
Context {VT : ValueType} {FM : FloatModel}.
Variable DIM : nat.

Lemma sum_squares_zero (p q : list Z) :
  sum_squares p q = 0%Z ↔ forallb (λ c, (c.1 =? c.2)%Z) (zip p q) = true.
Proof.
  unfold sum_squares. generalize (zip p q). intros l.
  induction l as [|c l IH]; simpl; [done|].
  rewrite foldl_sum, andb_true_iff, Z.eqb_eq, <- IH.
  assert (0 <= foldl (λ result c, (result + (c.1 - c.2) * (c.1 - c.2))%Z) 0%Z l)%Z
    as Hnn.
  { clear. induction l as [|c l IH]; simpl; [lia|].
    rewrite foldl_sum. pose proof (Z.square_nonneg (c.1 - c.2)). lia. }
  pose proof (Z.square_nonneg (c.1 - c.2)) as Hsq.
  split; [|intros [-> ->]; lia].
  intros H. split; [nia|lia].
Qed.

(** The dot product with the vector from a point to itself is zero in
    every value type. *)
Lemma dot_zero_vector (s w : list Z) :
  math.dot DIM (math.make_vector DIM s s) w = 0%Z ∧
  math.dot DIM w (math.make_vector DIM s s) = 0%Z.
Proof.
  unfold math.dot, math.make_vector.
  generalize (math.coords_of DIM w). generalize (math.coords_of DIM s).
  intros l v. unfold math.coords_of.
  generalize DIM. clear. intros n. revert l v.
  induction n as [|n IH]; intros [|a l] [|b v]; simpl; try done.
  replace (a - a)%Z with 0%Z by lia. rewrite narrow_0.
  replace (0 + 0 * b)%Z with 0%Z by lia.
  replace (0 + b * 0)%Z with 0%Z by lia. rewrite narrow_0. apply IH.
Qed.

(** X1. [equal] compares the first [DIM] coordinates behind the two
    iterators and nothing else: it is [true] exactly when these are the
    same. *)
Theorem equal_iff_same_coordinates (p1 p2 : list Z) :
  DIM ≤ length p1 → DIM ≤ length p2 →
  math.equal DIM p1 p2 = true ↔ take DIM p1 = take DIM p2.
Proof.
  intros H1 H2. unfold math.equal, math.coords_of.
  apply forallb_zip_eqb. rewrite !length_take. lia.
Qed.

(** X2. When the value type holds the sum of the squares of the
    coordinate differences of two points, [point_distance2] is that sum:
    it is not negative, does not depend on the order of the points, and is
    zero exactly when [equal] holds of them. *)
Theorem point_distance2_metric (p1 p2 : list Z) (B : Z) :
  holds B → (sum_squares (take DIM p1) (take DIM p2) <= B)%Z →
  math.point_distance2 DIM p1 p2 = sum_squares (take DIM p1) (take DIM p2) ∧
  (0 <= math.point_distance2 DIM p1 p2)%Z ∧
  math.point_distance2 DIM p1 p2 = math.point_distance2 DIM p2 p1 ∧
  (math.point_distance2 DIM p1 p2 =? 0)%Z = math.equal DIM p1 p2.
Proof.
  intros HB Hb.
  assert (math.point_distance2 DIM p1 p2 = sum_squares (take DIM p1) (take DIM p2))
    as Heq by (by apply (point_distance2_sum B)).
  split_and!; [done| | |].
  - rewrite Heq. apply sum_squares_nonneg.
  - apply point_distance2_sym.
  - rewrite Heq. unfold math.equal, math.coords_of.
    apply eq_true_iff_eq. rewrite Z.eqb_eq. apply sum_squares_zero.
Qed.

Lemma segment_distance2_start (s1 s2 : list Z) :
  math.segment_distance2 DIM s1 s2 s1 = 0%Z.
Proof.
  unfold math.segment_distance2.
  rewrite (proj1 (dot_zero_vector s1 _)).
  cbn. apply point_distance2_refl.
Qed.

(** X4. The start of a segment is at distance zero from it in every value
    type, and so is its end when the squared length of the segment, as
    [value_type] holds it, is positive; if it is not, the distance of the
    end is its distance to the start.  No interpolation is made for
    them. *)
Theorem segment_distance2_ends (s1 s2 : list Z) :
  let cv := math.dot DIM (math.make_vector DIM s1 s2) (math.make_vector DIM s1 s2) in
  math.segment_distance2 DIM s1 s2 s1 = 0%Z ∧
  ((0 < cv)%Z → math.segment_distance2 DIM s1 s2 s2 = 0%Z) ∧
  ((cv <= 0)%Z →
     math.segment_distance2 DIM s1 s2 s2 = math.point_distance2 DIM s2 s1).
Proof.
  cbn zeta. split_and!.
  - apply segment_distance2_start.
  - intros Hcv. unfold math.segment_distance2.
    destruct (Z.leb_spec (math.dot DIM (math.make_vector DIM s1 s2)
                            (math.make_vector DIM s1 s2)) 0); [lia|].
    rewrite Z.leb_refl. apply point_distance2_refl.
  - intros Hcv. unfold math.segment_distance2.
    by destruct (Z.leb_spec (math.dot DIM (math.make_vector DIM s1 s2)
                               (math.make_vector DIM s1 s2)) 0); [|lia].
Qed.

(** X5. A segment or a ray whose two points are the same is a point: the
    distance to it is the distance to that point, and no division by the
    zero length is made. *)
Theorem degenerate_segment_and_ray (s p : list Z) :
  math.segment_distance2 DIM s s p = math.point_distance2 DIM p s ∧
  math.ray_distance2 DIM s s p = math.point_distance2 DIM p s.
Proof.
  unfold math.segment_distance2, math.ray_distance2.
  by rewrite (proj2 (dot_zero_vector s _)).
Qed.

(** X6. The distance to a ray is the distance to the segment between the
    two points of the ray unless the projection falls at or beyond the
    second point, and it is the distance to the line through the two points
    when the projection falls beyond the first. *)
Theorem ray_between_segment_and_line (r1 r2 p : list Z) :
  let v := math.make_vector DIM r1 r2 in
  let w := math.make_vector DIM r1 p in
  ((math.dot DIM w v < math.dot DIM v v)%Z →
     math.ray_distance2 DIM r1 r2 p = math.segment_distance2 DIM r1 r2 p) ∧
  ((0 < math.dot DIM w v)%Z →
     math.ray_distance2 DIM r1 r2 p = math.line_distance2 DIM r1 r2 p).
Proof.
  cbn zeta. unfold math.ray_distance2, math.segment_distance2, math.line_distance2.
  split; intros H.
  - destruct (Z.leb_spec (math.dot DIM (math.make_vector DIM r1 p)
                            (math.make_vector DIM r1 r2)) 0); [done|].
    destruct (Z.leb_spec (math.dot DIM (math.make_vector DIM r1 r2)
                            (math.make_vector DIM r1 r2))
                (math.dot DIM (math.make_vector DIM r1 p)
                            (math.make_vector DIM r1 r2))); [lia|done].
  - destruct (Z.leb_spec (math.dot DIM (math.make_vector DIM r1 p)
                            (math.make_vector DIM r1 r2)) 0); [lia|done].
Qed.
End distances.

Section nearest.
Context {VT : ValueType} {FM : FloatModel}.
Variable DIM : nat.
Variable B : Z.
Hypothesis holds_B : holds B.

Local Abbreviation pr := (λ (result : Z) (c : Z * Z), (result + c.1 * c.2)%Z).
Local Abbreviation vec := (zip_with (λ c1 c2 : Z, (c2 - c1)%Z)).

Lemma segment_distance2_le_end (s1 s2 p : list Z) :
  length s1 = DIM → length s2 = DIM → length p = DIM →
  (sum_squares s1 s2 <= B)%Z → (sum_squares s1 p <= B)%Z →
  (sum_squares p s2 <= B)%Z →
  projection_exact DIM s1 s2 p →
  (math.segment_distance2 DIM s1 s2 p <= math.point_distance2 DIM p s2)%Z.
Proof.
  intros H1 H2 Hp Hs Hd He Hex. unfold projection_exact in Hex.
  destruct (vectors_exact B holds_B DIM s1 s2 p H1 H2 Hp Hs Hd)
    as (Hv & Hw & Hcw & Hcv & Hd1).
  assert (math.point_distance2 DIM p s2 = sum_squares p s2) as Hd2.
  { unfold math.point_distance2.
    rewrite (coords_of_whole DIM s2), (coords_of_whole DIM p) by done.
    by apply (point_distance2_sum B). }
  unfold math.segment_distance2.
  rewrite Hv, Hw, Hcw, Hcv, Hd1, Hd2 in *.
  pose proof (distance_to_end s1 s2 p ltac:(congruence) ltac:(congruence)) as Hend.
  rewrite dot_self in Hend. fold (sum_squares p s2) in Hend.
  fold (sum_squares p s1) in Hend. rewrite (sum_squares_sym p s1) in Hend.
  pose proof (sum_squares_nonneg s1 s2) as Hnn.
  destruct (Z.leb_spec (foldl pr 0%Z (zip (vec s1 p) (vec s1 s2))) 0) as [Hc|Hc];
    [lia|].
  destruct (Z.leb_spec (sum_squares s1 s2)
              (foldl pr 0%Z (zip (vec s1 p) (vec s1 s2)))) as [Hcv'|Hcv']; [lia|].
  specialize (Hex (conj Hc Hcv')).
  revert Hex. unfold math.interpolate, math.point_distance2, lerp_exact.
  rewrite (coords_of_whole DIM s1), (coords_of_whole DIM s2),
    (coords_of_whole DIM p) by done.
  rewrite coords_of_whole by (rewrite length_zip_with; lia).
  intros Hex.
  pose proof (distance_to_projection _ _ _ s1 s2 p
                ltac:(congruence) ltac:(congruence) Hex) as Heq.
  rewrite dot_self in Heq.
  fold (sum_squares p s1) in Heq. rewrite (sum_squares_sym p s1) in Heq.
  match type of Heq with (_ * foldl _ _ (zip p ?proj) = _)%Z =>
    fold (sum_squares p proj) in Heq;
    pose proof (sum_squares_nonneg p proj) as Hpn;
    assert (sum_squares p proj <= sum_squares s1 p ∧
            sum_squares p proj <= sum_squares p s2)%Z as [Hle Hle2]
  end.
  { remember (foldl pr 0%Z (zip (vec s1 p) (vec s1 s2))) as C.
    remember (sum_squares s1 s2) as V. remember (sum_squares s1 p) as D.
    remember (sum_squares p s2) as E.
    match goal with |- (?R <= _ ∧ _)%Z => remember R as T end.
    clear -Heq Hc Hcv' Hend.
    assert (V * V * (D - T) = V * (C * C))%Z as Hd by lia.
    assert (0 <= V * (C * C))%Z by nia.
    assert (0 < V * V)%Z by nia.
    assert (V * V * (E - T) = V * ((V - C) * (V - C)))%Z as Hd'.
    { rewrite Hend.
      replace (V * V * (D - 2 * C + V - T))%Z
        with (V * V * (D - T) - 2 * C * V * V + V * V * V)%Z by ring.
      rewrite Hd. ring. }
    pose proof (Z.square_nonneg (V - C)) as Hsq.
    assert (0 <= V * ((V - C) * (V - C)))%Z by (apply Z.mul_nonneg_nonneg; lia).
    split; nia. }
  rewrite (point_distance2_sum B); [lia|done|lia].
Qed.

(** X7. When the value type holds the squared distances between the three
    points and the interpolated projection is exact, the distance of a
    point to a segment is at most its distance to either end of the
    segment. *)
Theorem segment_distance2_le_ends (s1 s2 p : list Z) :
  length s1 = DIM → length s2 = DIM → length p = DIM →
  (sum_squares s1 s2 <= B)%Z → (sum_squares s1 p <= B)%Z →
  (sum_squares p s2 <= B)%Z →
  projection_exact DIM s1 s2 p →
  (math.segment_distance2 DIM s1 s2 p <= math.point_distance2 DIM p s1)%Z ∧
  (math.segment_distance2 DIM s1 s2 p <= math.point_distance2 DIM p s2)%Z.
Proof.
  intros H1 H2 Hp Hs Hd He Hex. split.
  - rewrite (point_distance2_sym DIM p s1).
    by apply (segment_distance2_le_start B).
  - by apply segment_distance2_le_end.
Qed.
End nearest.

(** * Further properties of the simplification routines *)

Section accepted.
Context {VT : ValueType} {FM : FloatModel}.
Variable DIM : nat.
Variable choose : list Z → nat.



(** X8. For [DIM] not zero, a single pass routine copies an input it does
    not accept to the output, all of it and nothing else, and returns the
    iterator it was given: the start of the copy, not its end.  The value
    type is arbitrary: the square of a zero tolerance is zero in each. *)
Theorem fallback_copies_input r first :
  DIM ≠ 0 → single_pass r = true → valid_input DIM r first = false →
  ∃ out, run DIM choose r first = Some out ∧
    written out = first ∧ returned out = 0.
Proof.
  intros _ Hr Hv. rewrite (single_pass_fallback DIM choose r first Hr Hv).
  by eexists.
Qed.


End accepted.

Section every_nth.
Variable DIM : nat.
Hypothesis DIM_pos : DIM ≠ 0.

(** The loop copies the points at [n], [2 * n], ..., [k * n]. *)
Lemma NthPoint_loop_every_nth n k :
  ∀ (ps : list (list Z)) (result : list Z),
    1 ≤ n → whole DIM ps → k * n < length ps →
    ∃ outs,
      PolylineSimplification.NthPoint_loop DIM k (n * DIM) (concat ps) result =
        (concat (drop (k * n) ps), result ++ concat outs) ∧
      length outs = k ∧
      ∀ i, i < k → outs !! i = ps !! (S i * n).
Proof.
  induction k as [|k IH]; intros ps result Hn Hps Hlen.
  - exists []. simpl. rewrite app_nil_r. split_and!; [done|done|lia].
  - cbn [PolylineSimplification.NthPoint_loop]. unfold advance.
    rewrite (drop_points DIM) by done.
    assert (n < length ps) as Hn' by (simpl in Hlen; lia).
    destruct (drop n ps) as [|x rest] eqn:Hdrop.
    { apply (f_equal length) in Hdrop. rewrite length_drop in Hdrop.
      simpl in Hdrop. lia. }
    assert (whole DIM (x :: rest)) as Hw.
    { rewrite <- Hdrop. by apply Forall_drop. }
    pose proof Hw as Hw'. apply (whole_cons DIM) in Hw' as [Hx _].
    unfold PolylineSimplification.CopyKey. cbn [concat].
    rewrite (take_point DIM) by done.
    destruct (IH (x :: rest) (result ++ x) Hn Hw) as (outs & Hloop & Hk & Hi).
    { rewrite <- Hdrop, length_drop. simpl in Hlen. lia. }
    cbn [concat] in Hloop. rewrite Hloop.
    exists (x :: outs). split_and!.
    + rewrite <- Hdrop, drop_drop. cbn [concat].
      by rewrite <- app_assoc.
    + simpl. lia.
    + intros [|i] Hlt.
      * cbn [lookup list_lookup]. 
        replace (1 * n) with (n + 0) by lia.
        by rewrite <- lookup_drop, Hdrop.
      * cbn [lookup list_lookup]. change (list_lookup i outs) with (outs !! i).
        rewrite Hi by lia. rewrite <- Hdrop, lookup_drop. f_equal; lia.
Qed.

(** X11. On an input it accepts, [NthPoint] writes the points at the
    indices 0, [n], [2 * n], ... of the input, and after them the last
    point of the input unless that is one of them. *)
Theorem NthPoint_keeps_every_nth ps n :
  whole DIM ps → 2 ≤ length ps → 2 ≤ n →
  (Z.of_nat (length (concat ps)) < 2 ^ 32)%Z →
  let k := (length ps - 1) / n in
  ∃ outs,
    PolylineSimplification.NthPoint DIM (concat ps) n =
      PolylineSimplification.end_of (concat outs) ∧
    length outs = (if (length ps - 1) mod n =? 0 then k + 1 else k + 2) ∧
    (∀ i, i ≤ k → outs !! i = ps !! (i * n)) ∧
    last outs = last ps.
Proof.
  intros Hps Hlen Hn Hsize. cbn zeta.
  destruct (whole_coordCount DIM DIM_pos _ Hps) as [Hmod Hcount].
  unfold PolylineSimplification.NthPoint.
  rewrite Hmod, Hcount.
  replace (length ps <? 2) with false by (symmetry; apply Nat.ltb_ge; lia).
  replace (n <? 2) with false by (symmetry; apply Nat.ltb_ge; lia).
  cbn [Nat.eqb negb orb].
  rewrite (length_concat_whole DIM) in Hsize by done.
  change (2 ^ 32)%Z with 4294967296%Z in Hsize.
  clear Hmod Hcount.
  remember (length ps) as N eqn:HN.
  assert (N ≤ N * DIM) as HND by nia.
  assert (((Z.of_nat N - 1) / Z.of_nat n)%Z = Z.of_nat ((N - 1) / n)) as ->.
  { rewrite Nat2Z.inj_div, Nat2Z.inj_sub by lia. done. }
  assert ((N - 1) mod n = N - 1 - (N - 1) / n * n) as Hr.
  { pose proof (Nat.div_mod_eq (N - 1) n). lia. }
  rewrite Hr.
  remember ((N - 1) / n) as k eqn:Hkdef.
  assert (k * n ≤ N - 1) as Hk.
  { subst k. rewrite Nat.mul_comm. apply Nat.Div0.mul_div_le. }
  clear Hkdef Hr.
  rewrite (wrap32_small (Z.of_nat k)) by lia.
  rewrite <- (Nat2Z.inj_mul k n).
  rewrite (wrap32_small (Z.of_nat (k * n))) by lia.
  replace (Z.of_nat N - Z.of_nat (k * n) - 1)%Z with (Z.of_nat (N - 1 - k * n)) by lia.
  rewrite (wrap32_small (Z.of_nat (N - 1 - k * n))) by lia.
  rewrite Nat2Z.id.
  destruct ps as [|p0 qs]; [simpl in HN; lia|].
  pose proof Hps as Hps'. apply (whole_cons DIM) in Hps' as [H0 Hqs].
  assert (length qs = N - 1) as Hq by (simpl in HN; lia).
  cbn [concat].
  replace (PolylineSimplification.CopyKey DIM (p0 ++ concat qs) []) with p0
    by (unfold PolylineSimplification.CopyKey; by rewrite (take_point DIM)).
  assert (∃ outs,
    PolylineSimplification.NthPoint_loop DIM k
      (Z.to_nat (wrap32 (Z.of_nat n * Z.of_nat DIM))) (p0 ++ concat qs) p0 =
      (concat (drop (k * n) (p0 :: qs)), p0 ++ concat outs) ∧
    length outs = k ∧
    (∀ i, i < k → outs !! i = (p0 :: qs) !! (S i * n))) as (outs & Hloop & Hlo & Hi).
  { destruct (Nat.eq_dec k 0) as [->|Hk0].
    - exists []. simpl. rewrite app_nil_r. split_and!; [done|done|lia].
    - assert (n * DIM ≤ N * DIM) by nia.
      rewrite <- (Nat2Z.inj_mul n DIM), wrap32_small, Nat2Z.id by lia.
      destruct (NthPoint_loop_every_nth n k (p0 :: qs) p0) as (outs & ? & ? & ?);
        [lia|done|simpl; lia|].
      by exists outs. }
  rewrite Hloop.
  assert (∀ i, i ≤ k → (p0 :: outs) !! i = (p0 :: qs) !! (i * n)) as Hi'.
  { intros [|i] Hle; [done|]. cbn [lookup list_lookup].
    change (list_lookup i outs) with (outs !! i). by rewrite Hi by lia. }
  assert (last (p0 :: qs) = (p0 :: qs) !! (N - 1)) as Hlast.
  { rewrite last_lookup. f_equal. simpl. lia. }
  destruct (Z.eqb_spec (Z.of_nat (N - 1 - k * n)) 0) as [Hr|Hr];
    cbn [negb].
  - (* the last point is the last nth point *)
    assert (k * n = N - 1) as Hkn by lia.
    replace (N - 1 - k * n =? 0) with true by (symmetry; apply Nat.eqb_eq; lia).
    exists (p0 :: outs). split_and!; [done|simpl; lia|done|].
    rewrite Hlast, <- Hkn, <- Hi' by lia.
    rewrite last_lookup. f_equal. simpl. lia.
  - (* the last point follows the last nth point *)
    replace (N - 1 - k * n =? 0) with false by (symmetry; apply Nat.eqb_neq; lia).
    assert (DIM * (N - 1 - k * n) ≤ N * DIM) by nia.
    rewrite <- (Nat2Z.inj_mul DIM), wrap32_small, Nat2Z.id by lia.
    rewrite (Nat.mul_comm DIM).
    unfold advance.
    rewrite (drop_points DIM) by (by apply Forall_drop).
    rewrite drop_drop.
    replace (k * n + (N - 1 - k * n)) with (length qs) by lia.
    destruct (drop_length_cons p0 qs) as [pl Hpl]. rewrite Hpl.
    assert (length pl = DIM) as Hlp.
    { assert (whole DIM [pl]) as Hw by (rewrite <- Hpl; by apply Forall_drop).
      by apply (whole_cons DIM) in Hw as [? _]. }
    unfold PolylineSimplification.CopyKey. cbn [concat].
    rewrite app_nil_r, take_ge by lia.
    exists (p0 :: outs ++ [pl]). split_and!.
    + cbn [concat]. rewrite concat_app. cbn [concat].
      by rewrite app_nil_r, app_assoc.
    + simpl. rewrite length_app. simpl. lia.
    + intros i Hle. rewrite <- Hi' by done.
      rewrite app_comm_cons. apply lookup_app_l. simpl. lia.
    + rewrite app_comm_cons, last_snoc, Hlast.
      replace (N - 1) with (length qs + 0) by lia.
      by rewrite <- lookup_drop, Hpl.
Qed.
End every_nth.

Section radial.
Context {VT : ValueType} {FM : FloatModel}.
Variable DIM : nat.
Hypothesis DIM_pos : DIM ≠ 0.
Variable tol2 : Z.

(** Each key of the sweep is at least the tolerance away from the key
    before it. *)
Lemma radial_keys_spaced qs :
  ∀ cur i a b,
    (cur :: radial_keys DIM tol2 cur qs) !! i = Some a →
    (cur :: radial_keys DIM tol2 cur qs) !! S i = Some b →
    (tol2 <= math.point_distance2 DIM a b)%Z.
Proof.
  induction qs as [|q qs IH]; intros cur i a b Ha Hb; [by destruct i|].
  cbn [radial_keys] in *.
  destruct (Z.ltb_spec (math.point_distance2 DIM cur q) tol2) as [Hlt|Hge].
  - by eapply IH.
  - destruct i as [|i].
    + cbn in Ha, Hb. by simplify_eq.
    + cbn [lookup list_lookup] in Ha, Hb. by eapply IH.
Qed.

(** Each point of the sweep is within the tolerance of a key. *)
Lemma radial_keys_cover qs :
  (0 < tol2)%Z →
  ∀ cur q, q ∈ qs →
    ∃ a, a ∈ cur :: radial_keys DIM tol2 cur qs ∧
         (math.point_distance2 DIM a q < tol2)%Z.
Proof.
  intros Htol. induction qs as [|x qs IH]; intros cur q Hq.
  { by apply elem_of_nil in Hq. }
  cbn [radial_keys].
  destruct (Z.ltb_spec (math.point_distance2 DIM cur x) tol2) as [Hlt|Hge].
  - apply elem_of_cons in Hq as [->|Hq]; [exists cur; split; [left|done]|].
    by apply IH.
  - apply elem_of_cons in Hq as [->|Hq].
    + exists x. split; [right; left|]. by rewrite point_distance2_refl.
    + destruct (IH x q Hq) as (a & Ha & Hd). exists a. split; [by right|done].
Qed.
End radial.

Section RadialDistance_keys.
Context {VT : ValueType} {FM : FloatModel}.
Variable DIM : nat.

(** X12. In the output of [RadialDistance] on an input it accepts, the
    square of the tolerance not being zero in [value_type], every point but
    the last is at least the tolerance away from the point written before
    it, by the squared distance and the squared tolerance that the routine
    compares; the last point of the input is written whatever its
    distance. *)
Theorem RadialDistance_keys_apart (ps : list (list Z)) (tol : Z) :
  DIM ≠ 0 → whole DIM ps → 2 ≤ length ps → narrow (tol * tol) ≠ 0%Z →
  ∃ outs,
    PolylineSimplification.RadialDistance DIM (concat ps) tol =
      PolylineSimplification.end_of (concat outs) ∧
    last outs = last ps ∧
    ∀ i a b, outs !! i = Some a → outs !! S i = Some b →
      S (S i) < length outs →
      (narrow (tol * tol) <= math.point_distance2 DIM a b)%Z.
Proof.
  intros HD Hps Hlen Htol%Z.eqb_neq.
  destruct ps as [|p0 ps]; [simpl in Hlen; lia|].
  destruct ps as [|pl qs _] using rev_ind; [simpl in Hlen; lia|].
  rewrite (RadialDistance_points DIM HD) by done.
  eexists. split; [done|]. split.
  { by rewrite !app_comm_cons, !last_snoc. }
  intros i a b Ha Hb Hi.
  rewrite app_comm_cons in Ha, Hb, Hi. rewrite length_app in Hi. simpl in Hi.
  rewrite lookup_app_l in Ha by (simpl; lia).
  rewrite lookup_app_l in Hb by (simpl; lia).
  by eapply radial_keys_spaced.
Qed.

(** X13. Every point of an input that [RadialDistance] accepts is within
    the tolerance of a point of the output, by the squared distance and
    the squared tolerance that the routine compares, when the square of
    the tolerance is positive in [value_type]. *)
Theorem RadialDistance_covers (ps : list (list Z)) (tol : Z) :
  DIM ≠ 0 → whole DIM ps → 2 ≤ length ps → (0 < narrow (tol * tol))%Z →
  ∃ outs,
    PolylineSimplification.RadialDistance DIM (concat ps) tol =
      PolylineSimplification.end_of (concat outs) ∧
    ∀ p, p ∈ ps →
      ∃ a, a ∈ outs ∧ (math.point_distance2 DIM a p < narrow (tol * tol))%Z.
Proof.
  intros HD Hps Hlen Hpos.
  destruct ps as [|p0 ps]; [simpl in Hlen; lia|].
  destruct ps as [|pl qs _] using rev_ind; [simpl in Hlen; lia|].
  rewrite (RadialDistance_points DIM HD) by (done || by apply Z.eqb_neq; lia).
  eexists. split; [done|].
  intros p Hp. apply elem_of_cons in Hp as [Hp|Hp].
  { exists p. split; [subst p; left|]. by rewrite point_distance2_refl. }
  apply elem_of_app in Hp as [Hq|Hp].
  - destruct (radial_keys_cover DIM (narrow (tol * tol)) qs Hpos p0 p Hq)
      as (a & Ha & Hd).
    exists a. split; [|done]. rewrite app_comm_cons. apply elem_of_app. by left.
  - exists p. split; [|by rewrite point_distance2_refl].
    right. apply elem_of_app. by right.
Qed.
End RadialDistance_keys.

Section halving.
Context {VT : ValueType} {FM : FloatModel}.
Variable DIM : nat.
Hypothesis DIM_pos : DIM ≠ 0.

(** The loop never drops two points in a row: of the points [q1 :: qs] it
    is entered with, at least half are copied. *)
Lemma PerpendicularDistance_loop_half tol2 fuel :
  ∀ (qs : list (list Z)) (q1 p0 result : list Z),
    whole DIM (q1 :: qs) → length qs < fuel →
    ∃ outs p1 result',
      PolylineSimplification.PerpendicularDistance_loop DIM fuel tol2 p0
        (q1 ++ concat qs) (concat qs) result = Some (p1, result') ∧
      (if negb (at_end p1) then PolylineSimplification.CopyKey DIM p1 result'
       else result') = result ++ concat outs ∧
      whole DIM outs ∧
      length (q1 :: qs) ≤ 2 * length outs.
Proof.
  induction fuel as [|fuel IH]; intros qs q1 p0 result Hw Hfuel; [lia|].
  apply (whole_cons DIM) in Hw as [H1 Hqs].
  cbn [PolylineSimplification.PerpendicularDistance_loop].
  destruct qs as [|q2 qs].
  - exists [q1], (q1 ++ []), result. cbn [concat at_end].
    rewrite (point_not_nil DIM) by done. cbn [negb].
    unfold PolylineSimplification.CopyKey. rewrite (take_point DIM) by done.
    rewrite !app_nil_r. split_and!; [done|done|by apply Forall_singleton|simpl; lia].
  - pose proof Hqs as Hqs'.
    apply (whole_cons DIM) in Hqs as [H2 Hqs].
    cbn [concat]. rewrite (point_not_nil DIM) by done.
    unfold PolylineSimplification.CopyKey, advance.
    rewrite (take_point DIM), (drop_point DIM) by done.
    destruct (_ <? _)%Z.
    + rewrite drop_two_points by done.
      destruct qs as [|q3 qs].
      * exists [q2], [], (result ++ q2). cbn [concat at_end negb].
        rewrite app_nil_r.
        split_and!; [done|done|by apply Forall_singleton|simpl; lia].
      * pose proof Hqs as Hqs3. apply (whole_cons DIM) in Hqs as [H3 Hqs].
        cbn [concat]. rewrite (point_not_nil DIM) by done.
        rewrite drop_two_points by done.
        destruct (IH qs q3 (q2 ++ q3 ++ concat qs) (result ++ q2) Hqs3)
          as (outs & p1 & result' & Hloop & Hout & Hwo & Hhalf).
        { simpl in Hfuel. lia. }
        exists (q2 :: outs), p1, result'. split_and!.
        -- done.
        -- unfold PolylineSimplification.CopyKey in Hout.
           rewrite Hout. cbn [concat]. by rewrite <- app_assoc.
        -- by apply Forall_cons.
        -- simpl in *. lia.
    + rewrite (take_point DIM) by done.
      destruct (IH qs q2 (q1 ++ q2 ++ concat qs) (result ++ q1) Hqs')
        as (outs & p1 & result' & Hloop & Hout & Hwo & Hhalf).
      { simpl in Hfuel. lia. }
      exists (q1 :: outs), p1, result'. split_and!.
      * done.
      * unfold PolylineSimplification.CopyKey in Hout.
        rewrite Hout. cbn [concat]. by rewrite <- app_assoc.
      * by apply Forall_cons.
      * simpl in *. lia.
Qed.

(** X14. A pass of [PerpendicularDistance] never drops two points in a
    row, so it removes fewer than half of the points of an input it
    accepts, the square of the tolerance not being zero in
    [value_type]. *)
Theorem PerpendicularDistance_keeps_half (ps : list (list Z)) (tol : Z) :
  whole DIM ps → 3 ≤ length ps → narrow (tol * tol) ≠ 0%Z →
  ∃ out,
    PolylineSimplification.PerpendicularDistance DIM (concat ps) tol = Some out ∧
    returned out = length (written out) ∧
    length ps + 1 ≤ 2 * (length (written out) / DIM).
Proof.
  intros Hps Hlen Htol%Z.eqb_neq.
  destruct (whole_coordCount DIM DIM_pos _ Hps) as [Hmod Hcount].
  unfold PolylineSimplification.PerpendicularDistance.
  rewrite Hmod, Hcount, Htol.
  replace (length ps <? 3) with false by (symmetry; apply Nat.ltb_ge; lia).
  cbn [Nat.eqb negb orb].
  destruct ps as [|p0 [|q1 qs]]; simpl in Hlen; try lia.
  apply (whole_cons DIM) in Hps as [H0 Hps].
  pose proof Hps as Hps'. apply (whole_cons DIM) in Hps as [H1 Hqs].
  cbn [concat]. unfold advance, PolylineSimplification.CopyKey.
  rewrite !(drop_point DIM), (take_point DIM) by done. cbn [app].
  destruct (PerpendicularDistance_loop_half (narrow (tol * tol))
              (length (p0 :: q1 :: qs))
              qs q1 (p0 ++ q1 ++ concat qs) p0 Hps')
    as (outs & p1 & result' & Hloop & Hout & Hwo & Hhalf).
  { simpl. lia. }
  rewrite Hloop. cbn [mbind option_bind].
  exists (PolylineSimplification.end_of (concat (p0 :: outs))).
  split.
  - unfold PolylineSimplification.CopyKey in Hout.
    destruct (negb (at_end p1)); rewrite Hout; done.
  - split; [done|]. cbn [PolylineSimplification.end_of written].
    assert (whole DIM (p0 :: outs)) as Hw by (by apply Forall_cons).
    rewrite (length_concat_whole DIM) by done.
    rewrite Nat.div_mul by done. simpl in *. lia.
Qed.
End halving.

(** Points that flags select *)

Lemma flagged_shift (b : bool) keys qs :
  ∀ p, flagged (S p) (b :: keys) qs = flagged p keys qs.
Proof.
  induction qs as [|q qs IH]; intros p; [done|].
  cbn [flagged]. change ((b :: keys) !! S p) with (keys !! p).
  by rewrite !IH.
Qed.

Lemma flagged_true keys q qs :
  flagged 0 (true :: keys) (q :: qs) = q :: flagged 0 keys qs.
Proof. cbn [flagged lookup list_lookup default from_option id]. by rewrite flagged_shift. Qed.

Lemma flagged_false keys q qs :
  flagged 0 (false :: keys) (q :: qs) = flagged 0 keys qs.
Proof. cbn [flagged lookup list_lookup default from_option id]. by rewrite flagged_shift. Qed.

Lemma flagged_app keys keys' (l1 l2 : list (list Z)) :
  length keys = length l1 →
  flagged 0 (keys ++ keys') (l1 ++ l2) = flagged 0 keys l1 ++ flagged 0 keys' l2.
Proof.
  revert keys. induction l1 as [|q l1 IH]; intros [|[] keys] Hlen;
    simpl in Hlen; try lia; [done| |].
  - cbn [app]. rewrite !flagged_true, IH by lia. done.
  - cbn [app]. rewrite !flagged_false, IH by lia. done.
Qed.

Section dropped.
Context {VT : ValueType} {FM : FloatModel}.
Variable DIM : nat.
Hypothesis DIM_pos : DIM ≠ 0.

(** The loop, entered with the key [P0] and the point [q1] to test.  It
    copies the points of [q1 :: qs] that [keys] flags, and every point of
    [q1 :: qs] is flagged or lies between two flagged points, the one
    before it ([P0] for [q1]) and the one after it, within the tolerance
    of the segment that joins them. *)
Lemma PerpendicularDistance_loop_dropped tol2 fuel :
  ∀ (qs : list (list Z)) (q1 P0 r0 result : list Z),
    whole DIM (q1 :: qs) → length qs < fuel → length P0 = DIM →
    ∃ keys p1 result',
      PolylineSimplification.PerpendicularDistance_loop DIM fuel tol2 (P0 ++ r0)
        (q1 ++ concat qs) (concat qs) result = Some (p1, result') ∧
      (if negb (at_end p1) then PolylineSimplification.CopyKey DIM p1 result'
       else result') = result ++ concat (flagged 0 keys (q1 :: qs)) ∧
      length keys = length (q1 :: qs) ∧
      ∀ t x, (q1 :: qs) !! t = Some x →
        keys !! t = Some true ∨
        ((true :: keys) !! t = Some true ∧ keys !! S t = Some true ∧
         ∃ a c, (P0 :: q1 :: qs) !! t = Some a ∧ qs !! t = Some c ∧
           (math.segment_distance2 DIM a c x < tol2)%Z).
Proof.
  induction fuel as [|fuel IH]; intros qs q1 P0 r0 result Hw Hfuel HP0; [lia|].
  apply (whole_cons DIM) in Hw as [H1 Hqs].
  cbn [PolylineSimplification.PerpendicularDistance_loop].
  destruct qs as [|q2 qs].
  - exists [true], (q1 ++ []), result. cbn [concat at_end].
    rewrite (point_not_nil DIM) by done. cbn [negb].
    unfold PolylineSimplification.CopyKey. rewrite (take_point DIM) by done.
    rewrite flagged_true. cbn [flagged concat].
    rewrite !app_nil_r. split_and!; [done|done|done|].
    intros [|t] x Hx; [|done]. by left.
  - pose proof Hqs as Hqs'.
    apply (whole_cons DIM) in Hqs as [H2 Hqs].
    cbn [concat]. rewrite (point_not_nil DIM) by done.
    unfold PolylineSimplification.CopyKey, advance.
    rewrite (take_point DIM), (drop_point DIM) by done.
    rewrite segment_distance2_points by done.
    destruct (Z.ltb_spec (math.segment_distance2 DIM P0 q2 q1) tol2) as [Hdrop|Hkeep].
    + rewrite drop_two_points by done.
      destruct qs as [|q3 qs].
      * exists [false; true], [], (result ++ q2). cbn [concat at_end negb].
        rewrite flagged_false, flagged_true. cbn [flagged concat].
        rewrite app_nil_r. split_and!; [done|done|done|].
        intros [|[|t]] x Hx; cbn in Hx; simplify_eq.
        -- right. split_and!; [done|done|]. by exists P0, q2.
        -- by left.
      * pose proof Hqs as Hqs3. apply (whole_cons DIM) in Hqs as [H3 Hqs].
        cbn [concat]. rewrite (point_not_nil DIM) by done.
        rewrite drop_two_points by done.
        destruct (IH qs q3 q2 (q3 ++ concat qs) (result ++ q2) Hqs3)
          as (keys & p1 & result' & Hloop & Hout & Hlen & Hkeys);
          [simpl in Hfuel; lia|done|].
        exists (false :: true :: keys), p1, result'. split_and!.
        -- done.
        -- unfold PolylineSimplification.CopyKey in Hout.
           rewrite Hout, flagged_false, flagged_true. cbn [concat].
           by rewrite <- app_assoc.
        -- simpl in *. lia.
        -- intros [|[|t]] x Hx.
           ++ cbn in Hx. simplify_eq. right. split_and!; [done|done|].
              by exists P0, q2.
           ++ by left.
           ++ cbn [lookup list_lookup] in Hx.
              destruct (Hkeys t x Hx) as [Hin|(Hb & Ha & a & c & Hal & Hcl & Hd)].
              ** by left.
              ** right. split_and!; [done|done|]. by exists a, c.
    + rewrite (take_point DIM) by done.
      destruct (IH qs q2 q1 (q2 ++ concat qs) (result ++ q1) Hqs')
        as (keys & p1 & result' & Hloop & Hout & Hlen & Hkeys);
        [simpl in Hfuel; lia|done|].
      exists (true :: keys), p1, result'. split_and!.
      * done.
      * unfold PolylineSimplification.CopyKey in Hout.
        rewrite Hout, flagged_true. cbn [concat]. by rewrite <- app_assoc.
      * simpl in *. lia.
      * intros [|t] x Hx.
        -- by left.
        -- cbn [lookup list_lookup] in Hx.
           destruct (Hkeys t x Hx) as [Hin|(Hb & Ha & a & c & Hal & Hcl & Hd)].
           ++ by left.
           ++ right. split_and!; [done|done|]. by exists a, c.
Qed.

(** X15. The guarantee of a pass of [PerpendicularDistance] on an input it
    accepts, the square of the tolerance not being zero in [value_type].
    The pass writes the points that [keys] flags, the first point among
    them, and every other point is flagged or lies between two flagged
    points, the one before it and the one after it in the input, at a
    squared distance below the squared tolerance from the segment that
    joins them, both as the routine computes them. *)
Theorem PerpendicularDistance_dropped_points (ps : list (list Z)) (tol : Z) :
  whole DIM ps → 3 ≤ length ps → narrow (tol * tol) ≠ 0%Z →
  ∃ keys,
    length keys = length ps ∧
    PolylineSimplification.PerpendicularDistance DIM (concat ps) tol =
      Some (PolylineSimplification.end_of (concat (flagged 0 keys ps))) ∧
    keys !! 0 = Some true ∧
    ∀ j p, ps !! S j = Some p →
      keys !! S j = Some true ∨
      (keys !! j = Some true ∧ keys !! S (S j) = Some true ∧
       ∃ a c, ps !! j = Some a ∧ ps !! S (S j) = Some c ∧
         (math.segment_distance2 DIM a c p < narrow (tol * tol))%Z).
Proof.
  intros Hps Hlen Htol%Z.eqb_neq.
  destruct (whole_coordCount DIM DIM_pos _ Hps) as [Hmod Hcount].
  unfold PolylineSimplification.PerpendicularDistance.
  rewrite Hmod, Hcount, Htol.
  replace (length ps <? 3) with false by (symmetry; apply Nat.ltb_ge; lia).
  cbn [Nat.eqb negb orb].
  destruct ps as [|p0 [|q1 qs]]; simpl in Hlen; try lia.
  apply (whole_cons DIM) in Hps as [H0 Hps].
  pose proof Hps as Hps'. apply (whole_cons DIM) in Hps as [H1 Hqs].
  cbn [concat]. unfold advance, PolylineSimplification.CopyKey.
  rewrite !(drop_point DIM), (take_point DIM) by done. cbn [app].
  destruct (PerpendicularDistance_loop_dropped (narrow (tol * tol))
              (length (p0 :: q1 :: qs))
              qs q1 p0 (q1 ++ concat qs) p0 Hps')
    as (keys & p1 & result' & Hloop & Hout & Hlk & Hkeys); [simpl; lia|done|].
  rewrite Hloop. cbn [mbind option_bind].
  exists (true :: keys). split_and!.
  - simpl in *. lia.
  - unfold PolylineSimplification.CopyKey in Hout. rewrite flagged_true.
    destruct (negb (at_end p1)); rewrite Hout; done.
  - done.
  - intros j p Hp. cbn [lookup list_lookup] in Hp.
    destruct (Hkeys j p Hp) as [Hin|(Hb & Ha & a & c & Hal & Hcl & Hd)].
    + by left.
    + right. split_and!; [done|done|]. by exists a, c.
Qed.
End dropped.

(** * Further properties of the repeated routine *)

Section repeated.
Context {VT : ValueType} {FM : FloatModel}.
Variable DIM : nat.



End repeated.

(** * Further properties of ReumannWitkam and Opheim *)

Section strip.
Context {VT : ValueType} {FM : FloatModel}.
Variable DIM : nat.
Hypothesis DIM_pos : DIM ≠ 0.

Lemma line_distance2_coords (l1 l2 p : list Z) :
  math.line_distance2 DIM l1 l2 p =
  math.line_distance2 DIM (math.coords_of DIM l1) (math.coords_of DIM l2)
    (math.coords_of DIM p).
Proof.
  unfold math.line_distance2.
  rewrite (make_vector_coords DIM l1 l2), (make_vector_coords DIM l1 p).
  rewrite (interpolate_coords DIM l1 l2).
  rewrite (point_distance2_coords DIM p (math.interpolate _ _ _ _)).
  rewrite (point_distance2_coords DIM (math.coords_of DIM p) (math.interpolate _ _ _ _)).
  by rewrite !coords_of_idemp.
Qed.

Lemma line_distance2_points (l1 r1 l2 r2 p r : list Z) :
  length l1 = DIM → length l2 = DIM → length p = DIM →
  math.line_distance2 DIM (l1 ++ r1) (l2 ++ r2) (p ++ r) =
  math.line_distance2 DIM l1 l2 p.
Proof.
  intros H1 H2 Hp.
  rewrite (line_distance2_coords (l1 ++ r1)), (line_distance2_coords l1).
  by rewrite !coords_of_point, !coords_of_whole.
Qed.

(** The loop of [ReumannWitkam], entered with the strip along the line
    from [P0] through [P1].  It copies the points that [keys] flags, and
    every point it looks at is inside the strip it is tested against, the
    strip of the loop's start or the strip of a flagged point [k] and the
    point [k'] that follows [k], or it is such a point [k']. *)
Lemma ReumannWitkam_loop_strip tol2 iters :
  ∀ (qs : list (list Z)) (q P0 r0 P1 r1 pi result : list Z),
    whole DIM (q :: qs) → iters ≤ length qs →
    length P0 = DIM → length P1 = DIM →
    ∃ keys,
      PolylineSimplification.ReumannWitkam_loop DIM iters tol2 (P0 ++ r0)
        (P1 ++ r1) pi (q ++ concat qs) result =
        (concat (drop iters (q :: qs)),
         result ++ concat (flagged 0 keys (take iters (q :: qs)))) ∧
      length keys = iters ∧
      ∀ t x, t < iters → qs !! t = Some x →
        (math.line_distance2 DIM P0 P1 x < tol2)%Z ∨
        ∃ s k k', s ≤ t ∧ (q :: qs) !! s = Some k ∧ qs !! s = Some k' ∧
          keys !! s = Some true ∧
          (s = t ∨ (math.line_distance2 DIM k k' x < tol2)%Z).
Proof.
  induction iters as [|iters IH]; intros qs q P0 r0 P1 r1 pi result Hw Hlen H0 H1.
  - exists []. cbn. rewrite app_nil_r. split_and!; [done|done|]. intros t x Ht. lia.
  - destruct qs as [|x qs]; simpl in Hlen; [lia|].
    apply (whole_cons DIM) in Hw as [Hq Hw].
    pose proof Hw as Hw'. apply (whole_cons DIM) in Hw' as [Hx _].
    cbn [PolylineSimplification.ReumannWitkam_loop concat].
    unfold advance, PolylineSimplification.CopyKey.
    rewrite (drop_point DIM), (take_point DIM) by done.
    rewrite line_distance2_points by done.
    change (take (S iters) (q :: x :: qs)) with (q :: take iters (x :: qs)).
    destruct (Z.ltb_spec (math.line_distance2 DIM P0 P1 x) tol2) as [Hpass|Hfail].
    + destruct (IH qs x P0 r0 P1 r1 (q ++ x ++ concat qs) result Hw)
        as (keys & -> & Hlk & Hstrip); [lia|done|done|].
      exists (false :: keys). rewrite flagged_false.
      split_and!; [done|simpl; lia|].
      intros [|t] y Ht Hy.
      * cbn in Hy. simplify_eq. by left.
      * cbn [lookup list_lookup] in Hy. change (list_lookup t qs) with (qs !! t) in Hy.
        destruct (Hstrip t y ltac:(lia) Hy) as [Hl|(s & k & k' & Hs & Hk & Hk' & Hin & Hc)];
          [by left|].
        right. exists (S s), k, k'. split_and!; [lia|done|done|done|].
        destruct Hc as [->|Hc]; [by left|by right].
    + destruct (IH qs x q (x ++ concat qs) x (concat qs)
                  (q ++ x ++ concat qs) (result ++ q) Hw)
        as (keys & -> & Hlk & Hstrip); [lia|done|done|].
      exists (true :: keys). rewrite flagged_true. split_and!.
      { cbn [concat]. by rewrite <- app_assoc. }
      { simpl; lia. }
      intros [|t] y Ht Hy.
      * cbn in Hy. simplify_eq. right. exists 0, q, y.
        split_and!; [done|done|done|done|by left].
      * cbn [lookup list_lookup] in Hy. change (list_lookup t qs) with (qs !! t) in Hy.
        right.
        destruct (Hstrip t y ltac:(lia) Hy) as [Hl|(s & k & k' & Hs & Hk & Hk' & Hin & Hc)].
        -- exists 0, q, x. split_and!; [lia|done|done|done|by right].
        -- exists (S s), k, k'. split_and!; [lia|done|done|done|].
           destruct Hc as [->|Hc]; [by left|by right].
Qed.

(** X18. The guarantee of [ReumannWitkam] on an input it accepts, the
    square of the tolerance not being zero in [value_type].  The routine
    writes the points that [keys] flags, the first and the last point among
    them.  Every point after the first either follows a flagged point [k],
    or lies inside the strip around the line through a flagged point [k],
    before it, and the point that follows [k]: its squared distance to that
    line, as [line_distance2] computes it, is below the squared
    tolerance. *)
Theorem ReumannWitkam_inside_strip (ps : list (list Z)) (tol : Z) :
  whole DIM ps → 3 ≤ length ps → narrow (tol * tol) ≠ 0%Z →
  ∃ keys,
    length keys = length ps ∧
    PolylineSimplification.ReumannWitkam DIM (concat ps) tol =
      PolylineSimplification.end_of (concat (flagged 0 keys ps)) ∧
    keys !! 0 = Some true ∧ keys !! (length ps - 1) = Some true ∧
    ∀ j p, ps !! j = Some p → 0 < j →
      ∃ i k k', i < j ∧ ps !! i = Some k ∧ ps !! S i = Some k' ∧
        keys !! i = Some true ∧
        (j = S i ∨ (math.line_distance2 DIM k k' p < narrow (tol * tol))%Z).
Proof.
  intros Hps Hlen Htol%Z.eqb_neq.
  destruct (whole_coordCount DIM DIM_pos _ Hps) as [Hmod Hcount].
  unfold PolylineSimplification.ReumannWitkam.
  rewrite Hmod, Hcount, Htol.
  replace (length ps <? 3) with false by (symmetry; apply Nat.ltb_ge; lia).
  cbn [Nat.eqb negb orb].
  destruct ps as [|p0 [|q qs]]; simpl in Hlen; try lia.
  apply (whole_cons DIM) in Hps as [H0 Hps].
  pose proof Hps as Hps'. apply (whole_cons DIM) in Hps' as [Hq _].
  cbn [concat length]. unfold advance, PolylineSimplification.CopyKey.
  rewrite !(drop_point DIM), (take_point DIM) by done. cbn [app].
  replace (S (S (length qs)) - 2) with (length qs) by lia.
  destruct (ReumannWitkam_loop_strip (narrow (tol * tol)) (length qs) qs q
              p0 (q ++ concat qs) q (concat qs) (q ++ concat qs) p0 Hps)
    as (keys & -> & Hlk & Hstrip); [lia|done|done|].
  destruct (drop_length_cons q qs) as [pl Hpl].
  rewrite Hpl. cbn [concat]. rewrite app_nil_r.
  assert (length pl = DIM) as Hl.
  { assert (whole DIM [pl]) as Hw by (rewrite <- Hpl; by apply Forall_drop).
    by apply (whole_cons DIM) in Hw as [? _]. }
  rewrite (take_ge pl) by lia.
  exists (true :: keys ++ [true]). split_and!.
  - simpl. rewrite length_app. simpl. lia.
  - rewrite flagged_true.
    rewrite (drop_all_but_last q pl qs Hpl) at 2.
    rewrite flagged_app by (rewrite length_take; simpl; lia).
    rewrite flagged_true. cbn [flagged concat].
    rewrite concat_app. cbn [concat]. by rewrite app_nil_r, app_assoc.
  - done.
  - replace (S (S (length qs)) - 1) with (S (length keys)) by lia.
    change ((true :: keys ++ [true]) !! S (length keys))
      with ((keys ++ [true]) !! length keys).
    by apply list_lookup_middle.
  - intros [|[|j]] p Hp Hj; [lia| |].
    + exists 0, p0, p. split_and!; [lia|done|done|done|by left].
    + cbn [lookup list_lookup] in Hp. change (list_lookup j qs) with (qs !! j) in Hp.
      assert (j < length qs) as Hjl by (by eapply lookup_lt_Some).
      destruct (Hstrip j p Hjl Hp) as [Hline|(s & k & k' & Hs & Hk & Hk' & Hin & Hc)].
      * exists 0, p0, q. split_and!; [lia|done|done|done|by right].
      * exists (S s), k, k'. split_and!; [lia|done|done| |].
        -- change ((true :: keys ++ [true]) !! S s) with ((keys ++ [true]) !! s).
           rewrite lookup_app_l; [done|]. by eapply lookup_lt_Some.
        -- destruct Hc as [->|Hc]; [by left|by right].
Qed.
End strip.

Section rays.
Context {VT : ValueType} {FM : FloatModel}.
Variable DIM : nat.
Hypothesis DIM_pos : DIM ≠ 0.

Lemma ray_distance2_coords (r1 r2 p : list Z) :
  math.ray_distance2 DIM r1 r2 p =
  math.ray_distance2 DIM (math.coords_of DIM r1) (math.coords_of DIM r2)
    (math.coords_of DIM p).
Proof.
  unfold math.ray_distance2.
  rewrite (make_vector_coords DIM r1 r2), (make_vector_coords DIM r1 p).
  rewrite (interpolate_coords DIM r1 r2).
  rewrite (point_distance2_coords DIM p r1).
  rewrite (point_distance2_coords DIM p (math.interpolate _ _ _ _)).
  rewrite (point_distance2_coords DIM (math.coords_of DIM p) (math.interpolate _ _ _ _)).
  rewrite (point_distance2_coords DIM (math.coords_of DIM p) (math.coords_of DIM r1)).
  by rewrite !coords_of_idemp.
Qed.

Lemma ray_distance2_points (a ra b rb p r : list Z) :
  length a = DIM → length b = DIM → length p = DIM →
  math.ray_distance2 DIM (a ++ ra) (b ++ rb) (p ++ r) =
  math.ray_distance2 DIM a b p.
Proof.
  intros H1 H2 Hp.
  rewrite (ray_distance2_coords (a ++ ra)), (ray_distance2_coords a).
  by rewrite !coords_of_point, !coords_of_whole.
Qed.

Variables minTol2 maxTol2 : Z.

Lemma Opheim_near_shift (q : list Z) (L : list (list Z)) lo lo' t k x :
  lo' ≤ S lo →
  Opheim_near DIM minTol2 maxTol2 L lo t k x →
  Opheim_near DIM minTol2 maxTol2 (q :: L) lo' (S t) k x.
Proof.
  intros Hlo [Hd|(Hd & i & r & Hi & Hr & Hray)]; [by left|].
  right. split; [done|]. exists (S i), r. split_and!; [lia|lia|done|done].
Qed.

(** The loop goes on with the same key. *)
Lemma Opheim_tested_continue (q K R R' : list Z) (b b' : bool)
    (L : list (list Z)) keys t y :
  (b' = true → b = true ∧ R' = R ∨ R' = q) →
  Opheim_tested DIM minTol2 maxTol2 L K R' b' keys t y →
  Opheim_tested DIM minTol2 maxTol2 (q :: L) K R b (false :: keys) (S t) y.
Proof.
  intros HR' [[Hn|(Hd & Hb & Hray)]|(i & k & Hi & Hk & Hin & Hc)].
  - left. left. eapply Opheim_near_shift; [|exact Hn]. lia.
  - destruct (HR' Hb) as [[-> ->]| ->].
    + left. by right.
    + left. left. right. split; [done|]. exists 0, q. split_and!; [lia|lia|done|done].
  - right. exists (S i), k. split_and!; [lia|done|done|].
    destruct Hc as [->|Hc]; [by left|right].
    eapply Opheim_near_shift; [|exact Hc]. lia.
Qed.

(** The loop goes on with the key [q] it has copied. *)
Lemma Opheim_tested_new_key (q K R R' : list Z) (b : bool)
    (L : list (list Z)) keys t y :
  Opheim_tested DIM minTol2 maxTol2 L q R' false keys t y →
  Opheim_tested DIM minTol2 maxTol2 (q :: L) K R b (true :: keys) (S t) y.
Proof.
  intros [[Hn|(_ & Hb & _)]|(i & k & Hi & Hk & Hin & Hc)]; [|done|].
  - right. exists 0, q. split_and!; [lia|done|done|].
    right. eapply Opheim_near_shift; [|exact Hn]. lia.
  - right. exists (S i), k. split_and!; [lia|done|done|].
    destruct Hc as [->|Hc]; [by left|right].
    eapply Opheim_near_shift; [|exact Hc]. lia.
Qed.

(** The loop of [Opheim], entered with the key [K] and, when a ray is
    defined, the ray through [R]: it copies the points that [keys]
    flags. *)
Lemma Opheim_loop_near iters :
  ∀ (qs : list (list Z)) (q K rk R rr : list Z) s,
    PolylineSimplification.op_pj s = q ++ concat qs →
    PolylineSimplification.op_r0 s = K ++ rk → length K = DIM →
    (PolylineSimplification.op_rayDefined s = true →
       PolylineSimplification.op_r1 s = R ++ rr) →
    length R = DIM →
    whole DIM (q :: qs) → iters ≤ length qs →
    ∃ keys,
      let s' := PolylineSimplification.Opheim_loop DIM iters minTol2 maxTol2 s in
      PolylineSimplification.op_pj s' = concat (drop iters (q :: qs)) ∧
      PolylineSimplification.op_result s' =
        PolylineSimplification.op_result s ++
        concat (flagged 0 keys (take iters (q :: qs))) ∧
      length keys = iters ∧
      ∀ t x, t < iters → qs !! t = Some x →
        Opheim_tested DIM minTol2 maxTol2 (q :: qs) K R
          (PolylineSimplification.op_rayDefined s) keys t x.
Proof.
  induction iters as [|iters IH]; intros qs q K rk R rr s Hpj Hr0 HK Hr1 HR Hw Hlen.
  - exists []. cbn. rewrite Hpj, !app_nil_r. split_and!; [done|done|done|].
    intros t x Ht. lia.
  - destruct qs as [|x qs]; simpl in Hlen; [lia|].
    apply (whole_cons DIM) in Hw as [Hq Hw].
    pose proof Hw as Hw'. apply (whole_cons DIM) in Hw' as [Hx _].
    cbn [PolylineSimplification.Opheim_loop].
    destruct s as [r0 r1 b pi pj result]. cbn in Hpj, Hr0, Hr1. subst r0 pj.
    unfold PolylineSimplification.Opheim_step.
    cbn [PolylineSimplification.op_pj PolylineSimplification.op_r0
         PolylineSimplification.op_r1 PolylineSimplification.op_rayDefined
         PolylineSimplification.op_result concat].
    unfold advance. rewrite (drop_point DIM) by done.
    rewrite !point_distance2_points by done.
    change (take (S iters) (q :: x :: qs)) with (q :: take iters (x :: qs)).
    (* the ways an iteration ends *)
    assert (∀ b' r1' R' rr',
      (b' = true → r1' = R' ++ rr') →
      (b' = true → b = true ∧ R' = R ∨ R' = q) → length R' = DIM →
      Opheim_tested DIM minTol2 maxTol2 (q :: x :: qs) K R b [] 0 x →
      ∃ keys,
        let s' := PolylineSimplification.Opheim_loop DIM iters minTol2 maxTol2
                    (PolylineSimplification.mkOpheim (K ++ rk) r1' b'
                       (q ++ x ++ concat qs) (x ++ concat qs) result) in
        PolylineSimplification.op_pj s' = concat (drop (S iters) (q :: x :: qs)) ∧
        PolylineSimplification.op_result s' =
          result ++ concat (flagged 0 keys (q :: take iters (x :: qs))) ∧
        length keys = S iters ∧
        ∀ t y, t < S iters → (x :: qs) !! t = Some y →
          Opheim_tested DIM minTol2 maxTol2 (q :: x :: qs) K R b keys t y)
      as Hcontinue.
    { intros b' r1' R' rr' Hr1' HR' HlR' Hx0.
      destruct (IH qs x K rk R' rr'
                  (PolylineSimplification.mkOpheim (K ++ rk) r1' b'
                     (q ++ x ++ concat qs) (x ++ concat qs) result))
        as (keys & Hj & Hres & Hlk & Hnear); [done|done|done|done|done|done|lia|].
      exists (false :: keys). cbn zeta in *. rewrite flagged_false.
      split_and!; [done|done|simpl; lia|].
      intros [|t] y Ht Hy.
      - cbn in Hy. simplify_eq.
        destruct Hx0 as [Hx0|(i & k & _ & _ & Hin & _)]; [by left|].
        by rewrite lookup_nil in Hin.
      - cbn [lookup list_lookup] in Hy. change (list_lookup t qs) with (qs !! t) in Hy.
        eapply Opheim_tested_continue; [exact HR'|].
        apply Hnear; [lia|done]. }
    assert (∀ r1',
      ∃ keys,
        let s' := PolylineSimplification.Opheim_loop DIM iters minTol2 maxTol2
                    (PolylineSimplification.mkOpheim (q ++ x ++ concat qs) r1'
                       false (q ++ x ++ concat qs) (x ++ concat qs)
                       (PolylineSimplification.CopyKey DIM (q ++ x ++ concat qs) result)) in
        PolylineSimplification.op_pj s' = concat (drop (S iters) (q :: x :: qs)) ∧
        PolylineSimplification.op_result s' =
          result ++ concat (flagged 0 keys (q :: take iters (x :: qs))) ∧
        length keys = S iters ∧
        ∀ t y, t < S iters → (x :: qs) !! t = Some y →
          Opheim_tested DIM minTol2 maxTol2 (q :: x :: qs) K R b keys t y)
      as Hkey.
    { intros r1'.
      destruct (IH qs x q (x ++ concat qs) q []
                  (PolylineSimplification.mkOpheim (q ++ x ++ concat qs) r1'
                     false (q ++ x ++ concat qs) (x ++ concat qs)
                     (PolylineSimplification.CopyKey DIM (q ++ x ++ concat qs) result)))
        as (keys & Hj & Hres & Hlk & Hnear); [done|done|done|done|done|done|lia|].
      exists (true :: keys). cbn zeta in *. rewrite flagged_true.
      split_and!; [done| |simpl; lia|].
      - rewrite Hres. unfold PolylineSimplification.CopyKey.
        rewrite (take_point DIM) by done.
        cbn [concat PolylineSimplification.op_result]. by rewrite <- app_assoc.
      - intros [|t] y Ht Hy.
        + cbn in Hy. simplify_eq. right. exists 0, q.
          split_and!; [done|done|done|by left].
        + cbn [lookup list_lookup] in Hy.
          change (list_lookup t qs) with (qs !! t) in Hy.
          eapply Opheim_tested_new_key. apply Hnear; [lia|done]. }
    destruct b; cbn [negb].
    + (* a ray is defined *)
      rewrite (Hr1 eq_refl), ray_distance2_points by done.
      destruct (Z.ltb_spec (math.point_distance2 DIM K x) maxTol2) as [Hmax|Hmax];
        [destruct (Z.ltb_spec (math.ray_distance2 DIM K R x) minTol2) as [Hray|Hray]|];
        cbn [andb].
      * apply (Hcontinue true (R ++ rr) R rr); [done|by left|done|]. left. by right.
      * apply Hkey.
      * apply Hkey.
    + (* no ray is defined *)
      destruct (Z.ltb_spec (math.point_distance2 DIM K x) minTol2) as [Hmin|Hmin].
      * apply (Hcontinue false r1 q []); [done|done|done|]. left. left. by left.
      * rewrite ray_distance2_points by done.
        destruct (Z.ltb_spec (math.point_distance2 DIM K x) maxTol2) as [Hmax|Hmax];
          [destruct (Z.ltb_spec (math.ray_distance2 DIM K q x) minTol2) as [Hray|Hray]|];
          cbn [andb].
        -- apply (Hcontinue true (q ++ x ++ concat qs) q (x ++ concat qs));
             [done|by right|done|].
           left. left. right. split; [done|].
           exists 0, q. split_and!; [lia|lia|done|done].
        -- apply Hkey.
        -- apply Hkey.
Qed.
End rays.

(** X19. The guarantee of [Opheim] on an input it accepts, the squares of
    the tolerances not being zero in [value_type].  The routine writes the
    points that [keys] flags, the first and the last point among them.
    Every point after the first follows a flagged point [k], or is near a
    flagged point [k] before it: within the minimum tolerance of [k], or
    within the maximum tolerance of [k] and within the minimum tolerance of
    the ray from [k] through a point between the two. *)
Theorem Opheim_near_a_key {VT : ValueType} {FM : FloatModel} (DIM : nat)
    (ps : list (list Z)) (minTol maxTol : Z) :
  DIM ≠ 0 → whole DIM ps → 2 ≤ length ps →
  narrow (minTol * minTol) ≠ 0%Z → narrow (maxTol * maxTol) ≠ 0%Z →
  ∃ keys,
    length keys = length ps ∧
    PolylineSimplification.Opheim DIM (concat ps) minTol maxTol =
      PolylineSimplification.end_of (concat (flagged 0 keys ps)) ∧
    keys !! 0 = Some true ∧ keys !! (length ps - 1) = Some true ∧
    ∀ j p, ps !! j = Some p → 0 < j →
      ∃ i k, i < j ∧ ps !! i = Some k ∧ keys !! i = Some true ∧
        (j = S i ∨
         Opheim_near DIM (narrow (minTol * minTol)) (narrow (maxTol * maxTol))
           ps (S i) j k p).
Proof.
  intros HD Hps Hlen Hmin%Z.eqb_neq Hmax%Z.eqb_neq.
  destruct (whole_coordCount DIM HD _ Hps) as [Hmod Hcount].
  unfold PolylineSimplification.Opheim.
  rewrite Hmod, Hcount, Hmin, Hmax.
  replace (length ps <? 2) with false by (symmetry; apply Nat.ltb_ge; lia).
  cbn [Nat.eqb negb orb].
  destruct ps as [|p0 [|q qs]]; simpl in Hlen; try lia.
  apply (whole_cons DIM) in Hps as [H0 Hps].
  cbn [length].
  replace (S (S (length qs)) - 2) with (length qs) by lia.
  destruct (Opheim_loop_near DIM HD (narrow (minTol * minTol))
              (narrow (maxTol * maxTol)) (length qs)
              qs q p0 (q ++ concat qs) p0 []
              (PolylineSimplification.Opheim_init DIM (concat (p0 :: q :: qs))))
    as (keys & Hj & Hr & Hlk & Hnear); [|done|done|done|done|done|lia|].
  { cbn. unfold advance. by rewrite (drop_point DIM). }
  cbn zeta in Hj, Hr. rewrite Hj, Hr.
  destruct (drop_length_cons q qs) as [pl Hpl].
  rewrite Hpl. cbn [concat PolylineSimplification.Opheim_init
                      PolylineSimplification.op_result].
  unfold PolylineSimplification.CopyKey.
  rewrite app_nil_r, (take_point DIM) by done. cbn [app].
  assert (length pl = DIM) as Hl.
  { assert (whole DIM [pl]) as Hw by (rewrite <- Hpl; by apply Forall_drop).
    by apply (whole_cons DIM) in Hw as [? _]. }
  rewrite (take_ge pl) by lia.
  exists (true :: keys ++ [true]). split_and!.
  - simpl. rewrite length_app. simpl. lia.
  - rewrite flagged_true.
    rewrite (drop_all_but_last q pl qs Hpl) at 2.
    rewrite flagged_app by (rewrite length_take; simpl; lia).
    rewrite flagged_true. cbn [flagged concat].
    rewrite concat_app. cbn [concat]. by rewrite app_nil_r, app_assoc.
  - done.
  - replace (S (S (length qs)) - 1) with (S (length keys)) by lia.
    change ((true :: keys ++ [true]) !! S (length keys))
      with ((keys ++ [true]) !! length keys).
    by apply list_lookup_middle.
  - intros [|[|j]] p Hp Hj0; [lia| |].
    + exists 0, p0. split_and!; [lia|done|done|by left].
    + cbn [lookup list_lookup] in Hp. change (list_lookup j qs) with (qs !! j) in Hp.
      assert (j < length qs) as Hjl by (by eapply lookup_lt_Some).
      destruct (Hnear j p Hjl Hp) as [[Hn|(_ & Hb & _)]|(i & k & Hi & Hk & Hin & Hc)];
        [|done|].
      * exists 0, p0. split_and!; [lia|done|done|]. right.
        eapply Opheim_near_shift; last exact Hn; (done || lia).
      * exists (S i), k. split_and!; [lia|done| |].
        -- change ((true :: keys ++ [true]) !! S i) with ((keys ++ [true]) !! i).
           rewrite lookup_app_l; [done|]. by eapply lookup_lt_Some.
        -- destruct Hc as [->|Hc]; [by left|right].
           eapply Opheim_near_shift; last exact Hc; (done || lia).
Qed.

(** * Further properties of FindKey *)

(** X20. [FindKey] never returns [last] as the index of the key.  It
    returns the index of an interior point when the sub polyline has an
    interior point whose squared distance is not negative in [value_type],
    and the default key, with index 0, when it has none: because there is
    no interior point, or because all the distances are negative.  The test
    [keyInfo.index != subPoly.last] of its callers holds for every sub
    polyline that ends after the first point. *)
Theorem FindKey_never_returns_last {VT : ValueType} {FM : FloatModel} (DIM : nat)
    (coords : list Z) (first last : nat) :
  DIM ≠ 0 → 0 < last →
  let keyInfo := PolylineSimplification.DPHelper.FindKey DIM coords first last in
  PolylineSimplification.DPHelper.index keyInfo ≠ last ∧
  ((∃ c, interior DIM first last c ∧
         (0 <= key_distance DIM coords first last c)%Z) →
     first + DIM ≤ PolylineSimplification.DPHelper.index keyInfo < last) ∧
  ((∀ c, interior DIM first last c →
         (key_distance DIM coords first last c < 0)%Z) →
     keyInfo = PolylineSimplification.DPHelper.mkKeyInfo 0 0).
Proof.
  intros HD Hlast. cbn zeta. split_and!.
  - destruct (FindKey_inside DIM HD coords first last) as [->|[_ Hlt]]; cbn; lia.
  - intros (c & (j0 & -> & Hc) & Hnn).
    unfold PolylineSimplification.DPHelper.FindKey.
    destruct (FindKey_loop_spec DIM HD coords first last (last - first) (first + DIM)
                (PolylineSimplification.DPHelper.mkKeyInfo 0 0) ltac:(lia))
      as [_ [[_ Hall]|(j & Hi & Hil & _)]]; [|lia].
    specialize (Hall j0 Hc).
    cbn [PolylineSimplification.DPHelper.dist2] in Hall. lia.
  - by apply FindKey_negative_distances.
Qed.

(** * Further properties of the Douglas-Peucker routines *)

Section tolerance.
Context {VT : ValueType} {FM : FloatModel}.
Variable DIM : nat.
Hypothesis DIM_pos : DIM ≠ 0.

Import PolylineSimplification.DPHelper.

Lemma increasing_lt x xs z : increasing x xs → z ∈ xs → x < z.
Proof.
  revert x. induction xs as [|y ys IH]; intros x Hinc Hz.
  { by apply elem_of_nil in Hz. }
  destruct Hinc as [Hxy Hinc].
  apply elem_of_cons in Hz as [->|Hz]; [done|].
  specialize (IH y Hinc Hz). lia.
Qed.

(** When a sub polyline is not split, its interior points are within the
    tolerance of the segment that joins its ends. *)
Lemma FindKey_not_split coords tol2 x y :
  (0 <= tol2)%Z → x < y →
  negb (index (FindKey DIM coords (x * DIM) (y * DIM)) =? y * DIM)
  && (tol2 <? dist2 (FindKey DIM coords (x * DIM) (y * DIM)))%Z = false →
  ∀ i, x < i < y →
    (key_distance DIM coords (x * DIM) (y * DIM) (i * DIM) <= tol2)%Z.
Proof.
  intros Htol Hxy Hsplit i Hi. unfold FindKey in Hsplit.
  destruct (FindKey_loop_spec DIM DIM_pos coords (x * DIM) (y * DIM)
              (y * DIM - x * DIM) (x * DIM + DIM) (mkKeyInfo 0 0) ltac:(lia))
    as [_ [[_ Hall]|(j & Hidx & Hlast & _ & Hmax & _)]].
  - specialize (Hall (i - x - 1)).
    replace (x * DIM + DIM + (i - x - 1) * DIM) with (i * DIM) in Hall by nia.
    cbn [dist2] in Hall. specialize (Hall ltac:(nia)). lia.
  - apply andb_false_iff in Hsplit as [Hsplit|Hsplit].
    { apply negb_false_iff, Nat.eqb_eq in Hsplit. lia. }
    apply Z.ltb_ge in Hsplit.
    specialize (Hmax (i - x - 1)).
    replace (x * DIM + DIM + (i - x - 1) * DIM) with (i * DIM) in Hmax by nia.
    specialize (Hmax ltac:(nia)). lia.
Qed.

(** When a sub polyline is split, it is split at a point strictly inside
    it. *)
Lemma FindKey_split coords tol2 x y :
  (0 <= tol2)%Z →
  negb (index (FindKey DIM coords (x * DIM) (y * DIM)) =? y * DIM)
  && (tol2 <? dist2 (FindKey DIM coords (x * DIM) (y * DIM)))%Z = true →
  ∃ k, index (FindKey DIM coords (x * DIM) (y * DIM)) = k * DIM ∧ x < k < y.
Proof.
  intros Htol [_ Hd%Z.ltb_lt]%andb_true_iff. unfold FindKey in *.
  destruct (FindKey_loop_spec DIM DIM_pos coords (x * DIM) (y * DIM)
              (y * DIM - x * DIM) (x * DIM + DIM) (mkKeyInfo 0 0) ltac:(lia))
    as [_ [[Hr _]|(j & Hidx & Hlast & _)]].
  - rewrite Hr in Hd. cbn in Hd. lia.
  - exists (x + 1 + j). split; [lia|]. nia.
Qed.

Lemma settled_insert coords tol2 keys x k :
  x < k → settled DIM coords tol2 keys x →
  settled DIM coords tol2 (<[k := true]> keys) x.
Proof.
  intros Hk Hs i Hi Hf. rewrite list_lookup_insert_ne in Hf by lia.
  destruct (Hs i Hi Hf) as (a & b & Hab & Hb & Ha1 & Hb1 & Hbetween & Hd).
  exists a, b. split_and!; try done; try lia.
  all: intros; rewrite list_lookup_insert_ne by lia; auto.
Qed.

(** The loop of [Approximate], entered with adjacent sub polylines from
    [x] to [m] and the polyline done up to [x], ends with the polyline done
    up to [m]. *)
Lemma Approximate_loop_settles coords tol2 m fuel :
  (0 <= tol2)%Z →
  ∀ xs x keys,
    stack_weight (adjacent DIM x xs) < fuel →
    increasing x xs → last (x :: xs) = Some m → m < length keys →
    keys !! x = Some true → (∀ y, y ∈ xs → keys !! y = Some true) →
    (∀ j, x < j < m → j ∉ xs → keys !! j = Some false) →
    settled DIM coords tol2 keys x →
    ∃ keys',
      Approximate_loop DIM fuel coords tol2 (adjacent DIM x xs) keys = Some keys' ∧
      length keys' = length keys ∧
      (∀ i, keys !! i = Some true → keys' !! i = Some true) ∧
      settled DIM coords tol2 keys' m.
Proof.
  intros Htol. induction fuel as [|fuel IH];
    intros xs x keys Hw Hinc Hlast Hm Hx Hxs Hrest Hset; [lia|].
  cbn [Approximate_loop]. destruct xs as [|y ys]; cbn [adjacent].
  - exists keys. simpl in Hlast. by simplify_eq.
  - cbn [sp_first sp_last]. cbn [adjacent] in Hw. rewrite stack_weight_cons in Hw.
    destruct Hinc as [Hxy Hinc].
    assert (y ≤ m) as Hym.
    { rewrite last_cons in Hlast.
      destruct (last (y :: ys)) as [m'|] eqn:Hl; [|by apply last_None in Hl].
      simplify_eq. clear -Hl Hinc. revert y Hl Hinc.
      induction ys as [|z zs IH]; intros y Hl Hinc.
      - simpl in Hl. by simplify_eq.
      - destruct Hinc as [Hyz Hinc]. rewrite last_cons in Hl.
        destruct (last (z :: zs)) as [m'|] eqn:Hl'; [|by apply last_None in Hl'].
        simplify_eq. specialize (IH z Hl' Hinc). lia. }
    assert (last (y :: ys) = Some m) as Hlast'.
    { rewrite last_cons in Hlast.
      by destruct (last (y :: ys)) eqn:Hl; [|by apply last_None in Hl]. }
    destruct (negb _ && _) eqn:Hsplit.
    + destruct (FindKey_split coords tol2 x y Htol Hsplit) as (k & Hk & Hxk).
      rewrite Hk, Nat.div_mul by done.
      destruct (IH (k :: y :: ys) x (<[k := true]> keys))
        as (keys' & Hloop & Hlen & Hkeys & Hset').
      * cbn [adjacent]. rewrite !stack_weight_cons. nia.
      * cbn [increasing]. split_and!; try lia; done.
      * by rewrite (last_cons x), (last_cons k), Hlast'.
      * by rewrite length_insert.
      * by apply insert_true_preserved.
      * intros z [->|Hz]%elem_of_cons.
        -- apply list_lookup_insert_eq. lia.
        -- by apply insert_true_preserved, Hxs.
      * intros j Hj Hnot. rewrite list_lookup_insert_ne.
        -- apply Hrest; [done|]. intros Hin. apply Hnot. by right.
        -- intros ->. apply Hnot. left.
      * apply settled_insert; [lia|done].
      * exists keys'. split_and!; [done| | |done].
        -- by rewrite Hlen, length_insert.
        -- intros i Hi. by apply Hkeys, insert_true_preserved.
    + destruct (IH ys y keys) as (keys' & Hloop & Hlen & Hkeys & Hset').
      * lia.
      * done.
      * done.
      * done.
      * apply Hxs. left.
      * intros z Hz. apply Hxs. by right.
      * intros j Hj Hnot. apply Hrest; [lia|].
        intros [->|Hin]%elem_of_cons; [lia|done].
      * intros i Hi Hf.
        destruct (decide (i < x)) as [Hix|Hix].
        { destruct (Hset i Hix Hf) as (a & b & Hab & Hb & Ha1 & Hb1 & Hbt & Hd).
          exists a, b. split_and!; try done; lia. }
        assert (i ≠ x) by (intros ->; congruence).
        exists x, y. split_and!; [lia|lia|done|done|by apply Hxs; left| |].
        -- intros j Hj. apply Hrest; [lia|].
           intros [->|Hin]%elem_of_cons; [lia|].
           pose proof (increasing_lt y ys j Hinc Hin). lia.
        -- apply (FindKey_not_split coords tol2 x y); [done|done|done|lia].
      * by exists keys'.
Qed.
End tolerance.

(** [Approximate] ends with the whole polyline done, when the square of
    the tolerance is not negative in [value_type]. *)
Lemma Approximate_settles {VT : ValueType} {FM : FloatModel} (DIM : nat)
    (coords : list Z) (n : nat) (tol : Z) :
  DIM ≠ 0 → 2 ≤ n → (0 <= narrow (tol * tol))%Z →
  ∃ keys,
    PolylineSimplification.DPHelper.Approximate DIM coords (n * DIM) tol = Some keys ∧
    length keys = n ∧ keys !! 0 = Some true ∧ keys !! (n - 1) = Some true ∧
    ∀ i, keys !! i = Some false →
      ∃ a b, a < i < b ∧ keys !! a = Some true ∧ keys !! b = Some true ∧
        (∀ j, a < j < b → keys !! j = Some false) ∧
        (key_distance DIM coords (a * DIM) (b * DIM) (i * DIM)
         <= narrow (tol * tol))%Z.
Proof.
  intros HD Hn Htol. unfold PolylineSimplification.DPHelper.Approximate.
  rewrite Nat.div_mul by done.
  replace (n * DIM - DIM) with ((n - 1) * DIM) by nia.
  set (keys := <[n - 1 := true]> (<[0 := true]> (replicate n false))).
  assert (length keys = n) as Hlen.
  { unfold keys. by rewrite !length_insert, length_replicate. }
  assert (keys !! 0 = Some true) as H0.
  { unfold keys. apply insert_true_preserved, list_lookup_insert_eq.
    rewrite length_replicate. lia. }
  assert (keys !! (n - 1) = Some true) as Hl.
  { unfold keys. apply list_lookup_insert_eq.
    rewrite length_insert, length_replicate. lia. }
  destruct (Approximate_loop_settles DIM HD coords (narrow (tol * tol)) (n - 1)
              (2 * (n * DIM) + 1) Htol [n - 1] 0 keys)
    as (keys' & Hloop & Hlen' & Hkeys & Hset).
  - cbn [adjacent]. rewrite stack_weight_cons. cbn. nia.
  - simpl. split; [lia|done].
  - done.
  - lia.
  - done.
  - by intros y ->%list_elem_of_singleton.
  - intros j Hj Hnot. unfold keys.
    rewrite !list_lookup_insert_ne by lia.
    apply lookup_replicate. split; [done|lia].
  - intros i Hi. lia.
  - change (adjacent DIM 0 [n - 1])
      with [PolylineSimplification.DPHelper.mkSubPoly (0 * DIM) ((n - 1) * DIM)]
      in Hloop.
    rewrite Nat.mul_0_l in Hloop.
    exists keys'. split_and!; [done|lia|by apply Hkeys|by apply Hkeys|].
    intros i Hf.
    assert (i < length keys') as Hi by (by eapply lookup_lt_Some).
    assert (i ≠ n - 1).
    { intros ->. rewrite (Hkeys _ Hl) in Hf. done. }
    destruct (Hset i ltac:(lia) Hf) as (a & b & Hab & _ & Ha & Hb & Hbt & Hd).
    by exists a, b.
Qed.

(** X21. The guarantee of the Douglas-Peucker approximation.  When the
    square of the tolerance is not negative in [value_type], [Approximate]
    ends, flags the first and the last point as keys, and every point it
    does not flag lies between two keys with no key between them, at a
    squared distance of at most the squared tolerance from the segment that
    joins these two keys, both as the routine computes them. *)
Theorem Approximate_within_tolerance {VT : ValueType} {FM : FloatModel}
    (DIM : nat) (coords : list Z) (n : nat) (tol : Z) :
  DIM ≠ 0 → 2 ≤ n → (0 <= narrow (tol * tol))%Z →
  ∃ keys,
    PolylineSimplification.DPHelper.Approximate DIM coords (n * DIM) tol = Some keys ∧
    length keys = n ∧ keys !! 0 = Some true ∧ keys !! (n - 1) = Some true ∧
    ∀ i, keys !! i = Some false →
      ∃ a b, a < i < b ∧ keys !! a = Some true ∧ keys !! b = Some true ∧
        (∀ j, a < j < b → keys !! j = Some false) ∧
        (key_distance DIM coords (a * DIM) (b * DIM) (i * DIM)
         <= narrow (tol * tol))%Z.
Proof. apply Approximate_settles. Qed.

Section flags.
Context {VT : ValueType} {FM : FloatModel}.
Variable DIM : nat.
Hypothesis DIM_pos : DIM ≠ 0.

Import PolylineSimplification.DPHelper.









Variable choose : list Z → nat.




End flags.




(** * Further properties of the positional errors *)

Section errors.
Context {VT : ValueType} {FM : FloatModel}.
Variable DIM : nat.
Hypothesis DIM_pos : DIM ≠ 0.

(** A scan writes one error for every point it passes. *)
Lemma errors_to_drop prev s original :
  (errors_to DIM prev s original).2 =
  drop (length (errors_to DIM prev s original).1) original.
Proof.
  induction original as [|o rest IH]; [done|]. cbn [errors_to].
  destruct (math.equal DIM o s); [done|].
  destruct (errors_to DIM prev s rest) as [errors rest']. by cbn in *.
Qed.

Lemma errors_to_length prev s original :
  length (errors_to DIM prev s original).1 ≤ length original.
Proof.
  induction original as [|o rest IH]; [done|]. cbn [errors_to].
  destruct (math.equal DIM o s); [simpl; lia|].
  destruct (errors_to DIM prev s rest) as [errors rest']. cbn in *. lia.
Qed.

Lemma errors_all_drop simplified :
  ∀ prev original,
    (errors_all DIM prev simplified original).2 =
      drop (length (errors_all DIM prev simplified original).1) original ∧
    length (errors_all DIM prev simplified original).1 ≤ length original.
Proof.
  induction simplified as [|s rest IH]; intros prev original; [split; [done|simpl; lia]|].
  cbn [errors_all].
  pose proof (errors_to_drop prev s original) as Hd.
  pose proof (errors_to_length prev s original) as Hl.
  destruct (errors_to DIM prev s original) as [errors original'].
  destruct (IH s original') as [Hd' Hl'].
  destruct (errors_all DIM s rest original') as [errors' rest'].
  cbn [fst snd] in *. subst original'.
  rewrite length_drop in Hl'. rewrite length_app. split; [|lia].
  rewrite Hd', drop_drop. done.
Qed.

End errors.

(** X25. [ComputePositionalErrors2] returns the end of what it wrote and
    never writes more values than the original has points.  When it
    reports the input invalid it has written nothing or a value for every
    point of the original. *)
Theorem ComputePositionalErrors2_fits {VT : ValueType} {FM : FloatModel} (DIM : nat)
    (original simplified : list Z) :
  DIM ≠ 0 →
  ∃ out valid,
    PolylineSimplification.ComputePositionalErrors2 DIM original simplified =
      Some (out, valid) ∧
    returned out = length (written out) ∧
    length (written out) ≤ length original / DIM ∧
    (valid = false →
       written out = [] ∨ length (written out) = length original / DIM).
Proof.
  intros HD.
  destruct (negb (length original mod DIM =? 0)
            || (PolylineSimplification.pointCount_of DIM (length original) <? 2)
            || negb (length simplified mod DIM =? 0)
            || (PolylineSimplification.pointCount_of DIM (length simplified) <? 2)
            || (PolylineSimplification.pointCount_of DIM (length original) <?
                PolylineSimplification.pointCount_of DIM (length simplified))
            || negb (math.equal DIM original simplified)) eqn:Hv.
  - exists (mkOutput [] 0), false. split.
    { unfold PolylineSimplification.ComputePositionalErrors2. by rewrite Hv. }
    cbn. split_and!; [done|lia|by left].
  - repeat (apply orb_false_iff in Hv as [Hv ?]).
    destruct (validated DIM original 2) as (_ & O & -> & HO & HlO); [done..|lia|].
    destruct (validated DIM simplified 2) as (_ & S & -> & HS & HlS); [done..|lia|].
    destruct O as [|o0 O]; [simpl in HlO; lia|].
    destruct S as [|s0 S]; [simpl in HlS; lia|].
    pose proof HO as HO'. apply (whole_cons DIM) in HO' as [Ho0 HOr].
    pose proof HS as HS'. apply (whole_cons DIM) in HS' as [Hs0 HSr].
    assert (s0 = o0) as Heq.
    { match goal with H : negb (math.equal _ _ _) = false |- _ =>
        apply negb_false_iff in H; cbn [concat] in H;
        rewrite equal_points in H by done; apply equal_true in H; done
      end. }
    assert (length (s0 :: S) ≤ length (o0 :: O)) as Hle.
    { match goal with H : (_ <? _) = false |- _ =>
        apply Nat.ltb_ge in H;
        rewrite !pointCount_of_div, !(length_concat_whole DIM), !Nat.div_mul in H
          by done; done
      end. }
    pose proof (ComputePositionalErrors2_points DIM HD s0 S o0 O HS HO
                  ltac:(simpl in HlS; lia) ltac:(simpl in Hle; lia) Heq) as Hrun.
    destruct (errors_all_drop DIM HD S s0 (o0 :: O)) as [Hdrop Hlen].
    destruct (errors_all DIM s0 S (o0 :: O)) as [errors rest].
    cbn [fst snd] in *.
    eexists _, _. split; [exact Hrun|].
    cbn [PolylineSimplification.end_of returned written].
    rewrite (length_concat_whole DIM), Nat.div_mul by done.
    split; [done|].
    destruct (bool_decide_reflect (rest = [])) as [Hr|Hr]; cbn [negb].
    + assert (length errors = length (o0 :: O)) as Hall.
      { subst rest. symmetry in Hr. apply (f_equal length) in Hr.
        rewrite length_drop in Hr. simpl in *. lia. }
      split_and!; [lia|by right].
    + assert (length errors < length (o0 :: O)) as Hlt.
      { destruct (decide (length errors < length (o0 :: O))) as [|Hge]; [done|].
        destruct Hr. subst rest. apply drop_ge. lia. }
      rewrite length_app. cbn [length] in *.
      split_and!; [lia|done].
Qed.

Section distinct_points.
Context {VT : ValueType} {FM : FloatModel}.
Variable DIM : nat.
Hypothesis DIM_pos : DIM ≠ 0.

Lemma sublist_after_prefix (s : list Z) (S skipped L : list (list Z)) :
  s ∉ skipped → s :: S `sublist_of` skipped ++ L → s :: S `sublist_of` L.
Proof.
  induction skipped as [|d skipped IH]; intros Hs Hsub; [done|].
  apply not_elem_of_cons in Hs as [Hsd Hs].
  cbn [app] in Hsub. apply sublist_cons_r in Hsub as [Hsub|(l' & Heq & _)].
  - by apply IH.
  - by simplify_eq.
Qed.

Lemma sublist_elem_of (s : list Z) (S O : list (list Z)) :
  S `sublist_of` O → s ∈ S → s ∈ O.
Proof. intros Hsub Hs. eapply elem_of_submseteq; [done|by apply sublist_submseteq]. Qed.

(** The scan of an original without repeated points for the points of one
    of its subsequences: an error is written for every point in front of
    the last point sought, and it is zero for the points that were
    sought. *)
Lemma errors_all_distinct (S : list (list Z)) :
  ∀ prev (O : list (list Z)),
    whole DIM O → NoDup O → S `sublist_of` O →
    (errors_all DIM prev S O).2 = drop (length (errors_all DIM prev S O).1) O ∧
    (S ≠ [] → head (errors_all DIM prev S O).2 = last S) ∧
    ∀ i o, O !! i = Some o → i < length (errors_all DIM prev S O).1 →
      o ∈ S ∨ (i = 0 ∧ o = prev) → (errors_all DIM prev S O).1 !! i = Some 0%Z.
Proof.
  induction S as [|s S' IH]; intros prev O HO Hnd Hsub.
  { cbn. split_and!; [done|done|]. intros i o _ Hi. lia. }
  cbn [errors_all].
  assert (s ∈ O) as Hin by (eapply sublist_elem_of; [done|left]).
  apply list_elem_of_split_l in Hin as (skipped & rest & -> & Hfirst).
  assert (length s = DIM) as Hs.
  { eapply Forall_forall in HO; [done|]. apply elem_of_app. right. left. }
  assert (∀ d, d ∈ skipped → math.equal DIM d s = false) as Hne.
  { intros d Hd. destruct (math.equal DIM d s) eqn:Heq; [|done].
    apply equal_true in Heq; [by subst d| |done].
    eapply Forall_forall in HO; [done|]. apply elem_of_app. by left. }
  rewrite errors_to_skip by done.
  apply NoDup_app in Hnd as (Hnd1 & Hdisj & Hnd2).
  apply (whole_app DIM) in HO as [HO1 HO2].
  apply sublist_after_prefix in Hsub; [|done].
  assert (S' `sublist_of` rest) as Hsub'.
  { apply sublist_cons_r in Hsub as [Hsub|(l' & Heq & Hsub)].
    - apply NoDup_cons in Hnd2 as [Hnot _]. destruct Hnot.
      eapply sublist_elem_of; [done|left].
    - by simplify_eq. }
  specialize (IH s (s :: rest) HO2 Hnd2 (sublist_cons _ _ _ Hsub')).
  assert (head (errors_all DIM s S' (s :: rest)).2 = last (s :: S')) as Hhead'.
  { destruct S' as [|s' S'']; [done|].
    by destruct IH as (_ & -> & _). }
  destruct (errors_all DIM s S' (s :: rest)) as [E' R].
  cbn [fst snd] in *. destruct IH as (HR & _ & Hzero).
  rewrite length_app, length_map. split_and!.
  - rewrite HR. by rewrite <- drop_drop, drop_app_length.
  - done.
  - intros i o Ho Hi Hcase.
    destruct (decide (i < length skipped)) as [Hlt|Hge].
    + rewrite lookup_app_l in Ho by done.
      rewrite lookup_app_l by (by rewrite length_map).
      change (map ?f ?l) with (f <$> l).
      rewrite list_lookup_fmap, Ho. cbn.
      assert (o ∈ skipped) as Hos by (by eapply list_elem_of_lookup_2).
      destruct Hcase as [[->|HoS]%elem_of_cons|[_ ->]].
      * done.
      * destruct (Hdisj o Hos). right. by eapply sublist_elem_of.
      * by rewrite segment_distance2_start.
    + rewrite lookup_app_r in Ho by lia.
      rewrite lookup_app_r by (rewrite length_map; lia).
      rewrite length_map. apply (Hzero _ o Ho); [lia|].
      destruct Hcase as [[->|HoS]%elem_of_cons|[-> ->]].
      * right. split; [|done].
        by eapply (NoDup_lookup _ _ 0 s Hnd2 Ho).
      * by left.
      * right. destruct skipped; [|simpl in Hge; lia].
        simpl in Ho. by simplify_eq.
Qed.

(** The errors of an original without repeated points against a
    subsequence of it that keeps its first and its last point. *)
Lemma errors_of_subsequence (O Sall : list (list Z)) :
  whole DIM O → NoDup O → Sall `sublist_of` O → 2 ≤ length Sall →
  head Sall = head O → last Sall = last O →
  ∃ errors,
    PolylineSimplification.ComputePositionalErrors2 DIM (concat O) (concat Sall) =
      Some (PolylineSimplification.end_of errors, true) ∧
    length errors = length O ∧
    ∀ i o, O !! i = Some o → o ∈ Sall → errors !! i = Some 0%Z.
Proof.
  intros HO Hnd Hsub Hlen Hh Hl.
  destruct Sall as [|s0 S]; [simpl in Hlen; lia|].
  destruct O as [|o0 O]; [by apply sublist_nil_r in Hsub|].
  simpl in Hh. simplify_eq.
  assert (whole DIM (o0 :: S)) as HS by eauto using whole_sublist.
  assert (S `sublist_of` O) as Hsub'.
  { apply sublist_cons_r in Hsub as [Hsub|(l' & Heq & Hsub)].
    - apply NoDup_cons in Hnd as [Hnot _]. destruct Hnot.
      eapply sublist_elem_of; [done|left].
    - by simplify_eq. }
  pose proof (ComputePositionalErrors2_points DIM DIM_pos o0 S o0 O HS HO
                ltac:(simpl in Hlen; lia)
                ltac:(by apply sublist_length in Hsub') eq_refl) as Hrun.
  destruct (errors_all_distinct S o0 (o0 :: O) HO Hnd (sublist_cons _ _ _ Hsub'))
    as (HR & Hhead & Hzero).
  destruct (errors_all DIM o0 S (o0 :: O)) as [E R].
  cbn [fst snd] in *.
  assert (S ≠ []) as HSne by (intros ->; simpl in Hlen; lia).
  specialize (Hhead HSne).
  assert (last S = last (o0 :: O)) as Hl'.
  { rewrite <- Hl, (last_cons o0 S).
    by destruct (last S) eqn:E1; [|by apply last_None in E1]. }
  rewrite Hl', last_lookup in Hhead.
  assert (length E = length O) as HE.
  { rewrite HR, head_lookup, lookup_drop, Nat.add_0_r in Hhead.
    cbn [length Nat.pred] in Hhead.
    destruct ((o0 :: O) !! length O) as [r|] eqn:Hr.
    - by eapply (NoDup_lookup _ _ _ r Hnd Hhead).
    - apply lookup_ge_None in Hr. simpl in Hr. lia. }
  assert (R ≠ []) as HRne.
  { rewrite HR, HE. intros Hnil. apply (f_equal length) in Hnil.
    rewrite length_drop in Hnil. simpl in Hnil. lia. }
  rewrite bool_decide_eq_false_2 in Hrun by done. cbn [negb] in Hrun.
  eexists. split; [exact Hrun|]. split.
  { rewrite length_app. simpl. lia. }
  intros i o Ho HoS.
  destruct (decide (i < length E)) as [Hlt|Hge].
  - rewrite lookup_app_l by done. apply (Hzero i o Ho Hlt).
    apply elem_of_cons in HoS as [->|HoS]; [|by left].
    right. split; [|done]. by eapply (NoDup_lookup _ _ 0 o0 Hnd Ho).
  - apply lookup_lt_Some in Ho as Hi. simpl in Hi.
    assert (i = length E) as -> by lia.
    by rewrite lookup_app_r, Nat.sub_diag by lia.
Qed.

(** X26. For an original without repeated points and a simplification
    made of some of its points, in their order, the first and the last
    among them, [ComputePositionalErrors2] reports valid, writes exactly
    one error for every point of the original, and the error of every
    point that the simplification kept is zero. *)
Theorem errors_of_kept_points_are_zero (O Sall : list (list Z)) :
  whole DIM O → NoDup O → Sall `sublist_of` O → 2 ≤ length Sall →
  head Sall = head O → last Sall = last O →
  ∃ errors,
    PolylineSimplification.ComputePositionalErrors2 DIM (concat O) (concat Sall) =
      Some (PolylineSimplification.end_of errors, true) ∧
    length errors = length O ∧
    ∀ i o, O !! i = Some o → o ∈ Sall → errors !! i = Some 0%Z.
Proof. apply errors_of_subsequence. Qed.

(** X27. A polyline without repeated points has no positional error
    against itself: the routine reports valid and writes a zero for every
    point. *)
Theorem errors_against_itself (O : list (list Z)) :
  whole DIM O → NoDup O → 2 ≤ length O →
  PolylineSimplification.ComputePositionalErrors2 DIM (concat O) (concat O) =
  Some (PolylineSimplification.end_of (replicate (length O) 0%Z), true).
Proof.
  intros HO Hnd Hlen.
  destruct (errors_of_subsequence O O HO Hnd) as (errors & -> & HE & Hzero);
    [done..|].
  do 3 f_equal. apply list_eq. intros i.
  destruct (O !! i) as [o|] eqn:Ho.
  - rewrite (Hzero i o Ho) by (by eapply list_elem_of_lookup_2).
    symmetry. apply lookup_replicate. split; [done|]. by eapply lookup_lt_Some.
  - apply lookup_ge_None in Ho.
    rewrite (proj2 (lookup_ge_None _ _)) by lia.
    symmetry. apply lookup_ge_None. rewrite length_replicate. lia.
Qed.
End distinct_points.

(** * The theorems at concrete polylines *)

Lemma equal_iff_same_coordinates_witness :
  (2 ≤ length [1; 2; 3; 4]%Z ∧ 2 ≤ length [1; 2; 9]%Z) ∧
  (math.equal 2 [1; 2; 3; 4]%Z [1; 2; 9]%Z = true ↔
   take 2 [1; 2; 3; 4]%Z = take 2 [1; 2; 9]%Z).
Proof.
  split; [split; vm_compute; lia|].
  apply (equal_iff_same_coordinates 2 [1; 2; 3; 4]%Z [1; 2; 9]%Z); vm_compute; lia.
Defined.

Lemma point_distance2_metric_witness :
  (holds (VT := Int) 2147483647 ∧
   (sum_squares (take 2 [0; 0; 7]%Z) (take 2 [3; 4]%Z) <= 2147483647)%Z) ∧
  math.point_distance2 (VT := Int) 2 [0; 0; 7]%Z [3; 4]%Z =
    sum_squares (take 2 [0; 0; 7]%Z) (take 2 [3; 4]%Z) ∧
  (0 <= math.point_distance2 (VT := Int) 2 [0; 0; 7]%Z [3; 4]%Z)%Z ∧
  math.point_distance2 (VT := Int) 2 [0; 0; 7]%Z [3; 4]%Z =
    math.point_distance2 (VT := Int) 2 [3; 4]%Z [0; 0; 7]%Z ∧
  (math.point_distance2 (VT := Int) 2 [0; 0; 7]%Z [3; 4]%Z =? 0)%Z =
    math.equal 2 [0; 0; 7]%Z [3; 4]%Z.
Proof.
  split; [split; [exact Int_holds|vm_compute; discriminate]|].
  apply (point_distance2_metric (VT := Int) 2 [0; 0; 7]%Z [3; 4]%Z 2147483647 Int_holds).
  vm_compute; discriminate.
Defined.

Lemma segment_distance2_le_ends_witness :
  (holds (VT := Int) 2147483647 ∧
   (sum_squares [0; 0]%Z [4; 0]%Z <= 2147483647)%Z ∧
   (sum_squares [0; 0]%Z [1; 3]%Z <= 2147483647)%Z ∧
   (sum_squares [1; 3]%Z [4; 0]%Z <= 2147483647)%Z ∧
   projection_exact (VT := Int) (FM := ExactFloat) 2 [0; 0]%Z [4; 0]%Z [1; 3]%Z) ∧
  (math.segment_distance2 (VT := Int) (FM := ExactFloat) 2 [0; 0]%Z [4; 0]%Z [1; 3]%Z <=
   math.point_distance2 (VT := Int) 2 [1; 3]%Z [0; 0]%Z)%Z ∧
  (math.segment_distance2 (VT := Int) (FM := ExactFloat) 2 [0; 0]%Z [4; 0]%Z [1; 3]%Z <=
   math.point_distance2 (VT := Int) 2 [1; 3]%Z [4; 0]%Z)%Z.
Proof.
  assert (projection_exact (VT := Int) (FM := ExactFloat) 2 [0; 0]%Z [4; 0]%Z [1; 3]%Z) as Hex.
  { unfold projection_exact, lerp_exact. vm_compute. intros _. repeat constructor. }
  split; [split_and!; [exact Int_holds|vm_compute; discriminate..|exact Hex]|].
  apply (segment_distance2_le_ends (VT := Int) (FM := ExactFloat) 2 2147483647 Int_holds
           [0; 0]%Z [4; 0]%Z [1; 3]%Z);
    [reflexivity|reflexivity|reflexivity|vm_compute; discriminate..|exact Hex].
Defined.

Lemma fallback_copies_input_witness :
  (1 ≠ 0 ∧ single_pass (RadialDistance 0) = true ∧
   valid_input 1 (RadialDistance 0) [0; 1; 2]%Z = false) ∧
  ∃ out,
    run (VT := Int) (FM := ExactFloat) 1 PolylineSimplification.DPHelper.first_max
      (RadialDistance 0) [0; 1; 2]%Z = Some out ∧
    written out = [0; 1; 2]%Z ∧ returned out = 0.
Proof.
  split; [split_and!; [discriminate|reflexivity|reflexivity]|].
  apply (fallback_copies_input (VT := Int) (FM := ExactFloat) 1
           PolylineSimplification.DPHelper.first_max (RadialDistance 0) [0; 1; 2]%Z);
    [discriminate|reflexivity|reflexivity].
Defined.



Lemma NthPoint_keeps_every_nth_witness :
  let ps := [[0]; [1]; [2]; [3]; [4]; [5]; [6]; [7]]%Z in
  (whole 1 ps ∧ 2 ≤ length ps) ∧
  ∃ outs,
    PolylineSimplification.NthPoint 1 (concat ps) 3 =
      PolylineSimplification.end_of (concat outs) ∧
    length outs = (if (length ps - 1) mod 3 =? 0
                   then (length ps - 1) / 3 + 1 else (length ps - 1) / 3 + 2) ∧
    (∀ i, i ≤ (length ps - 1) / 3 → outs !! i = ps !! (i * 3)) ∧
    last outs = last ps.
Proof.
  cbn zeta.
  assert (whole 1 [[0]; [1]; [2]; [3]; [4]; [5]; [6]; [7]]%Z) as Hw
    by (repeat constructor).
  split; [split; [exact Hw|vm_compute; lia]|].
  apply (NthPoint_keeps_every_nth 1 ltac:(discriminate)
           [[0]; [1]; [2]; [3]; [4]; [5]; [6]; [7]]%Z 3 Hw);
    [vm_compute; lia|lia|reflexivity].
Defined.

Lemma RadialDistance_keys_apart_witness :
  let ps := [[0]; [1]; [10]; [11]]%Z in
  (whole 1 ps ∧ 2 ≤ length ps ∧ narrow (ValueType := Int) (3 * 3) ≠ 0%Z) ∧
  ∃ outs,
    PolylineSimplification.RadialDistance (VT := Int) 1 (concat ps) 3 =
      PolylineSimplification.end_of (concat outs) ∧
    last outs = last ps ∧
    ∀ i a b, outs !! i = Some a → outs !! S i = Some b →
      S (S i) < length outs →
      (narrow (ValueType := Int) (3 * 3) <= math.point_distance2 (VT := Int) 1 a b)%Z.
Proof.
  cbn zeta.
  assert (whole 1 [[0]; [1]; [10]; [11]]%Z) as Hw by (repeat constructor).
  split; [split_and!; [exact Hw|vm_compute; lia|discriminate]|].
  apply (RadialDistance_keys_apart (VT := Int) 1 [[0]; [1]; [10]; [11]]%Z 3
           ltac:(discriminate) Hw); [vm_compute; lia|discriminate].
Defined.

Lemma RadialDistance_covers_witness :
  let ps := [[0]; [1]; [10]; [11]]%Z in
  (whole 1 ps ∧ 2 ≤ length ps ∧ (0 < narrow (ValueType := Int) (3 * 3))%Z) ∧
  ∃ outs,
    PolylineSimplification.RadialDistance (VT := Int) 1 (concat ps) 3 =
      PolylineSimplification.end_of (concat outs) ∧
    ∀ p, p ∈ ps →
      ∃ a, a ∈ outs ∧
        (math.point_distance2 (VT := Int) 1 a p < narrow (ValueType := Int) (3 * 3))%Z.
Proof.
  cbn zeta.
  assert (whole 1 [[0]; [1]; [10]; [11]]%Z) as Hw by (repeat constructor).
  split; [split_and!; [exact Hw|vm_compute; lia|reflexivity]|].
  apply (RadialDistance_covers (VT := Int) 1 [[0]; [1]; [10]; [11]]%Z 3
           ltac:(discriminate) Hw); [vm_compute; lia|reflexivity].
Defined.

Lemma PerpendicularDistance_keeps_half_witness :
  let ps := [[0]; [5]; [2]; [7]; [3]]%Z in
  (whole 1 ps ∧ 3 ≤ length ps ∧ narrow (ValueType := Int) (5 * 5) ≠ 0%Z) ∧
  ∃ out,
    PolylineSimplification.PerpendicularDistance (VT := Int) (FM := ExactFloat) 1 (concat ps) 5 =
      Some out ∧
    returned out = length (written out) ∧
    length ps + 1 ≤ 2 * (length (written out) / 1).
Proof.
  cbn zeta.
  assert (whole 1 [[0]; [5]; [2]; [7]; [3]]%Z) as Hw by (repeat constructor).
  split; [split_and!; [exact Hw|vm_compute; lia|discriminate]|].
  apply (PerpendicularDistance_keeps_half (VT := Int) (FM := ExactFloat) 1 ltac:(discriminate)
           [[0]; [5]; [2]; [7]; [3]]%Z 5 Hw); [vm_compute; lia|discriminate].
Defined.

Lemma PerpendicularDistance_dropped_points_witness :
  let ps := [[0]; [5]; [2]; [7]; [3]]%Z in
  (whole 1 ps ∧ 3 ≤ length ps ∧ narrow (ValueType := Int) (5 * 5) ≠ 0%Z) ∧
  ∃ keys,
    length keys = length ps ∧
    PolylineSimplification.PerpendicularDistance (VT := Int) (FM := ExactFloat) 1 (concat ps) 5 =
      Some (PolylineSimplification.end_of (concat (flagged 0 keys ps))) ∧
    keys !! 0 = Some true ∧
    ∀ j p, ps !! S j = Some p →
      keys !! S j = Some true ∨
      (keys !! j = Some true ∧ keys !! S (S j) = Some true ∧
       ∃ a c, ps !! j = Some a ∧ ps !! S (S j) = Some c ∧
         (math.segment_distance2 (VT := Int) (FM := ExactFloat) 1 a c p <
          narrow (ValueType := Int) (5 * 5))%Z).
Proof.
  cbn zeta.
  assert (whole 1 [[0]; [5]; [2]; [7]; [3]]%Z) as Hw by (repeat constructor).
  split; [split_and!; [exact Hw|vm_compute; lia|discriminate]|].
  apply (PerpendicularDistance_dropped_points (VT := Int) (FM := ExactFloat) 1 ltac:(discriminate)
           [[0]; [5]; [2]; [7]; [3]]%Z 5 Hw); [vm_compute; lia|discriminate].
Defined.



Lemma ReumannWitkam_inside_strip_witness :
  let ps := [[0; 0]; [2; 0]; [4; 1]; [6; 9]; [8; 9]]%Z in
  (whole 2 ps ∧ 3 ≤ length ps ∧ narrow (ValueType := Int) (2 * 2) ≠ 0%Z) ∧
  ∃ keys,
    length keys = length ps ∧
    PolylineSimplification.ReumannWitkam (VT := Int) (FM := ExactFloat) 2 (concat ps) 2 =
      PolylineSimplification.end_of (concat (flagged 0 keys ps)) ∧
    keys !! 0 = Some true ∧ keys !! (length ps - 1) = Some true ∧
    ∀ j p, ps !! j = Some p → 0 < j →
      ∃ i k k', i < j ∧ ps !! i = Some k ∧ ps !! S i = Some k' ∧
        keys !! i = Some true ∧
        (j = S i ∨
         (math.line_distance2 (VT := Int) (FM := ExactFloat) 2 k k' p <
          narrow (ValueType := Int) (2 * 2))%Z).
Proof.
  cbn zeta.
  assert (whole 2 [[0; 0]; [2; 0]; [4; 1]; [6; 9]; [8; 9]]%Z) as Hw
    by (repeat constructor).
  split; [split_and!; [exact Hw|vm_compute; lia|discriminate]|].
  apply (ReumannWitkam_inside_strip (VT := Int) (FM := ExactFloat) 2 ltac:(discriminate)
           [[0; 0]; [2; 0]; [4; 1]; [6; 9]; [8; 9]]%Z 2 Hw);
    [vm_compute; lia|discriminate].
Defined.

Lemma Opheim_near_a_key_witness :
  let ps := [[0; 0]; [1; 0]; [20; 1]; [60; -3]]%Z in
  (whole 2 ps ∧ 2 ≤ length ps ∧ narrow (ValueType := Int) (5 * 5) ≠ 0%Z ∧
   narrow (ValueType := Int) (100 * 100) ≠ 0%Z) ∧
  ∃ keys,
    length keys = length ps ∧
    PolylineSimplification.Opheim (VT := Int) (FM := ExactFloat) 2 (concat ps) 5 100 =
      PolylineSimplification.end_of (concat (flagged 0 keys ps)) ∧
    keys !! 0 = Some true ∧ keys !! (length ps - 1) = Some true ∧
    ∀ j p, ps !! j = Some p → 0 < j →
      ∃ i k, i < j ∧ ps !! i = Some k ∧ keys !! i = Some true ∧
        (j = S i ∨
         Opheim_near (VT := Int) (FM := ExactFloat) 2 (narrow (ValueType := Int) (5 * 5))
           (narrow (ValueType := Int) (100 * 100)) ps (S i) j k p).
Proof.
  cbn zeta.
  assert (whole 2 [[0; 0]; [1; 0]; [20; 1]; [60; -3]]%Z) as Hw
    by (repeat constructor).
  split; [split_and!; [exact Hw|vm_compute; lia|discriminate|discriminate]|].
  apply (Opheim_near_a_key (VT := Int) (FM := ExactFloat) 2
           [[0; 0]; [1; 0]; [20; 1]; [60; -3]]%Z 5 100 ltac:(discriminate) Hw);
    [vm_compute; lia|discriminate|discriminate].
Defined.

Lemma FindKey_never_returns_last_witness :
  (1 ≠ 0 ∧ 0 < 4 ∧ interior 1 0 4 2 ∧
   (0 <= key_distance (VT := Int) (FM := ExactFloat) 1 [0; 5; 9; 2; 1]%Z 0 4 2)%Z) ∧
  let keyInfo :=
    PolylineSimplification.DPHelper.FindKey (VT := Int) (FM := ExactFloat) 1
      [0; 5; 9; 2; 1]%Z 0 4 in
  PolylineSimplification.DPHelper.index keyInfo ≠ 4 ∧
  ((∃ c, interior 1 0 4 c ∧
      (0 <= key_distance (VT := Int) (FM := ExactFloat) 1 [0; 5; 9; 2; 1]%Z 0 4 c)%Z) →
   0 + 1 ≤ PolylineSimplification.DPHelper.index keyInfo < 4) ∧
  ((∀ c, interior 1 0 4 c →
      (key_distance (VT := Int) (FM := ExactFloat) 1 [0; 5; 9; 2; 1]%Z 0 4 c < 0)%Z) →
   keyInfo = PolylineSimplification.DPHelper.mkKeyInfo 0 0).
Proof.
  split; [split_and!; [discriminate|lia|exists 1; split; [reflexivity|lia]|vm_compute; discriminate]|].
  apply (FindKey_never_returns_last (VT := Int) (FM := ExactFloat) 1 [0; 5; 9; 2; 1]%Z 0 4);
    [discriminate|lia].
Defined.

Lemma Approximate_within_tolerance_witness :
  (1 ≠ 0 ∧ 2 ≤ 5 ∧ (0 <= narrow (ValueType := Int) (2 * 2))%Z) ∧
  ∃ keys,
    PolylineSimplification.DPHelper.Approximate (VT := Int) (FM := ExactFloat) 1
      [0; 9; 2; 3; 2]%Z (5 * 1) 2 = Some keys ∧
    length keys = 5 ∧ keys !! 0 = Some true ∧ keys !! (5 - 1) = Some true ∧
    ∀ i, keys !! i = Some false →
      ∃ a b, a < i < b ∧ keys !! a = Some true ∧ keys !! b = Some true ∧
        (∀ j, a < j < b → keys !! j = Some false) ∧
        (key_distance (VT := Int) (FM := ExactFloat) 1 [0; 9; 2; 3; 2]%Z (a * 1) (b * 1) (i * 1)
         <= narrow (ValueType := Int) (2 * 2))%Z.
Proof.
  split; [split_and!; [discriminate|lia|discriminate]|].
  apply (Approximate_within_tolerance (VT := Int) (FM := ExactFloat) 1 [0; 9; 2; 3; 2]%Z 5 2);
    [discriminate|lia|discriminate].
Defined.




Lemma ComputePositionalErrors2_fits_witness :
  1 ≠ 0 ∧
  ∃ out valid,
    PolylineSimplification.ComputePositionalErrors2 (VT := Int) (FM := ExactFloat) 1
      [0; 1; 2; 1]%Z [0; 1]%Z = Some (out, valid) ∧
    returned out = length (written out) ∧
    length (written out) ≤ length [0; 1; 2; 1]%Z / 1 ∧
    (valid = false →
       written out = [] ∨ length (written out) = length [0; 1; 2; 1]%Z / 1).
Proof.
  split; [discriminate|].
  apply (ComputePositionalErrors2_fits (VT := Int) (FM := ExactFloat) 1 [0; 1; 2; 1]%Z [0; 1]%Z).
  discriminate.
Defined.

Lemma errors_of_kept_points_are_zero_witness :
  let O := [[0; 0]; [1; 3]; [4; 0]]%Z in
  let Sall := [[0; 0]; [4; 0]]%Z in
  (whole 2 O ∧ NoDup O ∧ Sall `sublist_of` O ∧ 2 ≤ length Sall ∧
   head Sall = head O ∧ last Sall = last O) ∧
  ∃ errors,
    PolylineSimplification.ComputePositionalErrors2 (VT := Int) (FM := ExactFloat) 2
      (concat O) (concat Sall) =
      Some (PolylineSimplification.end_of errors, true) ∧
    length errors = length O ∧
    ∀ i o, O !! i = Some o → o ∈ Sall → errors !! i = Some 0%Z.
Proof.
  cbn zeta.
  assert (whole 2 [[0; 0]; [1; 3]; [4; 0]]%Z) as Hw by (repeat constructor).
  assert (NoDup [[0; 0]; [1; 3]; [4; 0]]%Z) as Hnd
    by (apply (bool_decide_unpack _); vm_compute; exact I).
  assert ([[0; 0]; [4; 0]]%Z `sublist_of` [[0; 0]; [1; 3]; [4; 0]]%Z) as Hsub
    by (apply sublist_skip, sublist_cons, sublist_skip, sublist_nil).
  split; [split_and!; [exact Hw|exact Hnd|exact Hsub|vm_compute; lia|
                       reflexivity|reflexivity]|].
  apply (errors_of_kept_points_are_zero (VT := Int) (FM := ExactFloat) 2 ltac:(discriminate)
           [[0; 0]; [1; 3]; [4; 0]]%Z [[0; 0]; [4; 0]]%Z Hw Hnd Hsub);
    [vm_compute; lia|reflexivity|reflexivity].
Defined.

Lemma errors_against_itself_witness :
  let O := [[0; 0]; [1; 3]; [4; 0]]%Z in
  (whole 2 O ∧ NoDup O ∧ 2 ≤ length O) ∧
  PolylineSimplification.ComputePositionalErrors2 (VT := Int) (FM := ExactFloat) 2
    (concat O) (concat O) =
  Some (PolylineSimplification.end_of (replicate (length O) 0%Z), true).
Proof.
  cbn zeta.
  assert (whole 2 [[0; 0]; [1; 3]; [4; 0]]%Z) as Hw by (repeat constructor).
  assert (NoDup [[0; 0]; [1; 3]; [4; 0]]%Z) as Hnd
    by (apply (bool_decide_unpack _); vm_compute; exact I).
  split; [split_and!; [exact Hw|exact Hnd|vm_compute; lia]|].
  apply (errors_against_itself (VT := Int) (FM := ExactFloat) 2 ltac:(discriminate)
           [[0; 0]; [1; 3]; [4; 0]]%Z Hw Hnd).
  vm_compute; lia.
Defined.
